(** * A generic doubly linked list with an in-place quicksort

    Shallow embedding of [list.go]: a sentinel-based circular doubly linked
    list whose [QuickSort] reorders the ring by relinking nodes.

    Pointers are modelled as [option nat] ([None] is Go's [nil]); the heap is
    a finite map from addresses to [Element] records.  A [List] lives at the
    address of its embedded [root] element, so [&l.root] and [l] are the same
    address; its [len] field is kept in a second map.  Every Go statement
    that dereferences a pointer is a step of an error monad that faults on
    [nil]; unbounded loops and the recursion of [_qsort] take fuel. *)

From stdpp Require Import gmap list sorting.
From Stdlib Require Import ZArith Lia.
From Stdlib Require DecimalString.

Local Open Scope Z_scope.

(** ** Outcomes of running Go code *)

Inductive fault := NilDeref | OutOfMemory | OutOfFuel.

Inductive result (A : Type) : Type :=
| Done (a : A)
| Fault (f : fault).
Arguments Done {A} a.
Arguments Fault {A} f.

Definition bindR {A B} (m : result A) (k : A → result B) : result B :=
  match m with
  | Done a => k a
  | Fault f => Fault f
  end.

Notation "'do' x <- m ; k" := (bindR m (fun x => k))
  (at level 10, x name, m at level 100, k at level 200).
Notation "'do' ( x , y ) <- m ; k" := (bindR m (fun '(x, y) => k))
  (at level 10, x name, y name, m at level 100, k at level 200).
Notation "'do' ( x , y , z ) <- m ; k" := (bindR m (fun '(x, y, z) => k))
  (at level 10, x name, y name, z name, m at level 100, k at level 200).

Abbreviation ptr := (option nat).

(** Go's [int] is 64 bits wide; [l.len++] and [l.len--] wrap around. *)
Definition wrap_int (z : Z) : Z := (z + 2 ^ 63) mod 2 ^ 64 - 2 ^ 63.

Section GoList.

(** The element type [T] with its zero value, and the number of addresses
    the allocator can hand out (allocation past it is a fatal error). *)
Context {T : Type}.
Variable zero : T.
Variable mem_limit : nat.

(** ** Data model *)

(** [type Element[T any] struct { next, prev *Element[T]; list *List[T]; Value T }] *)
Record Element : Type := mkElement {
  next : ptr;
  prev : ptr;
  list_ : ptr;
  Value : T
}.

Abbreviation heap := (gmap nat Element).

(** The memory: every [Element] (the [root] of a list at the list's own
    address), the [len] field of every [List], and the allocation pointer. *)
Record State : Type := mkState {
  elems : heap;
  lens : gmap nat Z;
  brk : nat
}.

Definition with_next (v : ptr) (e : Element) : Element :=
  mkElement v (prev e) (list_ e) (Value e).
Definition with_prev (v : ptr) (e : Element) : Element :=
  mkElement (next e) v (list_ e) (Value e).
Definition with_list (v : ptr) (e : Element) : Element :=
  mkElement (next e) (prev e) v (Value e).

(** ** Reading and writing through pointers *)

Definition deref (h : heap) (p : ptr) : result Element :=
  match p with
  | Some a => match h !! a with
              | Some e => Done e
              | None => Fault NilDeref
              end
  | None => Fault NilDeref
  end.

Definition get_next (h : heap) (p : ptr) : result ptr :=
  do e <- deref h p; Done (next e).
Definition get_prev (h : heap) (p : ptr) : result ptr :=
  do e <- deref h p; Done (prev e).
Definition get_list (h : heap) (p : ptr) : result ptr :=
  do e <- deref h p; Done (list_ e).
Definition get_Value (h : heap) (p : ptr) : result T :=
  do e <- deref h p; Done (Value e).

Definition store (f : Element → Element) (h : heap) (p : ptr) : result heap :=
  match p with
  | Some a => match h !! a with
              | Some e => Done (<[a := f e]> h)
              | None => Fault NilDeref
              end
  | None => Fault NilDeref
  end.

Definition set_next (h : heap) (p v : ptr) : result heap := store (with_next v) h p.
Definition set_prev (h : heap) (p v : ptr) : result heap := store (with_prev v) h p.
Definition set_list (h : heap) (p v : ptr) : result heap := store (with_list v) h p.

Definition with_elems (s : State) (h : heap) : State := mkState h (lens s) (brk s).

Definition get_len (s : State) (l : ptr) : result Z :=
  match l with
  | Some a => match lens s !! a with
              | Some n => Done n
              | None => Fault NilDeref
              end
  | None => Fault NilDeref
  end.

Definition set_len (s : State) (l : ptr) (n : Z) : result State :=
  match l with
  | Some a => match lens s !! a with
              | Some _ => Done (mkState (elems s) (<[a := n]> (lens s)) (brk s))
              | None => Fault NilDeref
              end
  | None => Fault NilDeref
  end.

(** [&Element[T]{Value: v}]: a fresh element with nil links. *)
Definition new_Element (s : State) (v : T) : result (State * ptr) :=
  if decide (brk s < mem_limit)%nat then
    Done (mkState (<[brk s := mkElement None None None v]> (elems s)) (lens s) (S (brk s)),
          Some (brk s))
  else Fault OutOfMemory.

(** [new(List[T])]: a zero [List], its [root] a zero [Element]. *)
Definition new_List (s : State) : result (State * ptr) :=
  if decide (brk s < mem_limit)%nat then
    Done (mkState (<[brk s := mkElement None None None zero]> (elems s))
                  (<[brk s := 0]> (lens s)) (S (brk s)),
          Some (brk s))
  else Fault OutOfMemory.

(** ** Element methods *)

(** [func (e *Element[T]) Next() *Element[T]] *)
Definition Next (h : heap) (e : ptr) : result ptr :=
  do p <- get_next h e;
  do l <- get_list h e;
  if decide (l ≠ None ∧ p ≠ l) then Done p else Done None.

(** [func (e *Element[T]) Prev() *Element[T]] *)
Definition Prev (h : heap) (e : ptr) : result ptr :=
  do p <- get_prev h e;
  do l <- get_list h e;
  if decide (l ≠ None ∧ p ≠ l) then Done p else Done None.

(** ** List methods *)

(** [func (l *List[T]) Init() *List[T]] *)
Definition Init (s : State) (l : ptr) : result State :=
  do h <- set_next (elems s) l l;
  do h <- set_prev h l l;
  set_len (with_elems s h) l 0.

(** [func New[T any]() *List[T]] *)
Definition New (s : State) : result (State * ptr) :=
  do (s, l) <- new_List s;
  do s <- Init s l;
  Done (s, l).

(** [func (l *List[T]) Len() int] *)
Definition Len (s : State) (l : ptr) : result Z := get_len s l.

(** [func (l *List[T]) Front() *Element[T]] *)
Definition Front (s : State) (l : ptr) : result ptr :=
  do n <- get_len s l;
  if decide (n = 0) then Done None else get_next (elems s) l.

(** [func (l *List[T]) Back() *Element[T]] *)
Definition Back (s : State) (l : ptr) : result ptr :=
  do n <- get_len s l;
  if decide (n = 0) then Done None else get_prev (elems s) l.

(** [func (l *List[T]) lazyInit()] *)
Definition lazyInit (s : State) (l : ptr) : result State :=
  do n <- get_next (elems s) l;
  if decide (n = None) then Init s l else Done s.

(** [func (l *List[T]) insert(e, at *Element[T]) *Element[T]] *)
Definition insert (s : State) (l e at_ : ptr) : result (State * ptr) :=
  let h := elems s in
  do h <- set_prev h e at_;
  do an <- get_next h at_;
  do h <- set_next h e an;
  do ep <- get_prev h e;
  do h <- set_next h ep e;
  do en <- get_next h e;
  do h <- set_prev h en e;
  do h <- set_list h e l;
  do n <- get_len s l;
  do s <- set_len (with_elems s h) l (wrap_int (n + 1));
  Done (s, e).

(** [func (l *List[T]) insertValue(v T, at *Element[T]) *Element[T]] *)
Definition insertValue (s : State) (l : ptr) (v : T) (at_ : ptr) : result (State * ptr) :=
  do (s, e) <- new_Element s v;
  insert s l e at_.

(** [func (l *List[T]) remove(e *Element[T])] *)
Definition remove (s : State) (l e : ptr) : result State :=
  let h := elems s in
  do ep <- get_prev h e;
  do en <- get_next h e;
  do h <- set_next h ep en;
  do en <- get_next h e;
  do ep <- get_prev h e;
  do h <- set_prev h en ep;
  do h <- set_next h e None;
  do h <- set_prev h e None;
  do h <- set_list h e None;
  do n <- get_len s l;
  set_len (with_elems s h) l (wrap_int (n - 1)).

(** [func (l *List[T]) move(e, at *Element[T])] *)
Definition move (h : heap) (e at_ : ptr) : result heap :=
  if decide (e = at_) then Done h
  else
    do ep <- get_prev h e;
    do en <- get_next h e;
    do h <- set_next h ep en;
    do en <- get_next h e;
    do ep <- get_prev h e;
    do h <- set_prev h en ep;
    do h <- set_prev h e at_;
    do an <- get_next h at_;
    do h <- set_next h e an;
    do ep <- get_prev h e;
    do h <- set_next h ep e;
    do en <- get_next h e;
    set_prev h en e.

(** [func (l *List[T]) Remove(e *Element[T]) T] *)
Definition Remove (s : State) (l e : ptr) : result (State * T) :=
  do el <- get_list (elems s) e;
  do s <- (if decide (el = l) then remove s l e else Done s);
  do v <- get_Value (elems s) e;
  Done (s, v).

(** [func (l *List[T]) PushFront(v T) *Element[T]] *)
Definition PushFront (s : State) (l : ptr) (v : T) : result (State * ptr) :=
  do s <- lazyInit s l;
  insertValue s l v l.

(** [func (l *List[T]) PushBack(v T) *Element[T]] *)
Definition PushBack (s : State) (l : ptr) (v : T) : result (State * ptr) :=
  do s <- lazyInit s l;
  do rp <- get_prev (elems s) l;
  insertValue s l v rp.

(** [func (l *List[T]) InsertBefore(v T, mark *Element[T]) *Element[T]] *)
Definition InsertBefore (s : State) (l : ptr) (v : T) (mark : ptr) : result (State * ptr) :=
  do ml <- get_list (elems s) mark;
  if decide (ml ≠ l) then Done (s, None)
  else do mp <- get_prev (elems s) mark; insertValue s l v mp.

(** [func (l *List[T]) InsertAfter(v T, mark *Element[T]) *Element[T]] *)
Definition InsertAfter (s : State) (l : ptr) (v : T) (mark : ptr) : result (State * ptr) :=
  do ml <- get_list (elems s) mark;
  if decide (ml ≠ l) then Done (s, None)
  else insertValue s l v mark.

(** [func (l *List[T]) MoveToFront(e *Element[T])] *)
Definition MoveToFront (s : State) (l e : ptr) : result State :=
  do el <- get_list (elems s) e;
  if decide (el ≠ l) then Done s
  else
    do rn <- get_next (elems s) l;
    if decide (rn = e) then Done s
    else do h <- move (elems s) e l; Done (with_elems s h).

(** [func (l *List[T]) MoveToBack(e *Element[T])] *)
Definition MoveToBack (s : State) (l e : ptr) : result State :=
  do el <- get_list (elems s) e;
  if decide (el ≠ l) then Done s
  else
    do rp <- get_prev (elems s) l;
    if decide (rp = e) then Done s
    else do rp <- get_prev (elems s) l;
         do h <- move (elems s) e rp; Done (with_elems s h).

(** [func (l *List[T]) MoveBefore(e, mark *Element[T])] *)
Definition MoveBefore (s : State) (l e mark : ptr) : result State :=
  do el <- get_list (elems s) e;
  if decide (el ≠ l) then Done s
  else if decide (e = mark) then Done s
  else
    do ml <- get_list (elems s) mark;
    if decide (ml ≠ l) then Done s
    else do mp <- get_prev (elems s) mark;
         do h <- move (elems s) e mp; Done (with_elems s h).

(** [func (l *List[T]) MoveAfter(e, mark *Element[T])] *)
Definition MoveAfter (s : State) (l e mark : ptr) : result State :=
  do el <- get_list (elems s) e;
  if decide (el ≠ l) then Done s
  else if decide (e = mark) then Done s
  else
    do ml <- get_list (elems s) mark;
    if decide (ml ≠ l) then Done s
    else do h <- move (elems s) e mark; Done (with_elems s h).

(** The body and post statement of the loop of [PushBackList]; [i] counts
    down from [other.Len()], so the loop runs [i] times. *)
Fixpoint PushBackList_loop (i : nat) (s : State) (l e : ptr) : result State :=
  match i with
  | O => Done s
  | S i' =>
      do v <- get_Value (elems s) e;
      do rp <- get_prev (elems s) l;
      do (s, _) <- insertValue s l v rp;
      do e <- Next (elems s) e;
      PushBackList_loop i' s l e
  end.

(** [func (l *List[T]) PushBackList(other *List[T])] *)
Definition PushBackList (s : State) (l other : ptr) : result State :=
  do s <- lazyInit s l;
  do i <- Len s other;
  do e <- Front s other;
  PushBackList_loop (Z.to_nat i) s l e.

Fixpoint PushFrontList_loop (i : nat) (s : State) (l e : ptr) : result State :=
  match i with
  | O => Done s
  | S i' =>
      do v <- get_Value (elems s) e;
      do (s, _) <- insertValue s l v l;
      do e <- Prev (elems s) e;
      PushFrontList_loop i' s l e
  end.

(** [func (l *List[T]) PushFrontList(other *List[T])] *)
Definition PushFrontList (s : State) (l other : ptr) : result State :=
  do s <- lazyInit s l;
  do i <- Len s other;
  do e <- Back s other;
  PushFrontList_loop (Z.to_nat i) s l e.

(** ** Printing *)

Section Printing.

(** [sprintf v] stands for [fmt.Sprintf("%+v ", v)]. *)
Variable sprintf : T → String.string.

(** The loop of [String]: [for n != nil && n != &l.root]; the accumulator
    is the [strings.Builder]. *)
Fixpoint String_loop (n : nat) (h : heap) (l p : ptr) (acc : String.string)
  : result String.string :=
  match n with
  | O => Fault OutOfFuel
  | S n' =>
      if decide (p ≠ None ∧ p ≠ l) then
        do v <- get_Value h p;
        do q <- get_next h p;
        String_loop n' h l q (String.append acc (sprintf v))
      else Done acc
  end.

(** [func (l *List[T]) String() string] *)
Definition String_ (n : nat) (s : State) (l : ptr) : result String.string :=
  do len <- get_len s l;
  if decide (len = 0) then Done String.EmptyString
  else
    do p <- get_next (elems s) l;
    String_loop n (elems s) l p String.EmptyString.

End Printing.

(** ** The relink primitive *)

(** [func swap[T any](b, d *Element[T]) (neighbor bool)] *)
Definition swap (h : heap) (b d : ptr) : result (heap * bool) :=
  if decide (b ≠ d) then
    do bn <- get_next h b;
    do bp <- get_prev h b;
    if decide (bn = d ∨ bp = d) then
      if decide (bn = d) then
        do bp <- get_prev h b;
        do h <- set_next h bp d;
        do dn <- get_next h d;
        do h <- set_prev h dn b;
        do bp <- get_prev h b;
        do h <- set_prev h d bp;
        do dn <- get_next h d;
        do h <- set_next h b dn;
        do h <- set_next h d b;
        do h <- set_prev h b d;
        Done (h, true)
      else
        do dp <- get_prev h d;
        do h <- set_next h dp b;
        do bn <- get_next h b;
        do h <- set_prev h bn d;
        do dp <- get_prev h d;
        do h <- set_prev h b dp;
        do bn <- get_next h b;
        do h <- set_next h d bn;
        do h <- set_next h b d;
        do h <- set_prev h d b;
        Done (h, true)
    else
      do bn <- get_next h b;
      do h <- set_prev h bn d;
      do bp <- get_prev h b;
      do h <- set_next h bp d;
      do dn <- get_next h d;
      do h <- set_prev h dn b;
      do dp <- get_prev h d;
      do h <- set_next h dp b;
      do bPrevP <- get_prev h b;
      do bNextP <- get_next h b;
      do dp <- get_prev h d;
      do h <- set_prev h b dp;
      do dn <- get_next h d;
      do h <- set_next h b dn;
      do h <- set_prev h d bPrevP;
      do h <- set_next h d bNextP;
      Done (h, false)
  else Done (h, false).

(** ** The sort engine *)

Section Sort.

Variable cmp : T → T → Z.

(** [for right != left && cmp(right.Value, pivotValue) >= 0 { right = right.Prev() }] *)
Fixpoint scan_right (n : nat) (h : heap) (left right : ptr) (pivotValue : T) : result ptr :=
  match n with
  | O => Fault OutOfFuel
  | S n' =>
      if decide (right ≠ left) then
        do v <- get_Value h right;
        if decide (cmp v pivotValue >= 0) then
          do right <- Prev h right;
          scan_right n' h left right pivotValue
        else Done right
      else Done right
  end.

(** [for left != right && cmp(left.Value, pivotValue) <= 0 { left = left.Next() }] *)
Fixpoint scan_left (n : nat) (h : heap) (left right : ptr) (pivotValue : T) : result ptr :=
  match n with
  | O => Fault OutOfFuel
  | S n' =>
      if decide (left ≠ right) then
        do v <- get_Value h left;
        if decide (cmp v pivotValue <= 0) then
          do left <- Next h left;
          scan_left n' h left right pivotValue
        else Done left
      else Done left
  end.

(** The partition loop of [_qsort] (the outer [for]); it returns the heap
    and the two cursors at the moment the loop is left. *)
Fixpoint partition_loop (n : nat) (h : heap) (left right : ptr) (pivotValue : T)
  : result (heap * ptr * ptr) :=
  match n with
  | O => Fault OutOfFuel
  | S n' =>
      do right <- scan_right n h left right pivotValue;
      do left <- scan_left n h left right pivotValue;
      if decide (left = right) then Done (h, left, right)
      else
        do (h, isNeighbour) <- swap h left right;
        (* left, right = right, left *)
        if isNeighbour : bool then Done (h, right, left)
        else partition_loop n' h right left pivotValue
  end.

(** Placing the pivot: [leftNext := left.next; swap(LBoundary.next, left);
    finalPivot = leftNext.prev]. *)
Definition place_pivot (h : heap) (LBoundary left : ptr) : result (heap * ptr) :=
  do leftNext <- get_next h left;
  do first <- get_next h LBoundary;
  do (h, _) <- swap h first left;
  do finalPivot <- get_prev h leftNext;
  Done (h, finalPivot).

(** [func _qsort[T any](lst *List[T], left, right *Element[T], cmp func(a, b T) int)] *)
Fixpoint _qsort (n : nat) (h : heap) (lst left right : ptr) : result heap :=
  match n with
  | O => Fault OutOfFuel
  | S n' =>
      if decide (left = right) then Done h
      else
        do LBoundary <- get_prev h left;
        do RBoundary <- get_next h right;
        do pivotValue <- get_Value h left;
        do (h, left', right') <- partition_loop n h left right pivotValue;
        do (h, finalPivot) <- place_pivot h LBoundary left';
        do first <- get_next h LBoundary;
        do h <- (if decide (first ≠ finalPivot) then
                   do first <- get_next h LBoundary;
                   do last <- get_prev h finalPivot;
                   _qsort n' h lst first last
                 else Done h);
        do last <- get_prev h RBoundary;
        if decide (finalPivot ≠ last) then
          do first <- get_next h finalPivot;
          do last <- get_prev h RBoundary;
          _qsort n' h lst first last
        else Done h
  end.

(** [func (l *List[T]) QuickSort(cmp func(a, b T) int)] *)
Definition QuickSort (n : nat) (s : State) (l : ptr) : result State :=
  do s <- lazyInit s l;
  do first <- Front s l;
  do last <- Back s l;
  do h <- _qsort n (elems s) l first last;
  Done (with_elems s h).

End Sort.

(** ** Traversal, as the package documentation iterates a list *)

(** [for e := l.Front(); e != nil; e = e.Next() { ... }], collecting the
    nodes visited. *)
Fixpoint walk (n : nat) (h : heap) (e : ptr) : result (list nat) :=
  match e with
  | None => Done []
  | Some a =>
      match n with
      | O => Fault OutOfFuel
      | S n' => do e' <- Next h e; do r <- walk n' h e'; Done (a :: r)
      end
  end.

Definition traversal (n : nat) (s : State) (l : ptr) : result (list nat) :=
  do e <- Front s l; walk n (elems s) e.

(** The same loop, collecting [e.Value]. *)
Fixpoint read_values (h : heap) (ns : list nat) : result (list T) :=
  match ns with
  | [] => Done []
  | a :: r => do v <- get_Value h (Some a); do vs <- read_values h r; Done (v :: vs)
  end.

Definition Values (n : nat) (s : State) (l : ptr) : result (list T) :=
  do ns <- traversal n s l; read_values (elems s) ns.

(** ** Reading the heap as a graph *)

(** The fields of the element at an address ([None] for a nil link or an
    address that holds no element). *)
Definition nx (h : heap) (a : nat) : ptr := h !! a ≫= next.
Definition pv (h : heap) (a : nat) : ptr := h !! a ≫= prev.
Definition owner (h : heap) (a : nat) : ptr := h !! a ≫= list_.
Definition value_of (h : heap) (a : nat) : option T := Value <$> h !! a.

(** [x.next == y] and [y.prev == x]. *)
Definition link (h : heap) (x y : nat) : Prop :=
  nx h x = Some y ∧ pv h y = Some x.

(** Every two consecutive addresses of a path are linked both ways. *)
Fixpoint linked (h : heap) (p : list nat) : Prop :=
  match p with
  | x :: r => match r with
              | y :: _ => link h x y ∧ linked h r
              | [] => True
              end
  | [] => True
  end.

(** The ring of list [l]: following [next] from the sentinel visits exactly
    the nodes [ns], in this order, and comes back to the sentinel; [prev]
    runs the same ring backwards. *)
Definition ring (h : heap) (l : nat) (ns : list nat) : Prop :=
  NoDup (l :: ns) ∧ linked h (l :: ns ++ [l]).

(** The nodes [ns] all name [l] as their list. *)
Definition owned (h : heap) (l : nat) (ns : list nat) : Prop :=
  ∀ x, x ∈ ns → owner h x = Some l.

(** Two heaps hold the same elements with the same values and owners; only
    links may differ. *)
Definition same_data (h h' : heap) : Prop :=
  ∀ x, value_of h' x = value_of h x ∧ owner h' x = owner h x.

(** Two heaps agree outside a set of addresses. *)
Definition same_outside (S : list nat) (h h' : heap) : Prop :=
  ∀ x, x ∉ S → h' !! x = h !! x.

End GoList.

(** ** Lists of addresses *)

(** The last element of [x :: l]. *)
Fixpoint lastd {A} (x : A) (l : list A) : A :=
  match l with
  | [] => x
  | y :: r => lastd y r
  end.

(** The transposition that exchanges [b] and [d]. *)
Definition transp (b d x : nat) : nat :=
  if decide (x = b) then d else if decide (x = d) then b else x.

(** ** Comparators *)

(** A three-way comparator that is a total or weak order: exchanging the
    arguments flips the sign, and "not after" is transitive. *)
Record valid_cmp {T : Type} (cmp : T → T → Z) : Prop := {
  cmp_flip : ∀ a b, Z.sgn (cmp b a) = - Z.sgn (cmp a b);
  cmp_trans : ∀ a b c, cmp a b <= 0 → cmp b c <= 0 → cmp a c <= 0
}.

(** [V] gives the value stored in each of the nodes [ns]. *)
Definition node_values {T : Type} (h : gmap nat (@Element T)) (V : nat → T)
    (ns : list nat) : Prop :=
  ∀ x, x ∈ ns → value_of h x = Some (V x).

(** The order of two nodes, by the values [V] gives them. *)
Definition node_le {T : Type} (cmp : T → T → Z) (V : nat → T) (a b : nat) : Prop :=
  cmp (V a) (V b) <= 0.

(** ** Well-formed lists *)

(** List [l] of state [s] holds exactly the nodes [ns], front to back: its
    sentinel is an element owned by no list; the sentinel and the nodes form
    a ring, or the list is a zero [List] that was never initialised; the
    nodes are the elements that name [l] as their list; [len] counts them. *)
Record list_rep {T : Type} (s : @State T) (l : nat) (ns : list nat) : Prop := {
  rep_root : is_Some (elems s !! l) ∧ owner (elems s) l = None;
  rep_ring : ring (elems s) l ns ∨ (ns = [] ∧ nx (elems s) l = None);
  rep_owned : ∀ x, x ∈ ns ↔ owner (elems s) x = Some l;
  rep_len : lens s !! l = Some (Z.of_nat (length ns))
}.

(** ** Sequences of public operations *)

Section Operations.
Context {T : Type}.
Variable zero : T.
Variable mem_limit : nat.

(** The calls a client can make: the constructors of lists and elements and
    the exported methods of [List].  Pointers are given by address. *)
Inductive op : Type :=
| OpNew
| OpZeroList
| OpElement (v : T)
| OpPushFront (l : nat) (v : T)
| OpPushBack (l : nat) (v : T)
| OpInsertBefore (l : nat) (v : T) (mark : nat)
| OpInsertAfter (l : nat) (v : T) (mark : nat)
| OpRemove (l e : nat)
| OpMoveToFront (l e : nat)
| OpMoveToBack (l e : nat)
| OpMoveBefore (l e mark : nat)
| OpMoveAfter (l e mark : nat)
| OpPushBackList (l other : nat)
| OpPushFrontList (l other : nat)
| OpQuickSort (l : nat) (cmp : T → T → Z) (fuel : nat).

Definition run_op (s : @State T) (o : op) : result (@State T) :=
  match o with
  | OpNew => do (s, _) <- New zero mem_limit s; Done s
  | OpZeroList => do (s, _) <- new_List zero mem_limit s; Done s
  | OpElement v => do (s, _) <- new_Element mem_limit s v; Done s
  | OpPushFront l v => do (s, _) <- PushFront mem_limit s (Some l) v; Done s
  | OpPushBack l v => do (s, _) <- PushBack mem_limit s (Some l) v; Done s
  | OpInsertBefore l v mark =>
      do (s, _) <- InsertBefore mem_limit s (Some l) v (Some mark); Done s
  | OpInsertAfter l v mark =>
      do (s, _) <- InsertAfter mem_limit s (Some l) v (Some mark); Done s
  | OpRemove l e => do (s, _) <- Remove s (Some l) (Some e); Done s
  | OpMoveToFront l e => MoveToFront s (Some l) (Some e)
  | OpMoveToBack l e => MoveToBack s (Some l) (Some e)
  | OpMoveBefore l e mark => MoveBefore s (Some l) (Some e) (Some mark)
  | OpMoveAfter l e mark => MoveAfter s (Some l) (Some e) (Some mark)
  | OpPushBackList l other => PushBackList mem_limit s (Some l) (Some other)
  | OpPushFrontList l other => PushFrontList mem_limit s (Some l) (Some other)
  | OpQuickSort l cmp fuel => QuickSort cmp fuel s (Some l)
  end.

(** Go's types: a [*List] argument points to a list, a [*Element] argument
    to an element that is not the sentinel of a list, and neither is nil. *)
Definition is_list (s : @State T) (l : nat) : Prop := is_Some (lens s !! l).
Definition is_element (s : @State T) (e : nat) : Prop :=
  is_Some (elems s !! e) ∧ lens s !! e = None.

Definition op_wf (s : @State T) (o : op) : Prop :=
  match o with
  | OpNew | OpZeroList | OpElement _ => True
  | OpPushFront l _ | OpPushBack l _ | OpQuickSort l _ _ => is_list s l
  | OpInsertBefore l _ e | OpInsertAfter l _ e | OpRemove l e
  | OpMoveToFront l e | OpMoveToBack l e => is_list s l ∧ is_element s e
  | OpMoveBefore l e mark | OpMoveAfter l e mark =>
      is_list s l ∧ is_element s e ∧ is_element s mark
  | OpPushBackList l other | OpPushFrontList l other => is_list s l ∧ is_list s other
  end.

#[global] Instance op_wf_dec (s : @State T) (o : op) : Decision (op_wf s o).
Proof. destruct o; simpl; unfold is_list, is_element; apply _. Defined.

(** A client program: a sequence of calls.  A call whose pointer arguments
    are not valid stops the program. *)
Fixpoint run_ops (s : @State T) (os : list op) : result (@State T) :=
  match os with
  | [] => Done s
  | o :: os' =>
      if decide (op_wf s o) then do s' <- run_op s o; run_ops s' os'
      else Fault NilDeref
  end.

(** The states a program can reach from the empty memory. *)
Inductive reachable : @State T → Prop :=
| reachable_init : reachable (mkState ∅ ∅ 0)
| reachable_step s o s' :
    reachable s → op_wf s o → run_op s o = Done s' → reachable s'.

(** Every list of the memory is well formed, and the allocator is sound. *)
Record inv (s : @State T) : Prop := {
  inv_lists : ∀ l, is_list s l → ∃ ns, list_rep s l ns;
  inv_alloc : ∀ a, is_Some (elems s !! a) → (a < brk s)%nat;
  inv_lens : ∀ a, is_Some (lens s !! a) → (a < brk s)%nat;
  inv_owner : ∀ x l, owner (elems s) x = Some l → is_list s l;
  inv_limit : (brk s ≤ mem_limit)%nat
}.

End Operations.

(** The nodes met by following [next] from the sentinel until the sentinel
    is met again (or nil, in a zero [List]). *)
Fixpoint follow_next {T : Type} (n : nat) (h : gmap nat (@Element T)) (l : nat)
    (p : ptr) : result (list nat) :=
  match p with
  | None => Done []
  | Some a =>
      if decide (a = l) then Done []
      else match n with
           | O => Fault OutOfFuel
           | S n' =>
               do q <- get_next h p; do r <- follow_next n' h l q; Done (a :: r)
           end
  end.

Definition ring_nodes {T : Type} (n : nat) (s : @State T) (l : nat) : result (list nat) :=
  do p <- get_next (elems s) (Some l); follow_next n (elems s) l p.

(** [e.next.prev == e] and [e.prev.next == e]. *)
Definition links_consistent {T : Type} (h : gmap nat (@Element T)) (e : nat) : Prop :=
  (do n <- get_next h (Some e); get_prev h n) = Done (Some e) ∧
  (do p <- get_prev h (Some e); get_next h p) = Done (Some e).

(** ** The test program *)

(** The comparator of [TestList]: values increase. *)
Definition cmp_int (a b : Z) : Z :=
  if decide (a < b) then -1 else if decide (a > b) then 1 else 0.

(** A small run in the manner of [TestList]: the list at address 0 holds
    5, 3, 8 in the nodes 1, 2, 3; address 4 is an element of no list; the
    list at address 5 holds 4, 9 in the nodes 6, 7; the list at address 8
    holds 1 in the node 9. *)
Definition example_ops : list (@op Z) :=
  [OpNew; OpPushBack 0 5; OpPushBack 0 3; OpPushBack 0 8; OpElement 7;
   OpNew; OpPushBack 5 4; OpPushBack 5 9; OpNew; OpPushBack 8 1].

Definition example_limit : nat := 64.

Definition example_state : @State Z :=
  match run_ops 0 example_limit (mkState ∅ ∅ 0) example_ops with
  | Done s => s
  | Fault _ => mkState ∅ ∅ 0
  end.

Definition example_value (x : nat) : Z :=
  default 0 (value_of (elems example_state) x).

(** A printer for the example: the decimal numeral and a space. *)
Definition example_sprintf (z : Z) : String.string :=
  String.append (DecimalString.NilZero.string_of_int (Z.to_int z))
    (String.String Ascii.Space String.EmptyString).

(* END DEFINITIONS *)

Section ListFacts.
Context {A : Type}.
Implicit Types (x y : A) (l r : list A).

Lemma lastd_snoc x l y : lastd x (l ++ [y]) = y.
Proof. revert x. induction l as [|z l IH]; intros x; simpl; auto. Qed.

Lemma lastd_app_cons x l y r : lastd x (l ++ y :: r) = lastd y r.
Proof. revert x. induction l as [|z l IH]; intros x; simpl; auto. Qed.

Lemma lastd_split x l : ∃ p, x :: l = p ++ [lastd x l].
Proof.
  revert x. induction l as [|z l IH]; intros x; simpl.
  - by exists [].
  - destruct (IH z) as [p Hp]. exists (x :: p). by rewrite Hp.
Qed.

Lemma lastd_elem x l : lastd x l ∈ x :: l.
Proof.
  destruct (lastd_split x l) as [p ->].
  apply elem_of_app. right. apply list_elem_of_singleton. done.
Qed.

Lemma hd_elem x l : hd x l ∈ l ++ [x].
Proof. destruct l; simpl; [apply list_elem_of_singleton; done | left]. Qed.

Lemma hd_app_cons d l y r : hd d ((y :: r) ++ l) = y.
Proof. done. Qed.

Lemma hd_snoc d l : hd d (l ++ [d]) = hd d l.
Proof. by destruct l. Qed.

End ListFacts.

(** ** Reading and writing fields *)

Section HeapFacts.
Context {T : Type}.
Implicit Types (h : gmap nat (@Element T)) (a b d x y : nat) (v p : ptr).

Lemma nx_alloc h a y : nx h a = Some y → is_Some (h !! a).
Proof. unfold nx. destruct (h !! a); [eauto | done]. Qed.

Lemma pv_alloc h a y : pv h a = Some y → is_Some (h !! a).
Proof. unfold pv. destruct (h !! a); [eauto | done]. Qed.

Lemma owner_alloc h a y : owner h a = Some y → is_Some (h !! a).
Proof. unfold owner. destruct (h !! a); [eauto | done]. Qed.

Lemma value_alloc h a (w : T) : value_of h a = Some w → is_Some (h !! a).
Proof. unfold value_of. destruct (h !! a); [eauto | done]. Qed.

Lemma get_next_alloc h a : is_Some (h !! a) → get_next h (Some a) = Done (nx h a).
Proof. intros [e He]. unfold get_next, nx. simpl. by rewrite He. Qed.

Lemma get_prev_alloc h a : is_Some (h !! a) → get_prev h (Some a) = Done (pv h a).
Proof. intros [e He]. unfold get_prev, pv. simpl. by rewrite He. Qed.

Lemma get_list_alloc h a : is_Some (h !! a) → get_list h (Some a) = Done (owner h a).
Proof. intros [e He]. unfold get_list, owner. simpl. by rewrite He. Qed.

Lemma get_Value_alloc h a (w : T) : value_of h a = Some w → get_Value h (Some a) = Done w.
Proof.
  unfold get_Value, value_of. simpl. destruct (h !! a); simpl; [|done].
  by intros [= ->].
Qed.

Lemma store_alloc f h a : is_Some (h !! a) → store f h (Some a) = Done (alter f a h).
Proof.
  intros [e He]. unfold store. rewrite He. f_equal.
  apply map_eq. intros i. rewrite lookup_insert, lookup_alter.
  case_decide; subst; by rewrite ?He.
Qed.

Lemma set_next_alloc h a v :
  is_Some (h !! a) → set_next h (Some a) v = Done (alter (with_next v) a h).
Proof. apply store_alloc. Qed.

Lemma set_prev_alloc h a v :
  is_Some (h !! a) → set_prev h (Some a) v = Done (alter (with_prev v) a h).
Proof. apply store_alloc. Qed.

Lemma set_list_alloc h a v :
  is_Some (h !! a) → set_list h (Some a) v = Done (alter (with_list v) a h).
Proof. apply store_alloc. Qed.

Lemma nx_set_next h a v x :
  is_Some (h !! a) →
  nx (alter (with_next v) a h) x = if decide (x = a) then v else nx h x.
Proof.
  intros [e He]. unfold nx. rewrite lookup_alter.
  repeat case_decide; subst; try done. by rewrite He.
Qed.

Lemma nx_set_prev h a v x : nx (alter (with_prev v) a h) x = nx h x.
Proof.
  unfold nx. rewrite lookup_alter. case_decide; subst; [|done].
  by destruct (h !! x).
Qed.

Lemma nx_set_list h a v x : nx (alter (with_list v) a h) x = nx h x.
Proof.
  unfold nx. rewrite lookup_alter. case_decide; subst; [|done].
  by destruct (h !! x).
Qed.

Lemma pv_set_prev h a v x :
  is_Some (h !! a) →
  pv (alter (with_prev v) a h) x = if decide (x = a) then v else pv h x.
Proof.
  intros [e He]. unfold pv. rewrite lookup_alter.
  repeat case_decide; subst; try done. by rewrite He.
Qed.

Lemma pv_set_next h a v x : pv (alter (with_next v) a h) x = pv h x.
Proof.
  unfold pv. rewrite lookup_alter. case_decide; subst; [|done].
  by destruct (h !! x).
Qed.

Lemma pv_set_list h a v x : pv (alter (with_list v) a h) x = pv h x.
Proof.
  unfold pv. rewrite lookup_alter. case_decide; subst; [|done].
  by destruct (h !! x).
Qed.

Lemma owner_set_list h a v x :
  is_Some (h !! a) →
  owner (alter (with_list v) a h) x = if decide (x = a) then v else owner h x.
Proof.
  intros [e He]. unfold owner. rewrite lookup_alter.
  repeat case_decide; subst; try done. by rewrite He.
Qed.

Lemma owner_set_next h a v x : owner (alter (with_next v) a h) x = owner h x.
Proof.
  unfold owner. rewrite lookup_alter. case_decide; subst; [|done].
  by destruct (h !! x).
Qed.

Lemma owner_set_prev h a v x : owner (alter (with_prev v) a h) x = owner h x.
Proof.
  unfold owner. rewrite lookup_alter. case_decide; subst; [|done].
  by destruct (h !! x).
Qed.

Lemma value_set_next h a v x : value_of (alter (with_next v) a h) x = value_of h x.
Proof.
  unfold value_of. rewrite lookup_alter. case_decide; subst; [|done].
  by destruct (h !! x).
Qed.

Lemma value_set_prev h a v x : value_of (alter (with_prev v) a h) x = value_of h x.
Proof.
  unfold value_of. rewrite lookup_alter. case_decide; subst; [|done].
  by destruct (h !! x).
Qed.

Lemma value_set_list h a v x : value_of (alter (with_list v) a h) x = value_of h x.
Proof.
  unfold value_of. rewrite lookup_alter. case_decide; subst; [|done].
  by destruct (h !! x).
Qed.

Lemma same_data_refl h : same_data h h.
Proof. by intros x. Qed.

Lemma same_data_trans h1 h2 h3 : same_data h1 h2 → same_data h2 h3 → same_data h1 h3.
Proof.
  intros H12 H23 x. destruct (H12 x) as [<- <-]. apply H23.
Qed.

Lemma same_data_alloc h h' x : same_data h h' → is_Some (h' !! x) ↔ is_Some (h !! x).
Proof.
  intros H. destruct (H x) as [Hv _]. unfold value_of in Hv.
  destruct (h' !! x), (h !! x); simpl in Hv; try done; split; eauto.
Qed.

Lemma same_outside_refl S h : same_outside S h h.
Proof. by intros x. Qed.

Lemma same_outside_trans S h1 h2 h3 :
  same_outside S h1 h2 → same_outside S h2 h3 → same_outside S h1 h3.
Proof. intros H12 H23 x Hx. rewrite H23, H12; done. Qed.

Lemma same_outside_mono S S' h h' :
  (∀ x, x ∈ S → x ∈ S') → same_outside S h h' → same_outside S' h h'.
Proof. intros HS H x Hx. apply H. intros ?. apply Hx. auto. Qed.

End HeapFacts.

(** Symbolic execution of straight-line pointer code. *)
Ltac alloc_tac :=
  rewrite ?lookup_alter_is_Some;
  eauto using nx_alloc, pv_alloc, owner_alloc, value_alloc.

Ltac heap_simpl :=
  repeat first
    [ rewrite nx_set_prev | rewrite nx_set_list | rewrite pv_set_next
    | rewrite pv_set_list | rewrite owner_set_next | rewrite owner_set_prev
    | rewrite value_set_next | rewrite value_set_prev | rewrite value_set_list
    | rewrite nx_set_next by alloc_tac
    | rewrite pv_set_prev by alloc_tac
    | rewrite owner_set_list by alloc_tac
    | match goal with
      | H : nx ?h ?a = _ |- context [nx ?h ?a] => rewrite H
      | H : pv ?h ?a = _ |- context [pv ?h ?a] => rewrite H
      | H : owner ?h ?a = _ |- context [owner ?h ?a] => rewrite H
      end
    | rewrite decide_True by (first [congruence | left; congruence | right; congruence])
    | rewrite decide_False by (first [congruence | intros [?|?]; congruence]) ].

Ltac exec_step :=
  first
    [ rewrite get_next_alloc by alloc_tac
    | rewrite get_prev_alloc by alloc_tac
    | rewrite get_list_alloc by alloc_tac
    | rewrite set_next_alloc by alloc_tac
    | rewrite set_prev_alloc by alloc_tac
    | rewrite set_list_alloc by alloc_tac ];
  cbn [bindR]; heap_simpl.

Ltac exec := cbn [bindR]; heap_simpl; repeat exec_step.

(** An address outside the listed ones is not touched by a chain of writes. *)
Ltac frame_tac :=
  let Hx := fresh "Hx" in
  intros Hx;
  repeat (rewrite lookup_alter_ne;
          [|let E := fresh in intros E; apply Hx; rewrite E;
            repeat (first [apply list_elem_of_here | apply list_elem_of_further])]);
  reflexivity.

Section SwapExec.
Context {T : Type}.
Implicit Types (h : gmap nat (@Element T)) (a b c d e x y : nat).

Lemma swap_adjacent_forward h a b d e :
  pv h b = Some a → nx h b = Some d → nx h d = Some e →
  is_Some (h !! a) → is_Some (h !! e) →
  a ≠ b → a ≠ d → b ≠ d → e ≠ b → e ≠ d →
  ∃ h', swap h (Some b) (Some d) = Done (h', true) ∧
    (∀ x, nx h' x = if decide (x = d) then Some b
                    else if decide (x = b) then Some e
                    else if decide (x = a) then Some d else nx h x) ∧
    (∀ x, pv h' x = if decide (x = b) then Some d
                    else if decide (x = d) then Some a
                    else if decide (x = e) then Some b else pv h x) ∧
    same_data h h' ∧ same_outside [a; b; d; e] h h'.
Proof.
  intros Hpb Hnb Hnd Ha He ? ? ? ? ?.
  unfold swap. exec. eexists. split; [reflexivity|].
  split; [|split; [|split]]; intros x.
  - heap_simpl. repeat case_decide; congruence.
  - heap_simpl. repeat case_decide; congruence.
  - split; heap_simpl; done.
  - frame_tac.
Qed.

Lemma swap_adjacent_backward h a b d e :
  pv h d = Some a → nx h d = Some b → pv h b = Some d → nx h b = Some e →
  is_Some (h !! a) → is_Some (h !! e) →
  a ≠ b → a ≠ d → b ≠ d → e ≠ b → e ≠ d →
  ∃ h', swap h (Some b) (Some d) = Done (h', true) ∧
    (∀ x, nx h' x = if decide (x = b) then Some d
                    else if decide (x = d) then Some e
                    else if decide (x = a) then Some b else nx h x) ∧
    (∀ x, pv h' x = if decide (x = d) then Some b
                    else if decide (x = b) then Some a
                    else if decide (x = e) then Some d else pv h x) ∧
    same_data h h' ∧ same_outside [a; b; d; e] h h'.
Proof.
  intros Hpd Hnd Hpb Hnb Ha He ? ? ? ? ?.
  unfold swap. exec. eexists. split; [reflexivity|].
  split; [|split; [|split]]; intros x.
  - heap_simpl. repeat case_decide; congruence.
  - heap_simpl. repeat case_decide; congruence.
  - split; heap_simpl; done.
  - frame_tac.
Qed.

Lemma swap_far h a b c c' d e :
  pv h b = Some a → nx h b = Some c → pv h d = Some c' → nx h d = Some e →
  is_Some (h !! a) → is_Some (h !! c) → is_Some (h !! c') → is_Some (h !! e) →
  b ≠ d → a ≠ b → a ≠ d → c' ≠ b → c' ≠ d → a ≠ c' →
  c ≠ b → c ≠ d → e ≠ b → e ≠ d → c ≠ e →
  ∃ h', swap h (Some b) (Some d) = Done (h', false) ∧
    (∀ x, nx h' x = if decide (x = d) then Some c
                    else if decide (x = b) then Some e
                    else if decide (x = c') then Some b
                    else if decide (x = a) then Some d else nx h x) ∧
    (∀ x, pv h' x = if decide (x = d) then Some a
                    else if decide (x = b) then Some c'
                    else if decide (x = e) then Some b
                    else if decide (x = c) then Some d else pv h x) ∧
    same_data h h' ∧ same_outside [a; b; c; c'; d; e] h h'.
Proof.
  intros Hpb Hnb Hpd Hnd Ha Hc Hc' He ? ? ? ? ? ? ? ? ? ? ?.
  unfold swap. exec. eexists. split; [reflexivity|].
  split; [|split; [|split]]; intros x.
  - heap_simpl. repeat case_decide; congruence.
  - heap_simpl. repeat case_decide; congruence.
  - split; heap_simpl; done.
  - frame_tac.
Qed.

End SwapExec.

(** ** Paths and rings *)

Section RingFacts.
Context {T : Type}.
Implicit Types (h : gmap nat (@Element T)) (a b c d e x y l : nat) (p q ns : list nat).

Lemma linked_app_l h p q : linked h (p ++ q) → linked h p.
Proof.
  induction p as [|x [|y p] IH]; simpl; try done.
  intros [Hl Hr]. split; [done|]. by apply IH.
Qed.

Lemma linked_app_r h p q : linked h (p ++ q) → linked h q.
Proof.
  induction p as [|x p IH]; simpl; [done|].
  destruct (p ++ q) eqn:E; [|intros [_ ?]; auto].
  apply app_eq_nil in E as [_ ->]. done.
Qed.

Lemma linked_mid h p x y q : linked h (p ++ x :: y :: q) → link h x y.
Proof. intros H. apply linked_app_r in H. by destruct H. Qed.

Lemma linked_join h p x y q :
  linked h (p ++ [x]) → link h x y → linked h (y :: q) → linked h (p ++ x :: y :: q).
Proof.
  intros Hp Hxy Hq. induction p as [|z [|w p] IH].
  - by split.
  - simpl in *. destruct Hp as [Hzx _]. done.
  - destruct Hp as [Hzw Hp]. split; [done|]. by apply IH.
Qed.

Lemma linked_fmap h h' (f : nat → nat) p :
  (∀ x y, link h x y → link h' (f x) (f y)) → linked h p → linked h' (f <$> p).
Proof.
  intros Hf. induction p as [|x [|y p] IH]; simpl; try done.
  intros [Hxy Hp]. split; [by apply Hf|]. by apply IH.
Qed.

Lemma linked_frame h h' x0 q :
  linked h (x0 :: q) → NoDup (x0 :: q) →
  (∀ x, x ∈ x0 :: q → x ≠ lastd x0 q → nx h' x = nx h x) →
  (∀ y, y ∈ q → pv h' y = pv h y) →
  linked h' (x0 :: q).
Proof.
  revert x0. induction q as [|y q IH]; intros x0; [done|].
  intros [[Hn Hp] Hl] Hnd Hnx Hpv.
  apply NoDup_cons in Hnd as [Hx0 Hnd].
  split.
  - split.
    + rewrite Hnx; [done|left|].
      intros E. apply Hx0. rewrite E. apply (lastd_elem y q).
    + rewrite Hpv; [done|left].
  - apply IH; [done|done| |].
    + intros x Hx Hne. apply Hnx; [by right|done].
    + intros z Hz. apply Hpv. by right.
Qed.

Lemma ring_NoDup h l ns : ring h l ns → NoDup (l :: ns).
Proof. by intros [? _]. Qed.

Lemma ring_nx h l A x B : ring h l (A ++ x :: B) → nx h x = Some (hd l B).
Proof.
  intros [_ H]. rewrite <- app_assoc in H. simpl in H.
  assert (∃ r, B ++ [l] = hd l B :: r) as [r Hr].
  { destruct B; simpl; eauto. }
  rewrite Hr in H. apply (linked_mid h (l :: A)) in H. apply H.
Qed.

Lemma ring_pv h l A x B : ring h l (A ++ x :: B) → pv h x = Some (lastd l A).
Proof.
  intros [_ H]. destruct (lastd_split l A) as [p Hp].
  rewrite <- app_assoc, app_comm_cons, Hp, <- app_assoc in H. simpl in H.
  apply linked_mid in H. apply H.
Qed.

Lemma ring_nx_root h l ns : ring h l ns → nx h l = Some (hd l ns).
Proof.
  intros [_ H]. assert (∃ r, ns ++ [l] = hd l ns :: r) as [r Hr].
  { destruct ns; simpl; eauto. }
  rewrite Hr in H. apply H.
Qed.

Lemma ring_pv_root h l ns : ring h l ns → pv h l = Some (lastd l ns).
Proof.
  intros [_ H]. destruct (lastd_split l ns) as [p Hp].
  rewrite app_comm_cons, Hp, <- app_assoc in H. simpl in H.
  apply linked_mid in H. apply H.
Qed.

Lemma ring_alloc h l ns x : ring h l ns → x ∈ l :: ns → is_Some (h !! x).
Proof.
  intros Hr Hx. apply elem_of_cons in Hx as [->|Hx].
  - eapply nx_alloc, ring_nx_root, Hr.
  - apply list_elem_of_split in Hx as (A & B & ->).
    eapply nx_alloc, ring_nx, Hr.
Qed.

Lemma transp_fix b d x : x ≠ b → x ≠ d → transp b d x = x.
Proof. intros. unfold transp. by rewrite !decide_False. Qed.

Lemma transp_l b d : transp b d b = d.
Proof. unfold transp. by rewrite decide_True. Qed.

Lemma transp_r b d : transp b d d = b.
Proof. unfold transp. case_decide; [done|]. by rewrite decide_True. Qed.

Lemma transp_involutive b d x : transp b d (transp b d x) = x.
Proof. unfold transp. repeat case_decide; congruence. Qed.

#[local] Instance transp_inj b d : Inj (=) (=) (transp b d).
Proof.
  intros x y H. rewrite <- (transp_involutive b d x), H.
  apply transp_involutive.
Qed.

Lemma transp_fmap_id b d p : b ∉ p → d ∉ p → transp b d <$> p = p.
Proof.
  intros Hb Hd. induction p as [|x p IH]; [done|].
  apply not_elem_of_cons in Hb as [? ?]. apply not_elem_of_cons in Hd as [? ?].
  rewrite fmap_cons, transp_fix, IH; done.
Qed.

Lemma transp_fmap_swap b d A C E :
  NoDup (A ++ b :: C ++ d :: E) →
  transp b d <$> (A ++ b :: C ++ d :: E) = A ++ d :: C ++ b :: E.
Proof.
  intros Hnd.
  rewrite fmap_app, fmap_cons, fmap_app, fmap_cons, transp_l, transp_r.
  apply NoDup_app in Hnd as (_ & HA & Hnd).
  apply NoDup_cons in Hnd as (Hb & Hnd).
  apply NoDup_app in Hnd as (_ & HC & Hnd).
  apply NoDup_cons in Hnd as (Hd & _).
  assert (b ∉ A) by (intros ?; eapply HA; [done|left]).
  assert (d ∉ A) by (intros ?; eapply HA; [done|set_solver]).
  assert (b ∉ C) by set_solver.
  assert (d ∉ C) by (intros ?; eapply HC; [done|left]).
  assert (b ∉ E) by set_solver.
  rewrite !transp_fmap_id; done.
Qed.

(** Exchanging two nodes of a ring conjugates its links by the
    transposition of the two nodes. *)
Lemma ring_conjugate h h' l ns b d :
  ring h l ns → b ∈ ns → d ∈ ns →
  (∀ x y, link h x y → link h' (transp b d x) (transp b d y)) →
  ring h' l (transp b d <$> ns).
Proof.
  intros [Hnd Hl] Hb Hd Hconj.
  pose proof (proj1 (NoDup_cons _ _) Hnd) as [Hlns _].
  assert (transp b d l = l) as Hfix.
  { apply transp_fix; intros ->; done. }
  split.
  - rewrite <- Hfix at 1. rewrite <- fmap_cons.
    apply (NoDup_fmap_2 (transp b d)); done.
  - apply (linked_fmap h h' (transp b d)) in Hl; [|done].
    by rewrite fmap_cons, fmap_app, fmap_cons, Hfix in Hl.
Qed.

End RingFacts.

Section SwapRing.
Context {T : Type}.
Implicit Types (h : gmap nat (@Element T)) (a b c d e x y l : nat) (A C E p q ns : list nat).

Lemma ring_link_next h l A x B : ring h l (A ++ x :: B) → link h x (hd l B).
Proof.
  intros [_ H]. rewrite <- app_assoc in H. simpl in H.
  assert (∃ r, B ++ [l] = hd l B :: r) as [r Hr].
  { destruct B; simpl; eauto. }
  rewrite Hr in H. by apply (linked_mid h (l :: A)) in H.
Qed.

Lemma ring_link_prev h l A x B : ring h l (A ++ x :: B) → link h (lastd l A) x.
Proof.
  intros [_ H]. destruct (lastd_split l A) as [p Hp].
  rewrite <- app_assoc, app_comm_cons, Hp, <- app_assoc in H. simpl in H.
  by apply linked_mid in H.
Qed.

Lemma NoDup_hd_neq l P E x : NoDup (l :: P ++ E) → x ∈ P → hd l E ≠ x.
Proof.
  intros Hnd Hx <-. apply NoDup_cons in Hnd as [Hl Hnd].
  apply NoDup_app in Hnd as (_ & Hd & _).
  destruct E as [|e E]; simpl in *.
  - apply Hl. set_solver.
  - eapply Hd; [done|left].
Qed.

Lemma NoDup_lastd_neq l A Q x : NoDup (l :: A ++ Q) → x ∈ Q → lastd l A ≠ x.
Proof.
  intros Hnd Hx <-. rewrite app_comm_cons in Hnd.
  apply NoDup_app in Hnd as (_ & Hd & _).
  eapply Hd; [apply lastd_elem|done].
Qed.

Lemma swap_ring_forward_fp h l A b C d E :
  ring h l (A ++ b :: C ++ d :: E) →
  ∃ h', swap h (Some b) (Some d) = Done (h', bool_decide (C = [])) ∧
    ring h' l (A ++ d :: C ++ b :: E) ∧
    same_data h h' ∧
    same_outside [lastd l A; b; hd d C; lastd b C; d; hd l E] h h'.
Proof.
  intros Hr. pose proof (ring_NoDup _ _ _ Hr) as Hnd.
  pose proof (ring_link_prev _ _ _ _ _ Hr) as [Hab1 Hab2].
  pose proof (ring_link_next _ _ _ _ _ Hr) as [Hbc1 Hbc2].
  assert (ring h l ((A ++ b :: C) ++ d :: E)) as Hr' by (by rewrite <- app_assoc).
  pose proof (ring_link_prev _ _ _ _ _ Hr') as [Hcd1 Hcd2].
  pose proof (ring_link_next _ _ _ _ _ Hr') as [Hde1 Hde2].
  rewrite lastd_app_cons in Hcd1, Hcd2.
  set (a := lastd l A) in *. set (e := hd l E) in *.
  assert (a ∈ l :: A) as Hain by apply lastd_elem.
  assert (e ∈ E ++ [l]) as Hein by apply hd_elem.
  assert (a ≠ b) by (apply (NoDup_lastd_neq l A (b :: C ++ d :: E)); [done|set_solver]).
  assert (a ≠ d) by (apply (NoDup_lastd_neq l A (b :: C ++ d :: E)); [done|set_solver]).
  assert (e ≠ b).
  { apply (NoDup_hd_neq l (A ++ b :: C ++ [d]) E); [|set_solver].
    by rewrite <- !app_assoc; simpl; rewrite <- !app_assoc. }
  assert (e ≠ d).
  { apply (NoDup_hd_neq l (A ++ b :: C ++ [d]) E); [|set_solver].
    by rewrite <- !app_assoc; simpl; rewrite <- !app_assoc. }
  assert (b ≠ d).
  { apply NoDup_cons in Hnd as [_ Hnd]. apply NoDup_app in Hnd as (_ & _ & Hnd).
    apply NoDup_cons in Hnd as [Hb _]. set_solver. }
  assert (transp b d <$> (A ++ b :: C ++ d :: E) = A ++ d :: C ++ b :: E) as Hmap.
  { apply transp_fmap_swap. by apply NoDup_cons in Hnd as [_ ?]. }
  assert (b ∈ A ++ b :: C ++ d :: E) as Hbin by set_solver.
  assert (d ∈ A ++ b :: C ++ d :: E) as Hdin by set_solver.
  destruct C as [|c C'].
  - simpl in *.
    destruct (swap_adjacent_forward h a b d e) as (h' & Hsw & Hnx & Hpv & Hsd & Hso);
      eauto using nx_alloc, pv_alloc.
    exists h'. split; [done|]. split; [|split; [done|]].
    + rewrite <- Hmap. apply (ring_conjugate h); try done.
      intros x y [Hx Hy]. split; [rewrite Hnx|rewrite Hpv];
        unfold transp; repeat case_decide; subst; congruence.
    + eapply same_outside_mono; [|done].
      simpl. clearbody a e. clear. set_solver.
  - simpl in Hbc1, Hbc2, Hcd1, Hcd2.
    set (c' := lastd c C') in *.
    assert (c' ∈ c :: C') as Hc' by apply lastd_elem.
    assert (NoDup (A ++ b :: (c :: C') ++ d :: E)) as Hnd' by (by apply NoDup_cons in Hnd as [_ ?]).
    apply NoDup_app in Hnd' as (_ & _ & Hnd').
    apply NoDup_cons in Hnd' as (Hbn & Hnd').
    apply NoDup_app in Hnd' as (_ & HCd & _).
    assert (c ≠ b) by (intros ->; apply Hbn; left).
    assert (c' ≠ b) by (intros E'; apply Hbn; rewrite <- E'; apply elem_of_app; by left).
    assert (c ≠ d) by (intros ->; eapply HCd; [|left]; left).
    assert (c' ≠ d) by (intros E'; eapply HCd; [exact Hc'|rewrite E'; left]).
    assert (a ≠ c').
    { apply (NoDup_lastd_neq l A (b :: (c :: C') ++ d :: E)); [done|].
      right. apply elem_of_app. by left. }
    assert (c ≠ e).
    { apply not_eq_sym, (NoDup_hd_neq l (A ++ b :: (c :: C') ++ [d]) E).
      - by rewrite <- !app_assoc; simpl; rewrite <- !app_assoc.
      - apply elem_of_app. right. right. left. }
    rewrite bool_decide_eq_false_2 by done.
    destruct (swap_far h a b c c' d e) as (h' & Hsw & Hnx & Hpv & Hsd & Hso);
      eauto using nx_alloc, pv_alloc.
    exists h'. split; [done|]. split; [|split; [done|]].
    + rewrite <- Hmap. apply (ring_conjugate h); try done.
      intros x y [Hx Hy]. split; [rewrite Hnx|rewrite Hpv];
        unfold transp; repeat case_decide; subst; congruence.
    + done.
Qed.

Lemma swap_ring_forward h l A b C d E :
  ring h l (A ++ b :: C ++ d :: E) →
  ∃ h', swap h (Some b) (Some d) = Done (h', bool_decide (C = [])) ∧
    ring h' l (A ++ d :: C ++ b :: E) ∧
    same_data h h' ∧ same_outside (l :: A ++ b :: C ++ d :: E) h h'.
Proof.
  intros Hr. destruct (swap_ring_forward_fp h l A b C d E Hr) as (h' & ? & ? & ? & Hso).
  exists h'. split; [done|]. split; [done|]. split; [done|].
  eapply same_outside_mono; [|done].
  pose proof (lastd_elem l A). pose proof (hd_elem d C).
  pose proof (lastd_elem b C). pose proof (hd_elem l E).
  generalize dependent (lastd l A). generalize dependent (hd d C).
  generalize dependent (lastd b C). generalize dependent (hd l E).
  clear. set_solver.
Qed.

End SwapRing.

Section SwapRingBackward.
Context {T : Type}.
Implicit Types (h : gmap nat (@Element T)) (a b c d e x y l : nat) (A C E p q ns : list nat).

Lemma transp_comm b d x : transp b d x = transp d b x.
Proof. unfold transp. repeat case_decide; congruence. Qed.

Lemma swap_ring_backward h l A b C d E :
  ring h l (A ++ d :: C ++ b :: E) →
  ∃ h', swap h (Some b) (Some d) = Done (h', bool_decide (C = [])) ∧
    ring h' l (A ++ b :: C ++ d :: E) ∧
    same_data h h' ∧
    same_outside [lastd l A; d; hd b C; lastd d C; b; hd l E] h h'.
Proof.
  intros Hr. pose proof (ring_NoDup _ _ _ Hr) as Hnd.
  pose proof (ring_link_prev _ _ _ _ _ Hr) as [Had1 Had2].
  pose proof (ring_link_next _ _ _ _ _ Hr) as [Hdc1 Hdc2].
  assert (ring h l ((A ++ d :: C) ++ b :: E)) as Hr' by (by rewrite <- app_assoc).
  pose proof (ring_link_prev _ _ _ _ _ Hr') as [Hcb1 Hcb2].
  pose proof (ring_link_next _ _ _ _ _ Hr') as [Hbe1 Hbe2].
  rewrite lastd_app_cons in Hcb1, Hcb2.
  set (a := lastd l A) in *. set (e := hd l E) in *.
  assert (a ∈ l :: A) as Hain by apply lastd_elem.
  assert (e ∈ E ++ [l]) as Hein by apply hd_elem.
  assert (a ≠ d) by (apply (NoDup_lastd_neq l A (d :: C ++ b :: E)); [done|set_solver]).
  assert (a ≠ b) by (apply (NoDup_lastd_neq l A (d :: C ++ b :: E)); [done|set_solver]).
  assert (e ≠ d).
  { apply (NoDup_hd_neq l (A ++ d :: C ++ [b]) E); [|set_solver].
    by rewrite <- !app_assoc; simpl; rewrite <- !app_assoc. }
  assert (e ≠ b).
  { apply (NoDup_hd_neq l (A ++ d :: C ++ [b]) E); [|set_solver].
    by rewrite <- !app_assoc; simpl; rewrite <- !app_assoc. }
  assert (b ≠ d).
  { apply NoDup_cons in Hnd as [_ Hnd]. apply NoDup_app in Hnd as (_ & _ & Hnd).
    apply NoDup_cons in Hnd as [Hb _]. set_solver. }
  assert (transp b d <$> (A ++ d :: C ++ b :: E) = A ++ b :: C ++ d :: E) as Hmap.
  { erewrite list_fmap_ext; [apply (transp_fmap_swap d b)|].
    - by apply NoDup_cons in Hnd as [_ ?].
    - intros i x _. apply transp_comm. }
  assert (b ∈ A ++ d :: C ++ b :: E) as Hbin by set_solver.
  assert (d ∈ A ++ d :: C ++ b :: E) as Hdin by set_solver.
  destruct C as [|c C'].
  - simpl in *.
    destruct (swap_adjacent_backward h a b d e) as (h' & Hsw & Hnx & Hpv & Hsd & Hso);
      eauto using nx_alloc, pv_alloc.
    exists h'. split; [done|]. split; [|split; [done|]].
    + rewrite <- Hmap. apply (ring_conjugate h); try done.
      intros x y [Hx Hy]. split; [rewrite Hnx|rewrite Hpv];
        unfold transp; repeat case_decide; subst; congruence.
    + eapply same_outside_mono; [|done].
      simpl. clearbody a e. clear. set_solver.
  - simpl in Hdc1, Hdc2, Hcb1, Hcb2.
    set (c' := lastd c C') in *.
    assert (c' ∈ c :: C') as Hc' by apply lastd_elem.
    assert (NoDup (A ++ d :: (c :: C') ++ b :: E)) as Hnd' by (by apply NoDup_cons in Hnd as [_ ?]).
    apply NoDup_app in Hnd' as (_ & _ & Hnd').
    apply NoDup_cons in Hnd' as (Hdn & Hnd').
    apply NoDup_app in Hnd' as (_ & HCb & _).
    assert (c ≠ d) by (intros ->; apply Hdn; left).
    assert (c' ≠ d) by (intros E'; apply Hdn; rewrite <- E'; apply elem_of_app; by left).
    assert (c ≠ b) by (intros ->; eapply HCb; [|left]; left).
    assert (c' ≠ b) by (intros E'; eapply HCb; [exact Hc'|rewrite E'; left]).
    assert (a ≠ c').
    { apply (NoDup_lastd_neq l A (d :: (c :: C') ++ b :: E)); [done|].
      right. apply elem_of_app. by left. }
    assert (c ≠ e).
    { apply not_eq_sym, (NoDup_hd_neq l (A ++ d :: (c :: C') ++ [b]) E).
      - by rewrite <- !app_assoc; simpl; rewrite <- !app_assoc.
      - apply elem_of_app. right. right. left. }
    rewrite bool_decide_eq_false_2 by done.
    destruct (swap_far h c' b e a d c) as (h' & Hsw & Hnx & Hpv & Hsd & Hso);
      eauto using nx_alloc, pv_alloc.
    exists h'. split; [done|]. split; [|split; [done|]].
    + rewrite <- Hmap. apply (ring_conjugate h); try done.
      intros x y [Hx Hy]. split; [rewrite Hnx|rewrite Hpv];
        unfold transp; repeat case_decide; subst; congruence.
    + eapply same_outside_mono; [|done].
      simpl. fold c'. clearbody a e c'. clear. set_solver.
Qed.

End SwapRingBackward.

Section Cursor.
Context {T : Type}.
Implicit Types (h : gmap nat (@Element T)) (a b c d e x y l : nat) (A B M p q ns : list nat).

Lemma last_lastd l A : A ≠ [] → last A = Some (lastd l A).
Proof.
  induction A as [|x [|y A] IH]; intros HA; try done.
  rewrite last_cons_cons. simpl in *. by apply IH.
Qed.

Lemma ring_not_root h l A x B : ring h l (A ++ x :: B) → x ≠ l.
Proof.
  intros [Hnd _] ->. apply NoDup_cons in Hnd as [Hl _]. apply Hl. set_solver.
Qed.

(** [e.Prev()] of a node of the ring is the node before it, or nil at the front. *)
Lemma Prev_ring h l A x B :
  ring h l (A ++ x :: B) → owner h x = Some l →
  Prev h (Some x) = Done (last A).
Proof.
  intros Hr Ho. pose proof (ring_pv _ _ _ _ _ Hr) as Hpv.
  unfold Prev. exec. destruct A as [|a A'] using rev_ind.
  - simpl. rewrite decide_False; [done|]. intros [_ ?]. done.
  - rewrite last_snoc, lastd_snoc. rewrite decide_True; [done|].
    split; [done|]. intros [= ->].
    rewrite <- app_assoc in Hr. by apply ring_not_root in Hr.
Qed.

(** [e.Next()] of a node of the ring is the node after it, or nil at the back. *)
Lemma Next_ring h l A x B :
  ring h l (A ++ x :: B) → owner h x = Some l →
  Next h (Some x) = Done (head B).
Proof.
  intros Hr Ho. pose proof (ring_nx _ _ _ _ _ Hr) as Hnx.
  unfold Next. exec. destruct B as [|b B'].
  - simpl. rewrite decide_False; [done|]. intros [_ ?]. done.
  - simpl. rewrite decide_True; [done|].
    split; [done|]. intros [= ->].
    assert (ring h l ((A ++ [x]) ++ l :: B')) as Hr' by (by rewrite <- app_assoc).
    by apply ring_not_root in Hr'.
Qed.

Lemma ring_window_neq h l A w M B x :
  ring h l (A ++ w :: M ++ B) → x ∈ M → x ≠ w.
Proof.
  intros [Hnd _] Hx ->. apply NoDup_cons in Hnd as [_ Hnd].
  apply NoDup_app in Hnd as (_ & _ & Hnd). apply NoDup_cons in Hnd as [Hw _].
  apply Hw. set_solver.
Qed.

End Cursor.

Section Scan.
Context {T : Type}.
Variable cmp : T → T → Z.
Variable V : nat → T.
Variable piv : T.
Implicit Types (h : gmap nat (@Element T)) (a b c d e x y l w : nat) (A B M X Y p q ns : list nat).

(** The right cursor walks back over values not below the pivot and stops
    inside the window, at the latest on the left cursor. *)
Lemma scan_right_spec n h l A w M B :
  ring h l (A ++ w :: M ++ B) → owned h l (A ++ w :: M ++ B) →
  node_values h V (w :: M) → (length M < n)%nat →
  ∃ M1 Y1, M = M1 ++ Y1 ∧
    scan_right cmp n h (Some w) (Some (lastd w M)) piv = Done (Some (lastd w M1)) ∧
    Forall (λ x, cmp (V x) piv >= 0) Y1 ∧
    (M1 = [] ∨ ¬ cmp (V (lastd w M1)) piv >= 0).
Proof.
  revert n B. induction M as [|r M' IH] using rev_ind; intros n B Hr Ho Hv Hn.
  - exists [], []. destruct n as [|n']; [simpl in Hn; lia|]. simpl.
    rewrite decide_False by (intros ?; done). auto.
  - destruct n as [|n']; [simpl in Hn; lia|].
    rewrite length_app in Hn. simpl in Hn.
    rewrite lastd_snoc. simpl.
    assert (r ≠ w) by (eapply ring_window_neq; [done|set_solver]).
    rewrite decide_True by congruence.
    rewrite (get_Value_alloc h r (V r)) by (apply Hv; set_solver).
    cbn [bindR]. case_decide as Hc.
    + assert (ring h l ((A ++ w :: M') ++ r :: B)) as Hr'.
      { by rewrite <- !app_assoc in *. }
      rewrite (Prev_ring h l _ _ _ Hr') by (apply Ho; set_solver).
      cbn [bindR]. rewrite (last_lastd l) by (by destruct A).
      rewrite lastd_app_cons.
      destruct (IH n' (r :: B)) as (M1 & Y1 & -> & Hs & HY & Hstop).
      * by rewrite <- !app_assoc in *.
      * by rewrite <- !app_assoc in *.
      * intros x Hx. apply Hv. set_solver.
      * lia.
      * exists M1, (Y1 ++ [r]). split; [by rewrite app_assoc|].
        split; [done|]. split; [|done].
        apply Forall_app. split; [done|]. by apply Forall_singleton.
    + exists (M' ++ [r]), []. rewrite app_nil_r, lastd_snoc. auto.
Qed.

(** The left cursor walks forward over values not above the pivot and stops
    inside the window, at the latest on the right cursor. *)
Lemma scan_left_spec n h l A w M B :
  ring h l (A ++ w :: M ++ B) → owned h l (A ++ w :: M ++ B) →
  node_values h V (w :: M) → (length M < n)%nat →
  ∃ X1 w' M', w :: M = X1 ++ w' :: M' ∧
    scan_left cmp n h (Some w) (Some (lastd w M)) piv = Done (Some w') ∧
    Forall (λ x, cmp (V x) piv <= 0) X1 ∧
    (M' = [] ∨ ¬ cmp (V w') piv <= 0).
Proof.
  revert n A w. induction M as [|m M' IH]; intros n A w Hr Ho Hv Hn.
  - exists [], w, []. destruct n as [|n']; [simpl in Hn; lia|]. simpl.
    rewrite decide_False by (intros ?; done). auto.
  - destruct n as [|n']; [simpl in Hn; lia|]. simpl in Hn.
    cbn [lastd scan_left].
    assert (lastd m M' ≠ w).
    { eapply ring_window_neq; [done|]. apply lastd_elem. }
    rewrite decide_True by congruence.
    rewrite (get_Value_alloc h w (V w)) by (apply Hv; set_solver).
    cbn [bindR]. case_decide as Hc.
    + rewrite (Next_ring h l _ _ _ Hr) by (apply Ho; set_solver).
      cbn [bindR head hd_error app].
      destruct (IH n' (A ++ [w]) m) as (X1 & w' & M1 & HM & Hs & HX & Hstop).
      * by rewrite <- !app_assoc.
      * by rewrite <- !app_assoc.
      * intros x Hx. apply Hv. set_solver.
      * lia.
      * exists (w :: X1), w', M1. rewrite HM. split; [done|].
        split; [done|]. split; [|done]. by constructor.
    + exists [], w, (m :: M'). auto.
Qed.

End Scan.

Ltac norm_app := repeat (rewrite <- app_assoc || rewrite <- app_comm_cons); simpl.
Tactic Notation "norm_app_in" hyp(H) :=
  repeat (rewrite <- app_assoc in H || rewrite <- app_comm_cons in H); simpl in H.

Section ListFacts2.
Context {A : Type}.

Lemma cons_eq_app_lastd (w w' : A) (M1 X1 M2 : list A) :
  w :: M1 = X1 ++ w' :: M2 → lastd w M1 = lastd w' M2.
Proof.
  destruct X1 as [|x X1]; simpl; intros [= -> ->]; [done|].
  apply lastd_app_cons.
Qed.

Lemma cons_eq_app_hd (w w' : A) (M1 X1 M2 : list A) :
  w :: M1 = X1 ++ w' :: M2 → hd w' X1 = w.
Proof. destruct X1 as [|x X1]; simpl; by intros [= -> ->]. Qed.

Lemma cons_eq_app_nil (w w' : A) (X1 M2 : list A) :
  [w] = X1 ++ w' :: M2 → X1 = [] ∧ w' = w ∧ M2 = [].
Proof.
  destruct X1 as [|x X1]; simpl; [by intros [= -> <-]|].
  intros [= _ H]. by destruct X1.
Qed.

Lemma lastd_elem_ne (w : A) (M : list A) : M ≠ [] → lastd w M ∈ M.
Proof. destruct M as [|m M]; [done|]. intros _. apply (lastd_elem m M). Qed.

End ListFacts2.

Section Partition.
Context {T : Type}.
Variable cmp : T → T → Z.
Variable V : nat → T.
Variable piv : T.
Implicit Types (h : gmap nat (@Element T)) (a b c d e x y l w : nat) (A B M X Y F p q ns : list nat).

Lemma owned_same_data h h' l ns : same_data h h' → owned h l ns → owned h' l ns.
Proof. intros Hsd Ho x Hx. destruct (Hsd x) as [_ ->]. by apply Ho. Qed.

Lemma node_values_same_data h h' ns :
  same_data h h' → node_values h V ns → node_values h' V ns.
Proof. intros Hsd Hv x Hx. destruct (Hsd x) as [-> _]. by apply Hv. Qed.

Lemma owned_perm h l ns ns' : ns ≡ₚ ns' → owned h l ns → owned h l ns'.
Proof. intros HP Ho x Hx. apply Ho. by rewrite HP. Qed.

(** The partition loop: cursors stay inside the window, the ring is only
    permuted inside the window, and the loop ends with everything before the
    final left cursor not above the pivot and everything after it not below. *)
Lemma partition_loop_spec n h l A w M B F :
  ring h l (A ++ w :: M ++ B) → owned h l (A ++ w :: M ++ B) →
  node_values h V (w :: M) →
  (∀ x, x ∈ l :: A ++ w :: M ++ B → x ∈ F) →
  ((length M + 2 ≤ n)%nat ∨
   ((length M + 1 ≤ n)%nat ∧ (M = [] ∨ cmp (V (lastd w M)) piv >= 0))) →
  ∃ h' X m Y r,
    partition_loop cmp n h (Some w) (Some (lastd w M)) piv = Done (h', Some m, Some r) ∧
    r ∈ w :: M ∧
    ring h' l (A ++ X ++ m :: Y ++ B) ∧ X ++ m :: Y ≡ₚ w :: M ∧
    Forall (λ x, cmp (V x) piv <= 0) X ∧ Forall (λ x, cmp (V x) piv >= 0) Y ∧
    same_data h h' ∧ same_outside F h h' ∧
    (cmp (V w) piv <= 0 → cmp (V m) piv <= 0 ∧ hd m X = w) ∧
    (Forall (λ x, cmp (V x) piv >= 0) M → h' = h ∧ X = [] ∧ m = w ∧ Y = M).
Proof.
  revert h A w M B. induction n as [|n' IH]; intros h A w M B Hr Ho Hv HS Hn.
  { exfalso. lia. }
  assert (length M < S n')%nat as Hfuel by lia.
  destruct (scan_right_spec cmp V piv _ h l A w M B Hr Ho Hv Hfuel)
    as (M1 & Y1 & HM & Hsr & HY1 & Hstop1).
  assert (ring h l (A ++ w :: M1 ++ Y1 ++ B)) as Hr1.
  { rewrite HM in Hr. by rewrite <- app_assoc in Hr. }
  assert (owned h l (A ++ w :: M1 ++ Y1 ++ B)) as Ho1.
  { rewrite HM in Ho. by rewrite <- app_assoc in Ho. }
  assert (node_values h V (w :: M1)) as Hv1.
  { intros x Hx. apply Hv. rewrite HM. set_solver. }
  assert (length M1 < S n')%nat as Hfuel1.
  { rewrite HM, length_app in Hfuel. lia. }
  destruct (scan_left_spec cmp V piv _ h l A w M1 (Y1 ++ B) Hr1 Ho1 Hv1 Hfuel1)
    as (X1 & w' & M2 & HM1 & Hsl & HX1 & Hstop2).
  pose proof (cons_eq_app_lastd _ _ _ _ _ HM1) as Hlast.
  pose proof (cons_eq_app_hd _ _ _ _ _ HM1) as Hhd.
  cbn [partition_loop]. rewrite Hsr. cbn [bindR]. rewrite Hsl. cbn [bindR].
  assert (A ++ w :: M ++ B = A ++ X1 ++ w' :: M2 ++ Y1 ++ B) as Hshape.
  { rewrite HM. change (w :: (M1 ++ Y1) ++ B) with ((w :: M1 ++ Y1) ++ B).
    change (w :: M1 ++ Y1) with ((w :: M1) ++ Y1). rewrite HM1. by norm_app. }
  assert (∀ y, y ∈ X1 ++ w' :: M2 → y ∈ w :: M) as Hwin.
  { intros y Hy. rewrite <- HM1 in Hy. rewrite HM. clear -Hy. set_solver. }
  destruct M2 as [|r M3 _] using rev_ind.
  - (* the cursors meet *)
    rewrite Hlast. simpl. simpl in Hshape. rewrite decide_True by done.
    exists h, X1, w', Y1, w'. split; [done|].
    split; [apply Hwin; clear; set_solver|].
    split; [by rewrite <- Hshape|].
    split; [by rewrite HM, app_comm_cons, HM1; norm_app|].
    split; [done|]. split; [done|]. split; [apply same_data_refl|].
    split; [apply same_outside_refl|]. split.
    + intros Hw. split; [|done]. destruct Hstop1 as [->|Hnge].
      * by apply cons_eq_app_nil in HM1 as (_ & -> & _).
      * rewrite Hlast in Hnge. simpl in Hnge. lia.
    + intros Hall. destruct (decide (M1 = [])) as [->|HM1ne].
      * apply cons_eq_app_nil in HM1 as (-> & -> & _). by rewrite HM.
      * exfalso. destruct Hstop1 as [?|Hnge]; [done|]. apply Hnge.
        rewrite Forall_forall in Hall. apply Hall.
        rewrite HM. apply elem_of_app. left. by apply lastd_elem_ne.
  - (* two nodes on the wrong sides: exchange them *)
    rewrite lastd_snoc in Hlast. rewrite Hlast.
    assert (ring h l ((A ++ X1) ++ w' :: M3 ++ r :: Y1 ++ B)) as Hr2.
    { rewrite Hshape in Hr. norm_app; norm_app_in Hr; done. }
    assert (w' ≠ r) as Hneq.
    { apply not_eq_sym. eapply (ring_window_neq h l (A ++ X1) w' (M3 ++ [r]) (Y1 ++ B)).
      - norm_app; norm_app_in Hr2; done.
      - set_solver. }
    rewrite decide_False by congruence.
    assert (¬ cmp (V w') piv <= 0) as Hw'.
    { destruct Hstop2 as [E|?]; [by destruct M3|done]. }
    assert (M1 ≠ []) as HM1ne.
    { intros ->. apply cons_eq_app_nil in HM1 as (_ & _ & E). by destruct M3. }
    assert (¬ cmp (V r) piv >= 0) as Hr'.
    { destruct Hstop1 as [?|Hs]; [done|]. by rewrite Hlast in Hs. }
    assert (r ∈ M) as HrM.
    { rewrite HM. apply elem_of_app. left. rewrite <- Hlast. by apply lastd_elem_ne. }
    destruct (swap_ring_forward h l (A ++ X1) w' M3 r (Y1 ++ B) Hr2)
      as (h1 & Hsw & Hr3 & Hsd1 & Hso1).
    rewrite Hsw. cbn [bindR].
    assert (same_outside F h h1) as HsoF.
    { eapply same_outside_mono; [|done]. intros x Hx. apply HS.
      rewrite Hshape. norm_app; norm_app_in Hx; done. }
    assert (X1 ++ r :: M3 ++ w' :: Y1 ≡ₚ w :: M) as Hperm.
    { rewrite HM. change (w :: M1 ++ Y1) with ((w :: M1) ++ Y1).
      rewrite HM1. solve_Permutation. }
    destruct M3 as [|m3 M3'].
    + (* they were neighbours *)
      rewrite bool_decide_eq_true_2 by done.
      exists h1, X1, r, (w' :: Y1), w'. split; [done|].
      split; [apply Hwin; clear; set_solver|].
      split; [norm_app; norm_app_in Hr3; done|]. split; [done|].
      split; [done|]. split; [constructor; [lia|done]|].
      split; [done|]. split; [done|]. split.
      * intros Hw. split; [lia|].
        destruct X1 as [|x1 X1']; simpl in HM1; [|by injection HM1 as ->].
        injection HM1 as -> _. done.
      * intros Hall. exfalso. apply Hr'.
        rewrite Forall_forall in Hall. by apply Hall.
    + (* the scan goes on inside the smaller window *)
      rewrite bool_decide_eq_false_2 by done.
      remember (m3 :: M3') as M3 eqn:HM3.
      assert (length M1 = (length X1 + length M3 + 1)%nat) as Hlen.
      { apply (f_equal length) in HM1. simpl in HM1.
        rewrite !length_app in HM1. simpl in HM1. rewrite length_app in HM1.
        simpl in HM1. lia. }
      destruct (IH h1 (A ++ X1) r (M3 ++ [w']) (Y1 ++ B))
        as (h' & X' & m & Y' & r' & Hpl & Hrin & Hr4 & Hperm' & HX' & HY' & Hsd2 & Hso2 & Hle & _).
      * norm_app. norm_app_in Hr3. done.
      * intros x Hx. destruct (Hsd1 x) as [_ ->]. apply Ho. rewrite Hshape.
        norm_app. norm_app_in Hx. clear -Hx. set_solver.
      * intros x Hx. destruct (Hsd1 x) as [-> _]. apply Hv. rewrite <- Hperm.
        clear -Hx. set_solver.
      * intros x Hx. apply HS. rewrite Hshape.
        norm_app. norm_app_in Hx. clear -Hx. set_solver.
      * right. split; [|right; rewrite lastd_snoc; lia].
        rewrite length_app. simpl.
        assert (length M = (length M1 + length Y1)%nat) as HlenM.
        { by rewrite HM, length_app. }
        destruct Hn as [Hn|[Hn [HMnil|Hge]]]; [lia| |].
        { rewrite HMnil in HrM. by apply elem_of_nil in HrM. }
        assert (Y1 ≠ []) as HY1ne.
        { intros ->. rewrite app_nil_r in HM. rewrite HM, Hlast in Hge. done. }
        destruct Y1; [done|]. simpl in HlenM. lia.
      * rewrite lastd_snoc in Hpl.
        exists h', (X1 ++ X'), m, (Y' ++ Y1), r'. split; [done|].
        split; [rewrite <- Hperm; clear -Hrin; set_solver|].
        split; [norm_app; norm_app_in Hr4; done|].
        split.
        { rewrite <- Hperm.
          transitivity (X1 ++ (X' ++ m :: Y') ++ Y1); [solve_Permutation|].
          rewrite Hperm'. solve_Permutation. }
        split; [by apply Forall_app|]. split; [by apply Forall_app|].
        split; [by eapply same_data_trans|].
        split; [by eapply same_outside_trans|]. split.
        { intros Hw. destruct Hle as [Hlem _]; [lia|]. split; [done|].
          destruct X1 as [|x1 X1']; simpl in HM1; [|by injection HM1 as ->].
          injection HM1 as -> _. done. }
        { intros Hall. exfalso. apply Hr'.
          rewrite Forall_forall in Hall. by apply Hall. }
Qed.

End Partition.

Section PlacePivot.
Context {T : Type}.
Implicit Types (h : gmap nat (@Element T)) (a b c d e x y l w m f : nat) (A B M X Y F Lo p q ns : list nat).

Lemma ring_link_between h l P Q : ring h l (P ++ Q) → link h (lastd l P) (hd l Q).
Proof.
  intros [_ H]. destruct (lastd_split l P) as [p Hp].
  assert (∃ r, Q ++ [l] = hd l Q :: r) as [r Hr].
  { destruct Q; simpl; eauto. }
  rewrite <- app_assoc, app_comm_cons, Hp, Hr, <- app_assoc in H. simpl in H.
  by apply linked_mid in H.
Qed.

(** Placing the pivot: the node at the front of the range and the node
    under the left cursor exchange places; [finalPivot] is the node that was
    at the front. *)
Lemma place_pivot_spec h l A X m Y B :
  ring h l (A ++ X ++ m :: Y ++ B) →
  ∃ h' Lo,
    place_pivot h (Some (lastd l A)) (Some m) = Done (h', Some (hd m X)) ∧
    ring h' l (A ++ Lo ++ hd m X :: Y ++ B) ∧
    hd m X :: Lo ≡ₚ X ++ [m] ∧
    (X = [] → Lo = [] ∧ h' = h) ∧
    same_data h h' ∧ same_outside (l :: A ++ X ++ m :: Y ++ B) h h'.
Proof.
  intros Hr. unfold place_pivot.
  assert (ring h l ((A ++ X) ++ m :: Y ++ B)) as Hr' by (by rewrite <- app_assoc).
  pose proof (ring_link_next _ _ _ _ _ Hr') as [Hnm Hpm].
  assert (link h (lastd l A) (hd m X)) as [Hnl Hpl].
  { pose proof (ring_link_between _ _ _ _ Hr) as Hlk.
    by destruct X. }
  exec.
  destruct X as [|f X3]; simpl in *.
  - unfold swap. rewrite decide_False by (intros ?; done). cbn [bindR].
    exec. exists h, []. split; [done|]. split; [done|]. split; [done|].
    split; [done|]. split; [apply same_data_refl|apply same_outside_refl].
  - destruct (swap_ring_forward h l A f X3 m (Y ++ B) Hr)
      as (h' & Hsw & Hr2 & Hsd & Hso).
    rewrite Hsw. cbn [bindR].
    assert (ring h' l ((A ++ m :: X3) ++ f :: Y ++ B)) as Hr2'.
    { by rewrite <- app_assoc. }
    pose proof (ring_link_next _ _ _ _ _ Hr2') as [Hnf Hpf].
    exec. exists h', (m :: X3). split; [done|]. split; [done|].
    split; [solve_Permutation|]. split; [done|]. done.
Qed.

End PlacePivot.

Section SortedFacts.
Context {A : Type} (R : A → A → Prop).

Lemma Sorted_app_cons (L Q : list A) (f : A) :
  Sorted R L → Sorted R (f :: Q) → Forall (λ a, R a f) L → Sorted R (L ++ f :: Q).
Proof.
  intros HL HQ HF. induction L as [|a L IH]; [done|].
  apply Sorted_inv in HL as [HL Hhd]. apply Forall_cons in HF as [Haf HF].
  simpl. constructor; [by apply IH|].
  destruct L as [|b L]; simpl; constructor; [done|].
  by apply HdRel_inv in Hhd.
Qed.

Lemma Sorted_cons_Forall (f : A) (Q : list A) :
  Sorted R Q → Forall (R f) Q → Sorted R (f :: Q).
Proof.
  intros HQ HF. constructor; [done|].
  destruct Q; constructor. by apply Forall_cons in HF as [? _].
Qed.

End SortedFacts.

Section CmpFacts.
Context {T : Type} (cmp : T → T → Z).

Lemma valid_cmp_refl a : valid_cmp cmp → cmp a a = 0.
Proof. intros [Hf _]. specialize (Hf a a). lia. Qed.

Lemma valid_cmp_ge_le a b : valid_cmp cmp → cmp a b >= 0 → cmp b a <= 0.
Proof. intros [Hf _] H. specialize (Hf a b). lia. Qed.

Lemma valid_cmp_le_ge a b : valid_cmp cmp → cmp a b <= 0 → cmp b a >= 0.
Proof. intros [Hf _] H. specialize (Hf a b). lia. Qed.

End CmpFacts.

Section QSort.
Context {T : Type}.
Variable cmp : T → T → Z.
Variable V : nat → T.
Implicit Types (h : gmap nat (@Element T)) (a b c d e x y l w m f q : nat) (A B M X Y F Lo Sg Q p ns : list nat).

Local Notation R := (node_le cmp V).

Lemma sorted_head_least x Sg :
  valid_cmp cmp → Sorted R (x :: Sg) → Forall (λ y, cmp (V y) (V x) >= 0) Sg.
Proof.
  intros Hc Hs.
  assert (Transitive R) as Htr.
  { intros a b c. unfold node_le. apply (cmp_trans _ Hc). }
  apply Sorted_StronglySorted in Hs; [|done].
  apply StronglySorted_inv in Hs as [_ Hs].
  eapply Forall_impl; [done|]. intros y Hy. by apply valid_cmp_le_ge.
Qed.

(** [_qsort] on a well-formed range: it returns, the ring is permuted
    inside the range only, and for a valid comparator the range is sorted
    (and left as it was when it was sorted already). *)
Lemma qsort_spec n lst h l A x Sg B F :
  ring h l (A ++ x :: Sg ++ B) → owned h l (A ++ x :: Sg ++ B) →
  node_values h V (x :: Sg) →
  (∀ y, y ∈ l :: A ++ x :: Sg ++ B → y ∈ F) →
  (length Sg + 2 ≤ n)%nat →
  ∃ h' Seg,
    _qsort cmp n h lst (Some x) (Some (lastd x Sg)) = Done h' ∧
    ring h' l (A ++ Seg ++ B) ∧ Seg ≡ₚ x :: Sg ∧
    same_data h h' ∧ same_outside F h h' ∧
    (valid_cmp cmp → Sorted R Seg ∧ (Sorted R (x :: Sg) → Seg = x :: Sg ∧ h' = h)).
Proof.
  revert h A x Sg B. induction n as [|n' IH]; intros h A x Sg B Hr Ho Hv HF Hn.
  { exfalso. lia. }
  (* a sub-range, possibly empty, sorted by a recursive call *)
  assert (∀ h A' Q B', ring h l (A' ++ Q ++ B') → owned h l (A' ++ Q ++ B') →
            node_values h V Q → (∀ y, y ∈ l :: A' ++ Q ++ B' → y ∈ F) →
            (length Q + 1 ≤ n')%nat →
            ∃ h' Q', (Q = [] ∧ h' = h ∨
                      ∃ q Q0, Q = q :: Q0 ∧
                        _qsort cmp n' h lst (Some q) (Some (lastd q Q0)) = Done h') ∧
              ring h' l (A' ++ Q' ++ B') ∧ Q' ≡ₚ Q ∧
              same_data h h' ∧ same_outside F h h' ∧
              (valid_cmp cmp → Sorted R Q' ∧ (Sorted R Q → Q' = Q ∧ h' = h)))
    as Hsub.
  { clear h A x Sg B Hr Ho Hv HF Hn. intros h A' Q B' Hr Ho Hv HF Hn.
    destruct Q as [|q Q0].
    - exists h, []. split; [by left|]. split; [done|]. split; [done|].
      split; [apply same_data_refl|]. split; [apply same_outside_refl|].
      intros _. split; [constructor|done].
    - destruct (IH h A' q Q0 B') as (h' & Q' & Hq & ?); try done.
      { simpl in Hn. lia. }
      exists h', Q'. split; [|done]. right. eauto. }
  clear IH. cbn [_qsort].
  destruct (decide (Sg = [])) as [->|HS0].
  { simpl. rewrite decide_True by done. exists h, [x].
    split; [done|]. split; [done|]. split; [done|].
    split; [apply same_data_refl|]. split; [apply same_outside_refl|].
    intros _. split; [repeat constructor|done]. }
  assert (lastd x Sg ≠ x) as Hne.
  { eapply ring_window_neq; [done|]. by apply lastd_elem_ne. }
  rewrite decide_False by congruence.
  pose proof (ring_link_prev _ _ _ _ _ Hr) as [_ Hpx].
  destruct (lastd_split x Sg) as [p Hp].
  assert (ring h l ((A ++ p) ++ lastd x Sg :: B)) as Hrl.
  { rewrite <- app_assoc. change (lastd x Sg :: B) with ([lastd x Sg] ++ B).
    rewrite (app_assoc p), <- Hp. done. }
  pose proof (ring_link_next _ _ _ _ _ Hrl) as [Hnr _].
  exec. rewrite (get_Value_alloc h x (V x)) by (apply Hv; left).
  cbn [bindR].
  destruct (partition_loop_spec cmp V (V x) (S n') h l A x Sg B F Hr Ho Hv HF)
    as (h1 & X & m & Y & rt & Hpl & _ & Hr1 & Hperm1 & HX & HY & Hsd1 & Hso1 & Hle & Hid1).
  { left. lia. }
  rewrite Hpl. cbn [bindR].
  destruct (place_pivot_spec h1 l A X m Y B Hr1)
    as (h2 & Lo & Hpp & Hr2 & Hperm2 & Hid2 & Hsd2 & Hso2).
  rewrite Hpp. cbn [bindR].
  set (f := hd m X) in *. clearbody f.
  assert (Lo ++ f :: Y ≡ₚ x :: Sg) as Hperm02.
  { rewrite <- Hperm1. transitivity ((f :: Lo) ++ Y); [solve_Permutation|].
    rewrite Hperm2. solve_Permutation. }
  assert (same_data h h2) as Hsd02 by (by eapply same_data_trans).
  assert (∀ Q, Q ≡ₚ x :: Sg → ∀ y, y ∈ l :: A ++ Q ++ B → y ∈ F) as HFperm.
  { intros Q HQ y Hy. apply HF. change (x :: Sg ++ B) with ((x :: Sg) ++ B).
    by rewrite <- HQ. }
  assert (same_outside F h h2) as Hso02.
  { eapply same_outside_trans; [done|]. eapply same_outside_mono; [|done].
    intros y Hy. apply (HFperm (X ++ m :: Y)); [done|]. by norm_app. }
  assert (∀ h' Q, same_data h h' → Q ≡ₚ x :: Sg → owned h' l (A ++ Q ++ B)) as Hoperm.
  { intros h' Q Hsd HQ. eapply owned_same_data; [done|].
    eapply (owned_perm h l (A ++ (x :: Sg) ++ B)); [by rewrite HQ|done]. }
  assert (∀ h' Q, same_data h h' → Q ≡ₚ x :: Sg → node_values h' V Q) as Hvperm.
  { intros h' Q Hsd HQ. eapply node_values_same_data; [done|].
    intros y Hy. apply Hv. by rewrite <- HQ. }
  assert (length Lo + length Y = length Sg)%nat as Hlen.
  { apply Permutation_length in Hperm02. rewrite length_app in Hperm02.
    simpl in Hperm02. lia. }
  (* the left part *)
  destruct (Hsub h2 A Lo (f :: Y ++ B)) as (h3 & Lo' & Hql & Hr3 & Hperm3 & Hsd3 & Hso3 & Hs3).
  { done. }
  { specialize (Hoperm h2 _ Hsd02 Hperm02). by norm_app_in Hoperm. }
  { intros y Hy. apply (Hvperm h2 _ Hsd02 Hperm02). set_solver. }
  { intros y Hy. apply (HFperm _ Hperm02). by norm_app. }
  { lia. }
  assert (same_data h h3) as Hsd03 by (by eapply same_data_trans).
  assert (Lo' ++ f :: Y ≡ₚ x :: Sg) as Hperm03 by (by rewrite Hperm3).
  (* the right part *)
  destruct (Hsub h3 (A ++ Lo' ++ [f]) Y B) as (h4 & Y' & Hqr & Hr4 & Hperm4 & Hsd4 & Hso4 & Hs4).
  { norm_app. done. }
  { specialize (Hoperm h3 _ Hsd03 Hperm03). norm_app. by norm_app_in Hoperm. }
  { intros y Hy. apply (Hvperm h3 _ Hsd03 Hperm03). set_solver. }
  { intros y Hy. apply (HFperm _ Hperm03). norm_app. by norm_app_in Hy. }
  { lia. }
  clear Hsub.
  exists h4, (Lo' ++ f :: Y'). split.
  { pose proof (ring_link_between _ _ _ _ Hr2) as [Hnl2 _].
    assert (ring h2 l ((A ++ Lo) ++ f :: Y ++ B)) as Hr2' by (by rewrite <- app_assoc).
    pose proof (ring_link_prev _ _ _ _ _ Hr2') as [_ Hpf2].
    exec.
    match goal with |- bindR ?m _ = _ => assert (m = Done h3) as Hleft end.
    { destruct Hql as [[-> ->]|(q & Q0 & -> & Hq)].
      - simpl. rewrite decide_False; [done|]. by intros [].
      - simpl. assert (q ≠ f).
        { apply not_eq_sym. eapply (ring_window_neq h2 l A q (Q0 ++ [f]) (Y ++ B)).
          - norm_app. done.
          - set_solver. }
        rewrite decide_True by congruence. by rewrite lastd_app_cons. }
    rewrite Hleft. cbn [bindR].
    assert (ring h3 l ((A ++ Lo' ++ f :: Y) ++ B)) as Hr3' by (norm_app; done).
    pose proof (ring_link_between _ _ _ _ Hr3') as [_ Hpr3].
    rewrite app_assoc, lastd_app_cons in Hpr3.
    assert (ring h3 l ((A ++ Lo') ++ f :: Y ++ B)) as Hr3'' by (norm_app; done).
    pose proof (ring_link_next _ _ _ _ _ Hr3'') as [Hnf3 _].
    exec.
    destruct Hqr as [[-> ->]|(q & Q0 & -> & Hq)].
    - simpl. rewrite decide_False; [done|]. by intros [].
    - simpl. assert (lastd q Q0 ≠ f).
      { eapply (ring_window_neq h3 l (A ++ Lo') f (q :: Q0) B).
        - norm_app. norm_app_in Hr3. done.
        - apply lastd_elem. }
      rewrite decide_True by congruence. done. }
  split; [norm_app; norm_app_in Hr4; done|].
  split; [by rewrite Hperm4|].
  split; [by eapply same_data_trans|].
  split; [by eapply same_outside_trans; [eapply same_outside_trans|]|].
  intros Hc. destruct Hle as [Hlem ->].
  { rewrite (valid_cmp_refl cmp _ Hc). lia. }
  destruct (Hs3 Hc) as [Hsl Hidl]. destruct (Hs4 Hc) as [Hsr Hidr].
  split.
  - apply Sorted_app_cons; [done| |].
    + apply Sorted_cons_Forall; [done|]. rewrite Hperm4.
      eapply Forall_impl; [done|]. intros y Hy. by apply valid_cmp_ge_le.
    + rewrite Hperm3. assert (Forall (λ a, R a x) (x :: Lo)) as HLo.
      { rewrite Hperm2. apply Forall_app. split; [done|]. by apply Forall_singleton. }
      by apply Forall_cons in HLo as [_ ?].
  - intros Hsorted. pose proof (sorted_head_least _ _ Hc Hsorted) as Hleast.
    destruct (Hid1 Hleast) as (-> & -> & -> & ->).
    destruct (Hid2 eq_refl) as [-> ->].
    destruct Hidl as [-> ->]; [constructor|].
    apply Sorted_inv in Hsorted as [Hsorted _].
    destruct (Hidr Hsorted) as [-> ->]. done.
Qed.

End QSort.

Section StateFacts.
Context {T : Type}.
Implicit Types (s : @State T) (h : gmap nat (@Element T)) (a b c d e x y l w m f q : nat)
  (A B M X Y F Lo Sg Q p ns : list nat).

Lemma walk_ring n h l A B :
  ring h l (A ++ B) → owned h l B → (length B ≤ n)%nat → walk n h (head B) = Done B.
Proof.
  revert n A. induction B as [|b B IH]; intros n A Hr Ho Hn; [by destruct n|].
  destruct n as [|n']; [simpl in Hn; lia|]. cbn [head hd_error walk].
  rewrite (Next_ring h l A b B Hr) by (apply Ho; left). cbn [bindR].
  rewrite (IH n' (A ++ [b])).
  - done.
  - by rewrite <- app_assoc.
  - intros x Hx. apply Ho. by right.
  - simpl in Hn. lia.
Qed.

Lemma read_values_fmap h (V : nat → T) ns :
  node_values h V ns → read_values h ns = Done (V <$> ns).
Proof.
  induction ns as [|a ns IH]; intros Hv; [done|].
  cbn [read_values]. rewrite (get_Value_alloc h a (V a)) by (apply Hv; left).
  cbn [bindR]. rewrite IH; [done|]. intros x Hx. apply Hv. by right.
Qed.

Lemma list_rep_alloc s l ns x : list_rep s l ns → x ∈ ns → is_Some (elems s !! x).
Proof.
  intros Hrep Hx. apply (rep_owned _ _ _ Hrep) in Hx. by eapply owner_alloc.
Qed.

Lemma list_rep_owned s l ns : list_rep s l ns → owned (elems s) l ns.
Proof. intros Hrep x Hx. by apply (rep_owned _ _ _ Hrep). Qed.

(** Some [V] names the value of every node of a list. *)
Lemma list_rep_values s l ns :
  list_rep s l ns → ∃ V : nat → T, node_values (elems s) V ns.
Proof.
  intros Hrep. destruct (rep_root _ _ _ Hrep) as [[e He] _].
  exists (λ x, default (Value e) (value_of (elems s) x)).
  intros x Hx. destruct (list_rep_alloc _ _ _ _ Hrep Hx) as [ex Hex].
  unfold value_of. by rewrite Hex.
Qed.

Lemma lazyInit_rep s l ns :
  list_rep s l ns →
  ∃ s', lazyInit s (Some l) = Done s' ∧ list_rep s' l ns ∧ ring (elems s') l ns ∧
    (ring (elems s) l ns → s' = s) ∧ lens s' = lens s ∧ brk s' = brk s ∧
    same_data (elems s) (elems s') ∧ same_outside [l] (elems s) (elems s').
Proof.
  intros Hrep. destruct (rep_root _ _ _ Hrep) as [Hal Hol].
  unfold lazyInit. rewrite get_next_alloc by done. cbn [bindR].
  destruct (rep_ring _ _ _ Hrep) as [Hr|[-> Hz]].
  - rewrite (ring_nx_root _ _ _ Hr). rewrite decide_False by congruence.
    exists s. split; [done|]. split; [done|]. split; [done|]. split; [done|].
    split; [done|]. split; [done|]. split; [apply same_data_refl|apply same_outside_refl].
  - rewrite Hz. rewrite decide_True by congruence.
    unfold Init. exec. unfold set_len. simpl.
    pose proof (rep_len _ _ _ Hrep) as Hlen. simpl in Hlen. rewrite Hlen.
    rewrite insert_id by done.
    set (h' := alter (with_prev (Some l)) l (alter (with_next (Some l)) l (elems s))).
    assert (ring h' l []) as Hr'.
    { split; [apply NoDup_singleton|]. simpl. split; [|done].
      split; unfold h'; heap_simpl; done. }
    assert (same_data (elems s) h') as Hsd.
    { intros x. unfold h'. split; heap_simpl; done. }
    eexists. split; [reflexivity|]. simpl. split; [|split; [done|]].
    + split; simpl.
      * split; [unfold h'; alloc_tac|]. destruct (Hsd l) as [_ ->]. done.
      * by left.
      * intros x. destruct (Hsd x) as [_ ->]. apply (rep_owned _ _ _ Hrep).
      * done.
    + split.
      { intros Hr. apply ring_nx_root in Hr. simpl in Hr. congruence. }
      split; [done|]. split; [done|]. split; [done|].
      intros x. unfold h'. frame_tac.
Qed.

End StateFacts.

Section QuickSortSpec.
Context {T : Type}.
Implicit Types (s : @State T) (h : gmap nat (@Element T)) (a b c d e x y l w m f q : nat)
  (A B M X Y F Lo Sg Q p ns : list nat).

Lemma with_elems_id s : with_elems s (elems s) = s.
Proof. by destruct s. Qed.

Lemma Front_rep s l ns :
  list_rep s l ns → ring (elems s) l ns → Front s (Some l) = Done (head ns).
Proof.
  intros Hrep Hr. unfold Front, get_len. rewrite (rep_len _ _ _ Hrep). cbn [bindR].
  destruct ns as [|x ns']; case_decide as Hd; simpl in Hd; try lia; [done|].
  rewrite get_next_alloc by (apply (rep_root _ _ _ Hrep)).
  by rewrite (ring_nx_root _ _ _ Hr).
Qed.

Lemma Back_rep s l ns :
  list_rep s l ns → ring (elems s) l ns → Back s (Some l) = Done (last ns).
Proof.
  intros Hrep Hr. unfold Back, get_len. rewrite (rep_len _ _ _ Hrep). cbn [bindR].
  destruct ns as [|x ns']; case_decide as Hd; simpl in Hd; try lia; [done|].
  rewrite get_prev_alloc by (apply (rep_root _ _ _ Hrep)).
  rewrite (ring_pv_root _ _ _ Hr). by rewrite (last_lastd l).
Qed.

(** [QuickSort] on a well-formed list, for any comparator: it returns, the
    nodes are permuted and nothing else changes; for a valid comparator the
    result is sorted, and a sorted list is left as it was. *)
Lemma QuickSort_spec (cmp : T → T → Z) (V : nat → T) n s l ns :
  list_rep s l ns → node_values (elems s) V ns → (length ns < n)%nat →
  ∃ s' ns',
    QuickSort cmp n s (Some l) = Done s' ∧
    list_rep s' l ns' ∧ ring (elems s') l ns' ∧ ns' ≡ₚ ns ∧
    same_data (elems s) (elems s') ∧ same_outside (l :: ns) (elems s) (elems s') ∧
    lens s' = lens s ∧ brk s' = brk s ∧
    (valid_cmp cmp →
       Sorted (node_le cmp V) ns' ∧
       (Sorted (node_le cmp V) ns → ns' = ns ∧ (ring (elems s) l ns → s' = s))) ∧
    ((length ns ≤ 1)%nat →
       ns' = ns ∧ lazyInit s (Some l) = Done s' ∧ (ring (elems s) l ns → s' = s)).
Proof.
  intros Hrep Hv Hn.
  destruct (lazyInit_rep s l ns Hrep)
    as (s1 & Hlazy & Hrep1 & Hr1 & Hid1 & Hlens1 & Hbrk1 & Hsd1 & Hso1).
  unfold QuickSort. rewrite Hlazy. cbn [bindR].
  rewrite (Front_rep _ _ _ Hrep1 Hr1), (Back_rep _ _ _ Hrep1 Hr1). cbn [bindR].
  assert (same_outside (l :: ns) (elems s) (elems s1)) as Hso1'.
  { eapply same_outside_mono; [|done]. intros x Hx.
    apply list_elem_of_singleton in Hx as ->. left. }
  assert (length ns ≤ 1 →
          ∃ s' ns', _qsort cmp n (elems s1) (Some l) (head ns) (last ns) = Done (elems s1))%nat
    as Hsmall.
  { intros Hle. exists s1, ns. destruct n as [|n']; [lia|].
    destruct ns as [|x [|y ns']]; [| |simpl in Hle; lia];
      cbn [_qsort head hd_error last]; by rewrite decide_True. }
  destruct ns as [|x Sg].
  - destruct Hsmall as (_ & _ & Hq); [simpl; lia|]. rewrite Hq. cbn [bindR].
    rewrite with_elems_id. exists s1, []. split; [done|]. split; [done|].
    split; [done|]. split; [done|]. split; [done|]. split; [done|].
    split; [done|]. split; [done|]. split; [|done].
    intros _. split; [constructor|done].
  - cbn [hd_error]. rewrite (last_lastd l) by done. simpl lastd.
    assert (ring (elems s1) l ([] ++ x :: Sg ++ [])) as Hr1' by (by rewrite app_nil_r).
    destruct (qsort_spec cmp V n (Some l) (elems s1) l [] x Sg [] (l :: x :: Sg) Hr1')
      as (h' & Seg & Hq & Hr' & Hperm & Hsd & Hso & Hsort).
    { simpl. rewrite app_nil_r. by apply list_rep_owned. }
    { by eapply node_values_same_data. }
    { intros y Hy. simpl in Hy. by rewrite app_nil_r in Hy. }
    { simpl in Hn. lia. }
    rewrite Hq. cbn [bindR]. simpl in Hr'. rewrite app_nil_r in Hr'.
    exists (with_elems s1 h'), Seg. split; [done|].
    split.
    { split; simpl.
      - pose proof (rep_root _ _ _ Hrep1) as [Hal Hol]. split.
        + by apply (same_data_alloc _ _ l Hsd).
        + destruct (Hsd l) as [_ ->]. done.
      - by left.
      - intros y. destruct (Hsd y) as [_ ->]. rewrite Hperm.
        apply (rep_owned _ _ _ Hrep1).
      - rewrite (rep_len _ _ _ Hrep1). by rewrite Hperm. }
    split; [done|]. split; [done|].
    split; [by eapply same_data_trans|].
    split; [by eapply same_outside_trans|].
    split; [done|]. split; [done|]. split.
    + intros Hc. destruct (Hsort Hc) as [Hs Hid]. split; [done|].
      intros Hsorted. destruct (Hid Hsorted) as [-> ->].
      split; [done|]. intros Hr. rewrite with_elems_id. by apply Hid1.
    + intros Hle. destruct Hsmall as (_ & _ & Hq'); [done|].
      destruct Sg as [|? ?]; [|simpl in Hle; lia].
      simpl in Hq, Hq'. rewrite Hq in Hq'. injection Hq' as ->.
      apply Permutation_singleton_r in Hperm as ->.
      rewrite with_elems_id. done.
Qed.

End QuickSortSpec.

Section Traversal.
Context {T : Type}.
Implicit Types (s : @State T) (h : gmap nat (@Element T)) (x y l : nat) (ns : list nat).

Lemma traversal_rep n s l ns :
  list_rep s l ns → (length ns ≤ n)%nat → traversal n s (Some l) = Done ns.
Proof.
  intros Hrep Hn. unfold traversal.
  destruct (rep_ring _ _ _ Hrep) as [Hr|[-> Hz]].
  - rewrite (Front_rep _ _ _ Hrep Hr). cbn [bindR].
    apply (walk_ring n (elems s) l [] ns); [done| |done].
    by apply list_rep_owned.
  - unfold Front, get_len. rewrite (rep_len _ _ _ Hrep). cbn [bindR].
    simpl. by destruct n.
Qed.

Lemma Values_rep (V : nat → T) n s l ns :
  list_rep s l ns → node_values (elems s) V ns → (length ns ≤ n)%nat →
  Values n s (Some l) = Done (V <$> ns).
Proof.
  intros Hrep Hv Hn. unfold Values. rewrite (traversal_rep n s l ns) by done.
  cbn [bindR]. by apply read_values_fmap.
Qed.

Lemma Len_rep s l ns : list_rep s l ns → Len s (Some l) = Done (Z.of_nat (length ns)).
Proof. intros Hrep. unfold Len, get_len. by rewrite (rep_len _ _ _ Hrep). Qed.

Lemma Sorted_fmap_inv {A B} (R : B → B → Prop) (f : A → B) (xs : list A) :
  Sorted R (f <$> xs) → Sorted (λ a b, R (f a) (f b)) xs.
Proof.
  induction xs as [|a xs IH]; [constructor|].
  rewrite fmap_cons. intros Hs. apply Sorted_inv in Hs as [Hs Hhd].
  constructor; [by apply IH|].
  destruct xs as [|b xs]; constructor. rewrite fmap_cons in Hhd.
  by apply HdRel_inv in Hhd.
Qed.

End Traversal.

Section SortClaims.
Context {T : Type}.
Implicit Types (s : @State T) (h : gmap nat (@Element T)) (x y l : nat) (ns : list nat)
  (cmp : T → T → Z).

(** C1: for every well-formed list and every valid three-way comparator,
    [QuickSort] returns and the values met by a front-to-back traversal of
    the result are sorted: every adjacent pair [(a, b)] has [cmp a b <= 0]. *)
Theorem QuickSort_sorted cmp n s l ns :
  valid_cmp cmp → list_rep s l ns → (length ns < n)%nat →
  ∃ s' vs, QuickSort cmp n s (Some l) = Done s' ∧
    Values n s' (Some l) = Done vs ∧
    Sorted (λ a b, cmp a b <= 0) vs.
Proof.
  intros Hc Hrep Hn. destruct (list_rep_values _ _ _ Hrep) as [V Hv].
  destruct (QuickSort_spec cmp V n s l ns Hrep Hv Hn)
    as (s' & ns' & Hq & Hrep' & _ & Hperm & Hsd & _ & _ & _ & Hsort & _).
  exists s', (V <$> ns'). split; [done|]. split.
  - apply Values_rep; [done| |rewrite Hperm; lia].
    eapply node_values_same_data; [done|]. intros x Hx. apply Hv. by rewrite <- Hperm.
  - destruct (Hsort Hc) as [Hs _]. eapply Sorted_fmap; [|done]. by intros a b.
Qed.

(** C2: [QuickSort] (for any comparator, valid ones included) keeps the
    nodes of the list and the multiset of their values, leaves [Len]
    unchanged, creates and destroys no element, and leaves every element's
    value as it was. *)
Theorem QuickSort_preserves cmp n s l ns :
  list_rep s l ns → (length ns < n)%nat →
  ∃ s' ns' vs vs',
    QuickSort cmp n s (Some l) = Done s' ∧
    traversal n s (Some l) = Done ns ∧ traversal n s' (Some l) = Done ns' ∧
    ns' ≡ₚ ns ∧
    Values n s (Some l) = Done vs ∧ Values n s' (Some l) = Done vs' ∧
    vs' ≡ₚ vs ∧
    Len s' (Some l) = Len s (Some l) ∧
    dom (elems s') = dom (elems s) ∧
    (∀ x, value_of (elems s') x = value_of (elems s) x).
Proof.
  intros Hrep Hn. destruct (list_rep_values _ _ _ Hrep) as [V Hv].
  destruct (QuickSort_spec cmp V n s l ns Hrep Hv Hn)
    as (s' & ns' & Hq & Hrep' & _ & Hperm & Hsd & _ & Hlens & _ & _ & _).
  assert (node_values (elems s') V ns') as Hv'.
  { eapply node_values_same_data; [done|]. intros x Hx. apply Hv. by rewrite <- Hperm. }
  exists s', ns', (V <$> ns), (V <$> ns').
  split; [done|]. split; [apply traversal_rep; [done|lia]|].
  split; [apply traversal_rep; [done|rewrite Hperm; lia]|].
  split; [done|]. split; [apply Values_rep; [done|done|lia]|].
  split; [apply Values_rep; [done|done|rewrite Hperm; lia]|].
  split; [by rewrite Hperm|].
  split; [by rewrite (Len_rep _ _ _ Hrep), (Len_rep _ _ _ Hrep'), Hperm|].
  split; [|intros x; apply Hsd].
  apply set_eq. intros x. rewrite !elem_of_dom. apply (same_data_alloc _ _ x Hsd).
Qed.

(** C7: on a list of at most one element [QuickSort] is a no-op: it
    returns, whatever the comparator (which it never consults), with the
    traversal, [Len] and every node unchanged; on an initialised list the
    whole state is unchanged (a zero [List] has only its sentinel
    initialised by [lazyInit]). *)
Theorem QuickSort_small_noop cmp n s l ns :
  list_rep s l ns → (length ns ≤ 1)%nat → (length ns < n)%nat →
  ∃ s', QuickSort cmp n s (Some l) = Done s' ∧
    (∀ cmp', QuickSort cmp' n s (Some l) = Done s') ∧
    traversal n s' (Some l) = traversal n s (Some l) ∧
    Len s' (Some l) = Len s (Some l) ∧
    (∀ x, x ≠ l → elems s' !! x = elems s !! x) ∧
    (ring (elems s) l ns → s' = s).
Proof.
  intros Hrep Hle Hn. destruct (list_rep_values _ _ _ Hrep) as [V Hv].
  destruct (QuickSort_spec cmp V n s l ns Hrep Hv Hn)
    as (s' & ns' & Hq & Hrep' & _ & _ & _ & _ & _ & _ & _ & Hsmall).
  destruct (Hsmall Hle) as (-> & Hlazy & Hid).
  exists s'. split; [done|]. split.
  { intros cmp'.
    destruct (QuickSort_spec cmp' V n s l ns Hrep Hv Hn)
      as (s'' & ns'' & Hq' & _ & _ & _ & _ & _ & _ & _ & _ & Hsmall').
    destruct (Hsmall' Hle) as (_ & Hlazy' & _). congruence. }
  split; [by rewrite !(traversal_rep n _ l ns) by (done || lia)|].
  split; [by rewrite (Len_rep _ _ _ Hrep), (Len_rep _ _ _ Hrep')|].
  split; [|done].
  destruct (lazyInit_rep s l ns Hrep) as (s1 & Hlazy1 & _ & _ & _ & _ & _ & _ & Hso).
  assert (s1 = s') as -> by congruence.
  intros x Hx. apply Hso. by intros ->%list_elem_of_singleton.
Qed.

(** C9: when the values met by the traversal are already sorted for a valid
    comparator, [QuickSort] leaves the traversal exactly as it was: no node
    changes position. *)
Theorem QuickSort_sorted_unchanged cmp n s l ns vs :
  valid_cmp cmp → list_rep s l ns → (length ns < n)%nat →
  Values n s (Some l) = Done vs → Sorted (λ a b, cmp a b <= 0) vs →
  ∃ s', QuickSort cmp n s (Some l) = Done s' ∧
    traversal n s' (Some l) = Done ns ∧ traversal n s (Some l) = Done ns ∧
    Values n s' (Some l) = Done vs.
Proof.
  intros Hc Hrep Hn Hvs Hsorted. destruct (list_rep_values _ _ _ Hrep) as [V Hv].
  rewrite (Values_rep V n s l ns) in Hvs by (done || lia). injection Hvs as <-.
  apply Sorted_fmap_inv in Hsorted.
  destruct (QuickSort_spec cmp V n s l ns Hrep Hv Hn)
    as (s' & ns' & Hq & Hrep' & _ & Hperm & Hsd & _ & _ & _ & Hsort & _).
  destruct (Hsort Hc) as [_ Hid]. destruct (Hid Hsorted) as [-> _].
  exists s'. split; [done|].
  split; [apply traversal_rep; [done|lia]|].
  split; [apply traversal_rep; [done|lia]|].
  apply Values_rep; [done| |lia]. by eapply node_values_same_data.
Qed.

End SortClaims.

Section SwapClaim.
Context {T : Type}.
Implicit Types (h : gmap nat (@Element T)) (a b c d e x y l : nat) (A C E ns : list nat).

Lemma two_elements_split ns b d :
  b ∈ ns → d ∈ ns → b ≠ d →
  (∃ A C E, ns = A ++ b :: C ++ d :: E) ∨ (∃ A C E, ns = A ++ d :: C ++ b :: E).
Proof.
  intros Hb Hd Hne. apply list_elem_of_split in Hb as (A & R & ->).
  apply elem_of_app in Hd as [Hd|Hd].
  - right. apply list_elem_of_split in Hd as (A' & C & ->).
    exists A', C, R. by rewrite <- app_assoc.
  - apply elem_of_cons in Hd as [->|Hd]; [done|].
    left. apply list_elem_of_split in Hd as (C & E & ->). by exists A, C, E.
Qed.

Lemma hd_app_default {X} (d e : X) (C E : list X) : hd e (C ++ d :: E) = hd d C.
Proof. by destruct C. Qed.

(** C5: [swap] of two distinct nodes of one list exchanges their places in
    the ring and nothing else: values and owners stay, only elements among
    [b], [d] and their former neighbours are written, and the result says
    whether the two were adjacent; [swap(b, b)] changes nothing and returns
    false. *)
Theorem swap_exchanges h l ns b d :
  ring h l ns → b ∈ ns → d ∈ ns → b ≠ d →
  ∃ h',
    swap h (Some b) (Some d) =
      Done (h', bool_decide (nx h b = Some d ∨ nx h d = Some b)) ∧
    ring h' l (transp b d <$> ns) ∧
    same_data h h' ∧
    (∀ x, Some x ∉ [Some b; Some d; pv h b; nx h b; pv h d; nx h d] →
          h' !! x = h !! x) ∧
    (∀ p, swap h p p = Done (h, false)).
Proof.
  intros Hr Hb Hd Hne.
  assert (∀ p : option nat, swap h p p = Done (h, false)) as Hsame.
  { intros p. unfold swap. by rewrite decide_False by (intros ?; done). }
  pose proof (ring_NoDup _ _ _ Hr) as Hnd.
  destruct (two_elements_split ns b d Hb Hd Hne)
    as [(A & C & E & ->)|(A & C & E & ->)].
  - destruct (swap_ring_forward_fp h l A b C d E Hr) as (h' & Hsw & Hr' & Hsd & Hso).
    pose proof (ring_link_prev _ _ _ _ _ Hr) as [_ Hpb].
    pose proof (ring_link_next _ _ _ _ _ Hr) as [Hnb _].
    assert (ring h l ((A ++ b :: C) ++ d :: E)) as Hr2 by (by rewrite <- app_assoc).
    pose proof (ring_link_prev _ _ _ _ _ Hr2) as [_ Hpd].
    pose proof (ring_link_next _ _ _ _ _ Hr2) as [Hnd' _].
    rewrite lastd_app_cons in Hpd. rewrite hd_app_default in Hnb.
    exists h'. split; [|split; [|split; [done|split; [|done]]]].
    + rewrite Hsw. do 2 f_equal. apply bool_decide_ext. rewrite Hnb, Hnd'. split.
      * intros ->. by left.
      * intros [[= H]|[= H]].
        -- destruct C as [|c C']; [done|]. simpl in H. subst c. exfalso.
           apply NoDup_cons in Hnd as [_ Hnd]. apply NoDup_app in Hnd as (_ & _ & Hnd).
           apply NoDup_cons in Hnd as [_ Hnd]. apply NoDup_cons in Hnd as [Hd' _].
           apply Hd'. clear. set_solver.
        -- exfalso. apply (NoDup_hd_neq l (A ++ b :: C ++ [d]) E b); [| |exact H].
           ++ by rewrite <- !app_assoc; simpl; rewrite <- !app_assoc.
           ++ clear. set_solver.
    + rewrite transp_fmap_swap; [done|]. by apply NoDup_cons in Hnd as [_ ?].
    + intros x Hx. apply Hso. rewrite Hpb, Hnb, Hpd, Hnd' in Hx.
      intros Hin. apply Hx. clear -Hin.
      generalize dependent (lastd l A). generalize dependent (hd l E).
      generalize dependent (hd d C). generalize dependent (lastd b C).
      generalize dependent (hd b C). generalize dependent (lastd d C).
      intros. set_solver.
  - destruct (swap_ring_backward h l A b C d E Hr) as (h' & Hsw & Hr' & Hsd & Hso).
    pose proof (ring_link_prev _ _ _ _ _ Hr) as [_ Hpd].
    pose proof (ring_link_next _ _ _ _ _ Hr) as [Hnd' _].
    assert (ring h l ((A ++ d :: C) ++ b :: E)) as Hr2 by (by rewrite <- app_assoc).
    pose proof (ring_link_prev _ _ _ _ _ Hr2) as [_ Hpb].
    pose proof (ring_link_next _ _ _ _ _ Hr2) as [Hnb _].
    rewrite lastd_app_cons in Hpb. rewrite hd_app_default in Hnd'.
    exists h'. split; [|split; [|split; [done|split; [|done]]]].
    + rewrite Hsw. do 2 f_equal. apply bool_decide_ext. rewrite Hnb, Hnd'. split.
      * intros ->. by right.
      * intros [[= H]|[= H]].
        -- exfalso. apply (NoDup_hd_neq l (A ++ d :: C ++ [b]) E d); [| |exact H].
           ++ by rewrite <- !app_assoc; simpl; rewrite <- !app_assoc.
           ++ clear. set_solver.
        -- destruct C as [|c C']; [done|]. simpl in H. subst c. exfalso.
           apply NoDup_cons in Hnd as [_ Hnd]. apply NoDup_app in Hnd as (_ & _ & Hnd).
           apply NoDup_cons in Hnd as [_ Hnd]. apply NoDup_cons in Hnd as [Hd' _].
           apply Hd'. clear. set_solver.
    + erewrite list_fmap_ext; [rewrite (transp_fmap_swap d b)|]; [done| |].
      * by apply NoDup_cons in Hnd as [_ ?].
      * intros i x _. apply transp_comm.
    + intros x Hx. apply Hso. rewrite Hpb, Hnb, Hpd, Hnd' in Hx.
      intros Hin. apply Hx. clear -Hin.
      generalize dependent (lastd l A). generalize dependent (hd l E).
      generalize dependent (hd d C). generalize dependent (lastd b C).
      generalize dependent (hd b C). generalize dependent (lastd d C).
      intros. set_solver.
Qed.

End SwapClaim.

Section Fuel.
Context {T : Type}.
Variable cmp : T → T → Z.
Implicit Types (h : gmap nat (@Element T)) (n k : nat) (p q : option nat).

Lemma bindR_Done {A B} (m : result A) (k : A → result B) (r : B) :
  bindR m k = Done r → ∃ a, m = Done a ∧ k a = Done r.
Proof. destruct m as [a|f]; simpl; [eauto|done]. Qed.

(** More fuel never changes a result. *)
Lemma scan_right_mono n k h p q piv r :
  scan_right cmp n h p q piv = Done r → (n ≤ k)%nat →
  scan_right cmp k h p q piv = Done r.
Proof.
  revert k q. induction n as [|n IH]; intros k q Hs Hk; [done|].
  destruct k as [|k]; [lia|]. simpl in *.
  case_decide; [|done].
  apply bindR_Done in Hs as (v & -> & Hs). cbn [bindR].
  case_decide; [|done].
  apply bindR_Done in Hs as (q' & -> & Hs). cbn [bindR].
  apply IH; [done|lia].
Qed.

Lemma scan_left_mono n k h p q piv r :
  scan_left cmp n h p q piv = Done r → (n ≤ k)%nat →
  scan_left cmp k h p q piv = Done r.
Proof.
  revert k p. induction n as [|n IH]; intros k p Hs Hk; [done|].
  destruct k as [|k]; [lia|]. simpl in *.
  case_decide; [|done].
  apply bindR_Done in Hs as (v & -> & Hs). cbn [bindR].
  case_decide; [|done].
  apply bindR_Done in Hs as (p' & -> & Hs). cbn [bindR].
  apply IH; [done|lia].
Qed.

Lemma partition_loop_mono n k h p q piv r :
  partition_loop cmp n h p q piv = Done r → (n ≤ k)%nat →
  partition_loop cmp k h p q piv = Done r.
Proof.
  revert k h p q. induction n as [|n IH]; intros k h p q Hs Hk; [done|].
  destruct k as [|k]; [lia|]. cbn [partition_loop] in *.
  apply bindR_Done in Hs as (q' & Hq & Hs).
  rewrite (scan_right_mono _ _ _ _ _ _ _ Hq Hk). cbn [bindR].
  apply bindR_Done in Hs as (p' & Hp & Hs).
  rewrite (scan_left_mono _ _ _ _ _ _ _ Hp Hk). cbn [bindR].
  case_decide; [done|].
  apply bindR_Done in Hs as ([h1 [|]] & -> & Hs); cbn [bindR]; [done|].
  apply IH; [done|lia].
Qed.

Lemma qsort_mono n k h lst p q r :
  _qsort cmp n h lst p q = Done r → (n ≤ k)%nat →
  _qsort cmp k h lst p q = Done r.
Proof.
  revert k h p q r. induction n as [|n IH]; intros k h p q r Hs Hk; [done|].
  destruct k as [|k]; [lia|]. cbn [_qsort] in *.
  case_decide; [done|].
  apply bindR_Done in Hs as (lb & -> & Hs). cbn [bindR].
  apply bindR_Done in Hs as (rb & -> & Hs). cbn [bindR].
  apply bindR_Done in Hs as (v & -> & Hs). cbn [bindR].
  apply bindR_Done in Hs as ([[h1 p1] q1] & Hp & Hs).
  rewrite (partition_loop_mono _ _ _ _ _ _ _ Hp Hk). cbn [bindR].
  apply bindR_Done in Hs as ([h2 fp] & -> & Hs). cbn [bindR].
  apply bindR_Done in Hs as (first & -> & Hs). cbn [bindR].
  apply bindR_Done in Hs as (h3 & Hl & Hs).
  match goal with |- bindR ?m _ = _ => assert (m = Done h3) as -> end.
  { cbn [bindR] in Hl. case_decide; [|done].
    apply bindR_Done in Hl as (l0 & -> & Hl). cbn [bindR].
    apply (IH k) in Hl; [done|lia]. }
  cbn [bindR].
  apply bindR_Done in Hs as (last & Hlast & Hs). rewrite Hlast in *.
  cbn [bindR] in *.
  case_decide; [|done].
  apply bindR_Done in Hs as (f0 & -> & Hs). cbn [bindR].
  apply (IH k) in Hs; [done|lia].
Qed.

End Fuel.

Section EngineClaims.
Context {T : Type}.
Implicit Types (h : gmap nat (@Element T)) (a b c d e x y l w m f q : nat)
  (A B M X Y F Lo Sg Q p ns : list nat) (cmp : T → T → Z).

(** Some [V] names the value of every node of a ring. *)
Lemma ring_values h l ns :
  ring h l ns → ∃ V : nat → T, node_values h V ns.
Proof.
  intros Hr. destruct (ring_alloc h l ns l Hr) as [e He]; [left|].
  exists (λ x, default (Value e) (value_of h x)).
  intros x Hx. destruct (ring_alloc h l ns x Hr) as [ex Hex]; [by right|].
  unfold value_of. by rewrite Hex.
Qed.

(** C4: [_qsort] on a well-formed range returns, for any comparator: fuel
    one above the length of the range is enough at every level of the
    recursion (each recursive call works on a strictly shorter range), the
    outcome does not depend on the fuel in excess, and the range is only
    permuted. *)
Theorem qsort_terminates cmp lst h l A x Sg B :
  ring h l (A ++ x :: Sg ++ B) → owned h l (A ++ x :: Sg ++ B) →
  ∃ h' Seg,
    (∀ n, (length Sg + 2 ≤ n)%nat →
          _qsort cmp n h lst (Some x) (Some (lastd x Sg)) = Done h') ∧
    ring h' l (A ++ Seg ++ B) ∧ Seg ≡ₚ x :: Sg.
Proof.
  intros Hr Ho. destruct (ring_values _ _ _ Hr) as [V Hv].
  destruct (qsort_spec cmp V (length Sg + 2) lst h l A x Sg B
              (l :: A ++ x :: Sg ++ B) Hr Ho)
    as (h' & Seg & Hq & Hr' & Hperm & _); [|done|lia|].
  { intros y Hy. apply Hv. clear -Hy. set_solver. }
  exists h', Seg. split; [|done].
  intros n Hn. by eapply qsort_mono.
Qed.

(** C10: the partition loop on a well-formed window is memory-safe, for any
    comparator: the first backward scan returns a node of the window, the
    forward scan after it returns a node of the window at or before it, and
    the whole loop returns with both cursors on nodes of the window; no
    step dereferences nil, and the sentinel is not in the window. *)
Theorem partition_loop_safe cmp (V : nat → T) piv n h l A w M B :
  ring h l (A ++ w :: M ++ B) → owned h l (A ++ w :: M ++ B) →
  node_values h V (w :: M) → (length M + 2 ≤ n)%nat →
  ∃ r1 l1 X1 M1 Y1 h' m r,
    scan_right cmp n h (Some w) (Some (lastd w M)) piv = Done (Some r1) ∧
    scan_left cmp n h (Some w) (Some r1) piv = Done (Some l1) ∧
    w :: M = X1 ++ l1 :: M1 ++ Y1 ∧ r1 = lastd l1 M1 ∧
    partition_loop cmp n h (Some w) (Some (lastd w M)) piv = Done (h', Some m, Some r) ∧
    m ∈ w :: M ∧ r ∈ w :: M ∧ l ∉ w :: M.
Proof.
  intros Hr Ho Hv Hn.
  destruct (scan_right_spec cmp V piv n h l A w M B Hr Ho Hv)
    as (M1 & Y1 & HM & Hsr & _ & _); [lia|].
  assert (ring h l (A ++ w :: M1 ++ Y1 ++ B)) as Hr1.
  { rewrite HM in Hr. by rewrite <- app_assoc in Hr. }
  destruct (scan_left_spec cmp V piv n h l A w M1 (Y1 ++ B) Hr1)
    as (X1 & w' & M2 & HM1 & Hsl & _ & _).
  { rewrite HM in Ho. by rewrite <- app_assoc in Ho. }
  { intros y Hy. apply Hv. rewrite HM. clear -Hy. set_solver. }
  { rewrite HM, length_app in Hn. lia. }
  destruct (partition_loop_spec cmp V piv n h l A w M B (l :: A ++ w :: M ++ B) Hr Ho Hv)
    as (h' & X & m & Y & r & Hpl & Hrin & _ & Hperm & _); [done|left; lia|].
  exists (lastd w M1), w', X1, M2, Y1, h', m, r.
  split; [done|]. split; [done|]. split.
  { rewrite HM. change (w :: M1 ++ Y1) with ((w :: M1) ++ Y1). rewrite HM1.
    by rewrite <- app_assoc. }
  split; [by eapply cons_eq_app_lastd|]. split; [done|].
  split; [rewrite <- Hperm; clear; set_solver|]. split; [done|].
  intros Hl. destruct Hr as [Hnd _]. apply NoDup_cons in Hnd as [Hnl _].
  apply Hnl. clear -Hl. set_solver.
Qed.

(** C3: in a call of [_qsort] on a well-formed range of more than one node,
    with a valid comparator, the node [x] that holds the pivot value at
    entry is never moved by the partition loop: when the loop exits
    [LBoundary.next] is still [x]; after the final relink the node read
    back as [leftNext.prev] is [x], and [x] then stands where the cursor
    [left] stood. *)
Theorem pivot_node_fixed cmp (V : nat → T) n h l A x Sg B :
  valid_cmp cmp →
  ring h l (A ++ x :: Sg ++ B) → owned h l (A ++ x :: Sg ++ B) →
  node_values h V (x :: Sg) → Sg ≠ [] → (length Sg + 2 ≤ n)%nat →
  ∃ LBoundary h1 m r leftNext h2 X Y Lo,
    get_prev h (Some x) = Done (Some LBoundary) ∧
    partition_loop cmp n h (Some x) (Some (lastd x Sg)) (V x) = Done (h1, Some m, r) ∧
    get_next h1 (Some LBoundary) = Done (Some x) ∧
    value_of h1 x = Some (V x) ∧
    get_next h1 (Some m) = Done leftNext ∧
    place_pivot h1 (Some LBoundary) (Some m) = Done (h2, Some x) ∧
    get_prev h2 leftNext = Done (Some x) ∧
    ring h1 l (A ++ X ++ m :: Y ++ B) ∧
    ring h2 l (A ++ Lo ++ x :: Y ++ B) ∧ length Lo = length X.
Proof.
  intros Hc Hr Ho Hv HSg Hn.
  pose proof (ring_link_prev _ _ _ _ _ Hr) as [_ Hpx].
  destruct (partition_loop_spec cmp V (V x) n h l A x Sg B (l :: A ++ x :: Sg ++ B) Hr Ho Hv)
    as (h1 & X & m & Y & r & Hpl & _ & Hr1 & Hperm & _ & _ & Hsd & _ & Hle & _);
    [done|left; lia|].
  destruct Hle as [_ Hhd]; [rewrite (valid_cmp_refl cmp _ Hc); lia|].
  destruct (place_pivot_spec h1 l A X m Y B Hr1)
    as (h2 & Lo & Hpp & Hr2 & Hperm2 & _ & _ & _).
  rewrite Hhd in Hpp, Hr2, Hperm2.
  pose proof (ring_link_between _ _ _ _ Hr1) as [Hnl _].
  rewrite (hd_app_default m l X (Y ++ B)), Hhd in Hnl.
  assert (ring h1 l ((A ++ X) ++ m :: Y ++ B)) as Hr1' by (by rewrite <- app_assoc).
  pose proof (ring_link_next _ _ _ _ _ Hr1') as [Hnm _].
  assert (ring h2 l ((A ++ Lo) ++ x :: Y ++ B)) as Hr2' by (by rewrite <- app_assoc).
  pose proof (ring_link_next _ _ _ _ _ Hr2') as [_ Hpn].
  exists (lastd l A), h1, m, (Some r), (Some (hd l (Y ++ B))), h2, X, Y, Lo.
  split; [by exec|]. split; [done|]. split; [by exec|].
  split; [destruct (Hsd x) as [-> _]; apply Hv; left|].
  split; [by exec|]. split; [done|]. split; [by exec|].
  split; [done|]. split; [done|].
  apply Permutation_length in Hperm2. rewrite length_app in Hperm2.
  simpl in Hperm2. lia.
Qed.

End EngineClaims.

Section RingEdit.
Context {T : Type}.
Implicit Types (h : gmap nat (@Element T)) (a b c d e x y l : nat) (A B p q ns : list nat).

Lemma linked_ext h h' p :
  (∀ x, x ∈ p → nx h' x = nx h x ∧ pv h' x = pv h x) → linked h p → linked h' p.
Proof.
  induction p as [|x [|y p] IH]; simpl; try done.
  intros Hext [[Hn Hp] Hl]. split.
  - split.
    + destruct (Hext x) as [-> _]; [left|done].
    + destruct (Hext y) as [_ ->]; [right; left|done].
  - apply IH; [|done]. intros z Hz. apply Hext. by right.
Qed.

Lemma ring_ext h h' l ns :
  (∀ x, x ∈ l :: ns → nx h' x = nx h x ∧ pv h' x = pv h x) → ring h l ns → ring h' l ns.
Proof.
  intros Hext [Hnd Hl]. split; [done|].
  apply (linked_ext h); [|done].
  intros x Hx. apply Hext.
  rewrite app_comm_cons in Hx. apply elem_of_app in Hx as [Hx|Hx]; [done|].
  apply list_elem_of_singleton in Hx as ->. left.
Qed.

Lemma root_path_split l A B :
  ∃ p q, l :: A = p ++ [lastd l A] ∧ B ++ [l] = hd l B :: q.
Proof.
  destruct (lastd_split l A) as [p Hp]. exists p.
  destruct B as [|b B]; simpl; eauto.
Qed.

(** Linking [e] between [lastd l A] and its successor. *)
Lemma ring_link_in h h' l A e B :
  ring h l (A ++ B) → e ∉ l :: A ++ B →
  (∀ x, nx h' x = if decide (x = e) then Some (hd l B)
                  else if decide (x = lastd l A) then Some e else nx h x) →
  (∀ x, pv h' x = if decide (x = hd l B) then Some e
                  else if decide (x = e) then Some (lastd l A) else pv h x) →
  ring h' l (A ++ e :: B).
Proof.
  intros [Hnd Hl] He Hnx Hpv.
  assert (NoDup (l :: A ++ e :: B)) as Hnd'.
  { apply NoDup_cons in Hnd as [Hl0 Hnd]. apply NoDup_app in Hnd as (HA & HAB & HB).
    apply NoDup_cons. split.
    - intros Hin. apply Hl0. apply elem_of_app in Hin as [?|Hin]; [set_solver|].
      apply elem_of_cons in Hin as [->|?]; [|set_solver]. exfalso. apply He. left.
    - apply NoDup_app. split; [done|]. split.
      + intros x Hx Hin. apply elem_of_cons in Hin as [->|?]; [|by eapply HAB].
        apply He. right. set_solver.
      + apply NoDup_cons. split; [|done]. intros Hin. apply He. right. set_solver. }
  split; [done|].
  destruct (root_path_split l A B) as (p & q & Hp & Hq).
  assert (lastd l A ≠ e) as Hate.
  { intros E. apply He. rewrite <- E. pose proof (lastd_elem l A). set_solver. }
  assert (hd l B ≠ e) as Hane.
  { intros E. apply He. rewrite <- E. pose proof (hd_elem l B). set_solver. }
  assert (linked h' (l :: A)) as H1.
  { apply (linked_frame h).
    - change (l :: A ++ B ++ [l]) with ((l :: A) ++ B ++ [l]) in Hl.
      rewrite <- app_assoc in Hl.
      change (l :: A ++ B ++ [l]) with ((l :: A) ++ B ++ [l]) in Hl.
      by apply linked_app_l in Hl.
    - apply NoDup_cons in Hnd as [Hl0 Hnd]. apply NoDup_app in Hnd as (HA & _ & _).
      apply NoDup_cons. split; [set_solver|done].
    - intros x Hx Hne. rewrite Hnx, decide_False, decide_False; [done|done|].
      intros ->. apply He. set_solver.
    - intros y Hy. rewrite Hpv, decide_False, decide_False; [done| |].
      + intros ->. apply He. set_solver.
      + intros E. symmetry in E. revert E. by eapply NoDup_hd_neq. }
  assert (linked h' (B ++ [l])) as H2.
  { rewrite Hq. apply (linked_frame h).
    - rewrite <- Hq. rewrite <- app_assoc in Hl.
      change (l :: A ++ B ++ [l]) with ((l :: A) ++ B ++ [l]) in Hl.
      by apply linked_app_r in Hl.
    - rewrite <- Hq. apply NoDup_cons in Hnd as [Hl0 Hnd].
      apply NoDup_app in Hnd as (_ & _ & HB).
      apply NoDup_app. split; [done|]. split; [|apply NoDup_singleton].
      intros x Hx Hin. apply list_elem_of_singleton in Hin as ->. apply Hl0. set_solver.
    - intros x Hx Hne. rewrite <- Hq in Hx.
      assert (x ∈ B) as HxB.
      { apply elem_of_app in Hx as [?|Hx]; [done|].
        apply list_elem_of_singleton in Hx as ->. exfalso. apply Hne.
        assert (lastd (hd l B) q = lastd l (B ++ [l])) as ->; [|by rewrite lastd_snoc].
        destruct B; simpl in *; [by inversion Hq|]. inversion Hq. by subst. }
      rewrite Hnx, decide_False, decide_False; [done| |].
      + intros E. symmetry in E. revert E. exact (NoDup_lastd_neq l A B x Hnd HxB).
      + intros ->. apply He. set_solver.
    - intros y Hy.
      assert (NoDup (hd l B :: q)) as Hndq.
      { rewrite <- Hq. apply NoDup_cons in Hnd as [Hl0 Hnd].
        apply NoDup_app in Hnd as (_ & _ & HB).
        apply NoDup_app. split; [done|]. split; [|apply NoDup_singleton].
        intros x Hx Hin. apply list_elem_of_singleton in Hin as ->. apply Hl0. set_solver. }
      apply NoDup_cons in Hndq as [Hnq _].
      rewrite Hpv, decide_False, decide_False; [done| |].
      + intros ->. apply He. assert (e ∈ B ++ [l]) as Hin; [rewrite Hq; by right|].
        set_solver.
      + by intros ->. }
  assert (l :: (A ++ e :: B) ++ [l] = p ++ lastd l A :: e :: hd l B :: q) as ->.
  { rewrite <- app_assoc. simpl. rewrite Hq.
    change (l :: A ++ e :: hd l B :: q) with ((l :: A) ++ e :: hd l B :: q).
    rewrite Hp, <- app_assoc. done. }
  change (p ++ lastd l A :: e :: hd l B :: q) with (p ++ [lastd l A] ++ e :: hd l B :: q).
  rewrite app_assoc.
  rewrite Hq in H2. rewrite Hp in H1.
  replace ((p ++ [lastd l A]) ++ e :: hd l B :: q)
    with (((p ++ [lastd l A]) ++ [e]) ++ hd l B :: q) by by rewrite <- app_assoc.
  assert (linked h' ((p ++ [lastd l A]) ++ [e])) as H3.
  { rewrite <- app_assoc. apply linked_join; [done| |done].
    split.
    - rewrite Hnx, decide_False, decide_True; done.
    - rewrite Hpv, decide_False, decide_True; done. }
  rewrite <- (app_assoc _ [e]). apply linked_join; [done| |done].
  split.
  - rewrite Hnx, decide_True; done.
  - rewrite Hpv, decide_True; done.
Qed.

(** Unlinking [e]: its neighbours are linked to each other. *)
Lemma ring_link_out h h' l A e B :
  ring h l (A ++ e :: B) →
  (∀ x, x ≠ e → nx h' x = if decide (x = lastd l A) then Some (hd l B) else nx h x) →
  (∀ x, x ≠ e → pv h' x = if decide (x = hd l B) then Some (lastd l A) else pv h x) →
  ring h' l (A ++ B).
Proof.
  intros [Hnd Hl] Hnx Hpv.
  assert (NoDup (l :: A ++ B) ∧ e ∉ l :: A ++ B) as [Hnd' He].
  { apply NoDup_cons in Hnd as [Hl0 Hnd]. apply NoDup_app in Hnd as (HA & HAB & HB).
    apply NoDup_cons in HB as [HeB HB]. split.
    - apply NoDup_cons. split; [set_solver|]. apply NoDup_app. set_solver.
    - intros Hin. apply elem_of_cons in Hin as [->|Hin]; [set_solver|].
      apply elem_of_app in Hin as [Hin|Hin]; [|done]. eapply HAB; [done|left]. }
  split; [done|].
  destruct (root_path_split l A B) as (p & q & Hp & Hq).
  assert (lastd l A ≠ e) as Hate.
  { intros E. apply He. rewrite <- E. pose proof (lastd_elem l A). set_solver. }
  assert (hd l B ≠ e) as Hane.
  { intros E. apply He. rewrite <- E. pose proof (hd_elem l B). set_solver. }
  assert (linked h' (l :: A)) as H1.
  { apply (linked_frame h).
    - rewrite <- app_assoc in Hl.
      change (l :: A ++ (e :: B) ++ [l]) with ((l :: A) ++ (e :: B) ++ [l]) in Hl.
      by apply linked_app_l in Hl.
    - apply NoDup_cons in Hnd' as [Hl0 Hnd']. apply NoDup_app in Hnd' as (HA & _ & _).
      apply NoDup_cons. split; [set_solver|done].
    - intros x Hx Hne. rewrite Hnx, decide_False; [done|done|].
      intros ->. apply He. set_solver.
    - intros y Hy. rewrite Hpv, decide_False; [done| |].
      + intros E. symmetry in E. revert E. by eapply NoDup_hd_neq.
      + intros ->. apply He. set_solver. }
  assert (NoDup (hd l B :: q)) as Hndq.
  { rewrite <- Hq. apply NoDup_cons in Hnd' as [Hl0 Hnd'].
    apply NoDup_app in Hnd' as (_ & _ & HB).
    apply NoDup_app. split; [done|]. split; [|apply NoDup_singleton].
    intros x Hx Hin. apply list_elem_of_singleton in Hin as ->. apply Hl0. set_solver. }
  assert (linked h' (B ++ [l])) as H2.
  { rewrite Hq. apply (linked_frame h).
    - rewrite <- Hq. rewrite <- app_assoc in Hl.
      assert (l :: A ++ (e :: B) ++ [l] = (l :: A ++ [e]) ++ B ++ [l]) as E.
      { simpl. by rewrite <- app_assoc. }
      rewrite E in Hl. by apply linked_app_r in Hl.
    - done.
    - intros x Hx Hne. rewrite <- Hq in Hx.
      assert (x ∈ B) as HxB.
      { apply elem_of_app in Hx as [?|Hx]; [done|].
        apply list_elem_of_singleton in Hx as ->. exfalso. apply Hne.
        assert (lastd (hd l B) q = lastd l (B ++ [l])) as ->; [|by rewrite lastd_snoc].
        destruct B; simpl in *; [by inversion Hq|]. inversion Hq. by subst. }
      rewrite Hnx, decide_False; [done| |].
      + intros E. symmetry in E. revert E. exact (NoDup_lastd_neq l A B x Hnd' HxB).
      + intros ->. apply He. set_solver.
    - intros y Hy. apply NoDup_cons in Hndq as [Hnq _].
      rewrite Hpv, decide_False; [done| |].
      + by intros ->.
      + intros ->. apply He. assert (e ∈ B ++ [l]) as Hin; [rewrite Hq; by right|].
        set_solver. }
  assert (l :: (A ++ B) ++ [l] = p ++ lastd l A :: hd l B :: q) as ->.
  { rewrite <- app_assoc. rewrite Hq.
    change (l :: A ++ hd l B :: q) with ((l :: A) ++ hd l B :: q).
    rewrite Hp, <- app_assoc. done. }
  rewrite Hq in H2. rewrite Hp in H1.
  apply linked_join; [done| |done].
  split.
  - rewrite Hnx, decide_True; done.
  - rewrite Hpv, decide_True; done.
Qed.

End RingEdit.

Section EditExec.
Context {T : Type}.
Implicit Types (s : @State T) (h : gmap nat (@Element T)) (a b c d e x y l : nat).

Lemma insert_exec s l e a b n :
  nx (elems s) a = Some b → is_Some (elems s !! b) → is_Some (elems s !! e) →
  e ≠ a → e ≠ b → lens s !! l = Some n →
  ∃ h', insert s (Some l) (Some e) (Some a)
          = Done (mkState h' (<[l := wrap_int (n + 1)]> (lens s)) (brk s), Some e) ∧
    (∀ x, nx h' x = if decide (x = e) then Some b
                    else if decide (x = a) then Some e else nx (elems s) x) ∧
    (∀ x, pv h' x = if decide (x = b) then Some e
                    else if decide (x = e) then Some a else pv (elems s) x) ∧
    (∀ x, owner h' x = if decide (x = e) then Some l else owner (elems s) x) ∧
    (∀ x, value_of h' x = value_of (elems s) x) ∧
    same_outside [e; a; b] (elems s) h'.
Proof.
  intros Hna Hb He ? ? Hlen.
  unfold insert. exec. unfold get_len, set_len, with_elems. cbn [lens elems brk].
  rewrite Hlen. cbn [bindR]. eexists. split; [reflexivity|].
  split; [|split; [|split; [|split]]]; intros x.
  - heap_simpl. repeat case_decide; congruence.
  - heap_simpl. repeat case_decide; congruence.
  - heap_simpl. repeat case_decide; congruence.
  - by heap_simpl.
  - frame_tac.
Qed.

Lemma remove_exec s l e a b n :
  pv (elems s) e = Some a → nx (elems s) e = Some b →
  is_Some (elems s !! a) → is_Some (elems s !! b) →
  e ≠ a → e ≠ b → lens s !! l = Some n →
  ∃ h', remove s (Some l) (Some e)
          = Done (mkState h' (<[l := wrap_int (n - 1)]> (lens s)) (brk s)) ∧
    (∀ x, nx h' x = if decide (x = e) then None
                    else if decide (x = a) then Some b else nx (elems s) x) ∧
    (∀ x, pv h' x = if decide (x = e) then None
                    else if decide (x = b) then Some a else pv (elems s) x) ∧
    (∀ x, owner h' x = if decide (x = e) then None else owner (elems s) x) ∧
    (∀ x, value_of h' x = value_of (elems s) x) ∧
    same_outside [e; a; b] (elems s) h'.
Proof.
  intros Hpe Hne Ha Hb ? ? Hlen.
  unfold remove. exec. unfold get_len, set_len, with_elems. cbn [lens elems brk].
  rewrite Hlen. cbn [bindR]. eexists. split; [reflexivity|].
  split; [|split; [|split; [|split]]]; intros x.
  - heap_simpl. repeat case_decide; congruence.
  - heap_simpl. repeat case_decide; congruence.
  - heap_simpl. repeat case_decide; congruence.
  - by heap_simpl.
  - frame_tac.
Qed.

(** [move] unlinks [e] (giving [h1]) and links it again after [at]. *)
Lemma move_exec h e c a b :
  e ≠ c → pv h e = Some a → nx h e = Some b →
  is_Some (h !! a) → is_Some (h !! b) → is_Some (h !! c) → e ≠ a → e ≠ b →
  ∃ h1,
    (∀ x, nx h1 x = if decide (x = a) then Some b else nx h x) ∧
    (∀ x, pv h1 x = if decide (x = b) then Some a else pv h x) ∧
    ∀ d, nx h1 c = Some d → d ≠ e → is_Some (h !! d) →
      ∃ h', move h (Some e) (Some c) = Done h' ∧
        (∀ x, nx h' x = if decide (x = e) then Some d
                        else if decide (x = c) then Some e else nx h1 x) ∧
        (∀ x, pv h' x = if decide (x = d) then Some e
                        else if decide (x = e) then Some c else pv h1 x) ∧
        same_data h h' ∧ same_outside [e; a; b; c; d] h h'.
Proof.
  intros Hec Hpe Hne Ha Hb Hc ? ?.
  exists (alter (with_prev (Some a)) b (alter (with_next (Some b)) a h)).
  split; [|split].
  - intros x. by heap_simpl.
  - intros x. by heap_simpl.
  - intros d Hd Hde Hda. revert Hd. heap_simpl. intros Hd.
    unfold move. rewrite decide_False by congruence.
    destruct (decide (c = a)) as [->|Hca].
    + assert (b = d) as -> by congruence.
      exec. eexists. split; [reflexivity|].
      split; [|split; [|split]]; try intros x.
      * heap_simpl. repeat case_decide; congruence.
      * heap_simpl. repeat case_decide; congruence.
      * split; intros; by heap_simpl.
      * frame_tac.
    + exec. eexists. split; [reflexivity|].
      split; [|split; [|split]]; try intros x.
      * heap_simpl. repeat case_decide; congruence.
      * heap_simpl. repeat case_decide; congruence.
      * split; intros; by heap_simpl.
      * frame_tac.
Qed.

End EditExec.

Section RepEdit.
Context {T : Type}.
Implicit Types (s : @State T) (h : gmap nat (@Element T)) (a b c d e x y l : nat)
  (A B ns : list nat).

Lemma wrap_int_id z : - 2 ^ 63 ≤ z < 2 ^ 63 → wrap_int z = z.
Proof. intros Hz. unfold wrap_int. rewrite Z.mod_small; lia. Qed.

Lemma NoDup_bounded_length (L : list nat) (b : nat) :
  NoDup L → (∀ x, x ∈ L → (x < b)%nat) → (length L ≤ b)%nat.
Proof.
  intros Hnd Hb. transitivity (length (seq 0 b)); [|by rewrite length_seq].
  apply submseteq_length, NoDup_submseteq; [done|].
  intros x Hx. apply elem_of_seq. specialize (Hb x Hx). lia.
Qed.

Lemma value_of_is_Some h x : is_Some (value_of h x) ↔ is_Some (h !! x).
Proof. unfold value_of. apply fmap_is_Some. Qed.

Lemma nx_lookup h h' x : h' !! x = h !! x → nx h' x = nx h x.
Proof. unfold nx. by intros ->. Qed.
Lemma pv_lookup h h' x : h' !! x = h !! x → pv h' x = pv h x.
Proof. unfold pv. by intros ->. Qed.
Lemma owner_lookup h h' x : h' !! x = h !! x → owner h' x = owner h x.
Proof. unfold owner. by intros ->. Qed.
Lemma value_of_lookup h h' x : h' !! x = h !! x → value_of h' x = value_of h x.
Proof. unfold value_of. by intros ->. Qed.

Lemma list_rep_NoDup s l ns : list_rep s l ns → NoDup (l :: ns).
Proof.
  intros Hrep. destruct (rep_ring _ _ _ Hrep) as [Hr|[-> _]].
  - by eapply ring_NoDup.
  - apply NoDup_singleton.
Qed.

Lemma list_rep_alloc_all s l ns x : list_rep s l ns → x ∈ l :: ns → is_Some (elems s !! x).
Proof.
  intros Hrep Hx. apply elem_of_cons in Hx as [->|Hx].
  - apply (rep_root _ _ _ Hrep).
  - by eapply list_rep_alloc.
Qed.

Lemma list_rep_bound s l ns :
  (∀ a, is_Some (elems s !! a) → (a < brk s)%nat) → list_rep s l ns →
  (length ns < brk s)%nat.
Proof.
  intros Hal Hrep.
  assert (length (l :: ns) ≤ brk s)%nat as Hlen; [|simpl in Hlen; lia].
  apply NoDup_bounded_length; [by eapply list_rep_NoDup|].
  intros x Hx. eapply Hal, list_rep_alloc_all; done.
Qed.

(** The lists of a memory do not share nodes. *)
Lemma list_rep_disjoint s l ns l' ns' x :
  list_rep s l ns → list_rep s l' ns' → l ≠ l' → x ∈ l :: ns → x ∉ l' :: ns'.
Proof.
  intros Hrep Hrep' Hne Hx Hx'.
  assert (owner (elems s) x = None ∧ x = l ∨ owner (elems s) x = Some l) as Ho.
  { apply elem_of_cons in Hx as [->|Hx].
    - left. split; [apply (rep_root _ _ _ Hrep)|done].
    - right. by apply (rep_owned _ _ _ Hrep). }
  assert (owner (elems s) x = None ∧ x = l' ∨ owner (elems s) x = Some l') as Ho'.
  { apply elem_of_cons in Hx' as [->|Hx'].
    - left. split; [apply (rep_root _ _ _ Hrep')|done].
    - right. by apply (rep_owned _ _ _ Hrep'). }
  destruct Ho as [[Ho ->]|Ho], Ho' as [[Ho' ?]|Ho']; congruence.
Qed.

(** A list only depends on its own nodes, on the ownership marks and on its
    own [len]. *)
Lemma list_rep_frame s s' l ns :
  list_rep s l ns →
  (∀ x, x ∈ l :: ns → elems s' !! x = elems s !! x) →
  (∀ x, owner (elems s') x = Some l ↔ owner (elems s) x = Some l) →
  lens s' !! l = lens s !! l →
  list_rep s' l ns.
Proof.
  intros Hrep Hsame Hown Hlen. split.
  - assert (elems s' !! l = elems s !! l) as E by (apply Hsame; left).
    rewrite (owner_lookup (elems s)), E by done. apply (rep_root _ _ _ Hrep).
  - destruct (rep_ring _ _ _ Hrep) as [Hr|[-> Hz]].
    + left. apply (ring_ext (elems s)); [|done].
      intros x Hx. split; [apply nx_lookup|apply pv_lookup]; by apply Hsame.
    + right. split; [done|]. rewrite (nx_lookup (elems s)); [done|]. apply Hsame. left.
  - intros x. rewrite Hown. apply (rep_owned _ _ _ Hrep).
  - rewrite Hlen. apply (rep_len _ _ _ Hrep).
Qed.

(** Frame for an update of the list [l]: the other lists are not touched. *)
Lemma list_rep_frame_other s s' l ns l' ns' F :
  list_rep s l ns → l' ≠ l → list_rep s l' ns' →
  same_outside F (elems s) (elems s') →
  (∀ x, x ∈ F → x ∈ l :: ns ∨ elems s !! x = None) →
  (∀ x, owner (elems s') x = Some l' ↔ owner (elems s) x = Some l') →
  lens s' !! l' = lens s !! l' →
  list_rep s' l' ns'.
Proof.
  intros Hrep Hne Hrep' Hout HF Hown Hlen.
  apply (list_rep_frame s); [done| |done|done].
  intros x Hx. apply Hout. intros HxF.
  destruct (HF x HxF) as [Hin|Hnone].
  - exact (list_rep_disjoint s l ns l' ns' x Hrep Hrep' (not_eq_sym Hne) Hin Hx).
  - pose proof (list_rep_alloc_all _ _ _ _ Hrep' Hx) as [? Hsome]. congruence.
Qed.

End RepEdit.

Section StateEdit.
Context {T : Type}.
Variable mem_limit : nat.
Hypothesis Hlimit : Z.of_nat mem_limit < 2 ^ 63.
Implicit Types (s : @State T) (h : gmap nat (@Element T)) (a b c d e x y l : nat)
  (A B ns : list nat).

Lemma list_rep_is_list s l ns : list_rep s l ns → is_list s l.
Proof. intros Hrep. unfold is_list. by rewrite (rep_len _ _ _ Hrep). Qed.

Lemma list_rep_small s l ns :
  inv mem_limit s → list_rep s l ns → Z.of_nat (length ns) + 1 < 2 ^ 63.
Proof.
  intros Hinv Hrep.
  pose proof (list_rep_bound s l ns (inv_alloc _ _ Hinv) Hrep).
  pose proof (inv_limit _ _ Hinv). lia.
Qed.

(** Rebuilding the invariant after an update of the list [l]. *)
Lemma inv_step s s' l ns' :
  inv mem_limit s → list_rep s' l ns' →
  (∀ l0 ns0, l0 ≠ l → list_rep s l0 ns0 → list_rep s' l0 ns0) →
  (∀ x, is_Some (lens s' !! x) → x = l ∨ is_Some (lens s !! x)) →
  (∀ x, is_Some (elems s' !! x) → (x < brk s')%nat) →
  (brk s ≤ brk s')%nat → (brk s' ≤ mem_limit)%nat →
  (∀ x l0, owner (elems s') x = Some l0 → l0 = l ∨ owner (elems s) x = Some l0) →
  (∀ x, is_Some (lens s !! x) → is_Some (lens s' !! x)) →
  inv mem_limit s'.
Proof.
  intros Hinv Hrep Hframe Hlens Hal Hb1 Hb2 Hown Hlens2. split; [|done| | |done].
  - intros l0 Hl0. destruct (decide (l0 = l)) as [->|Hne]; [eauto|].
    destruct (Hlens l0 Hl0) as [?|Hl]; [done|].
    destruct (inv_lists _ _ Hinv l0 Hl) as [ns0 Hns0]. eauto.
  - intros a Ha. destruct (decide (a = l)) as [->|Hne].
    + apply Hal, (rep_root _ _ _ Hrep).
    + destruct (Hlens a Ha) as [?|Hl]; [done|].
      pose proof (inv_lens _ _ Hinv a Hl). lia.
  - intros x l0 Ho. destruct (Hown x l0 Ho) as [->|Ho'].
    + by eapply list_rep_is_list.
    + apply Hlens2. by apply (inv_owner _ _ Hinv x).
Qed.

Lemma insertValue_oom s p v q :
  ¬ (brk s < mem_limit)%nat → insertValue mem_limit s p v q = Fault OutOfMemory.
Proof.
  intros Hb. unfold insertValue, new_Element. by rewrite decide_False.
Qed.

(** [insertValue] links a fresh element after the node [lastd l A]. *)
Lemma insertValue_rep s l A B v :
  inv mem_limit s → list_rep s l (A ++ B) → ring (elems s) l (A ++ B) →
  (brk s < mem_limit)%nat →
  ∃ s', insertValue mem_limit s (Some l) v (Some (lastd l A)) = Done (s', Some (brk s)) ∧
    inv mem_limit s' ∧
    list_rep s' l (A ++ brk s :: B) ∧
    (∀ l' ns', l' ≠ l → list_rep s l' ns' → list_rep s' l' ns') ∧
    (∀ x, is_Some (lens s' !! x) ↔ is_Some (lens s !! x)) ∧
    value_of (elems s') (brk s) = Some v ∧
    (∀ x, x ≠ brk s → value_of (elems s') x = value_of (elems s) x) ∧
    (∀ x, x ∉ [brk s; lastd l A; hd l B] → elems s' !! x = elems s !! x) ∧
    brk s' = S (brk s).
Proof.
  intros Hinv Hrep Hr Hb.
  pose proof (inv_alloc _ _ Hinv) as Hal.
  set (e := brk s).
  assert (elems s !! e = None) as Hfresh.
  { destruct (elems s !! e) eqn:E; [|done].
    assert (e < brk s)%nat by (apply Hal; eauto). unfold e in *. lia. }
  assert (e ∉ l :: A ++ B) as Hein.
  { intros Hin. destruct (list_rep_alloc_all _ _ _ _ Hrep Hin) as [? ?]. congruence. }
  unfold insertValue, new_Element. rewrite decide_True by done. cbn [bindR]. fold e.
  set (s0 := mkState (<[e:=mkElement None None None v]> (elems s)) (lens s) (S e)).
  assert (∀ x, x ≠ e → elems s0 !! x = elems s !! x) as Hs0.
  { intros x Hx. simpl. by rewrite lookup_insert_ne. }
  assert (∀ x, owner (elems s0) x = owner (elems s) x) as Hown0.
  { intros x. destruct (decide (x = e)) as [->|Hx].
    - unfold owner. simpl. by rewrite lookup_insert_eq, Hfresh.
    - by apply owner_lookup, Hs0. }
  assert (∀ l' ns', list_rep s l' ns' → list_rep s0 l' ns') as Hframe0.
  { intros l' ns' Hrep'. apply (list_rep_frame s); [done| | |done].
    - intros x Hx. apply Hs0. intros ->.
      destruct (list_rep_alloc_all _ _ _ _ Hrep' Hx) as [? ?]. congruence.
    - intros x. by rewrite Hown0. }
  pose proof (Hframe0 _ _ Hrep) as Hrep0.
  assert (ring (elems s0) l (A ++ B)) as Hr0.
  { destruct (rep_ring _ _ _ Hrep0) as [?|[Hnil Hz]]; [done|].
    apply ring_nx_root in Hr. rewrite (nx_lookup (elems s)) in Hz; [congruence|].
    apply Hs0. intros ->. apply Hein. left. }
  pose proof (ring_link_between _ _ _ _ Hr0) as [Hna Hpb].
  assert (lastd l A ∈ l :: A ++ B) as Hata.
  { pose proof (lastd_elem l A). set_solver. }
  assert (hd l B ∈ l :: A ++ B) as Hanb.
  { pose proof (hd_elem l B). set_solver. }
  destruct (insert_exec s0 l e (lastd l A) (hd l B) (Z.of_nat (length (A ++ B))))
    as (h' & Hins & Hnx & Hpv & Hown & Hval & Hout).
  { done. }
  { by eapply ring_alloc. }
  { simpl. by rewrite lookup_insert_eq. }
  { intros E. apply Hein. by rewrite E. }
  { intros E. apply Hein. by rewrite E. }
  { apply (rep_len _ _ _ Hrep). }
  rewrite Hins. cbn [lens brk] in *.
  set (s' := mkState h' _ _).
  assert (∀ x, is_Some (elems s' !! x) ↔ is_Some (elems s0 !! x)) as Hal'.
  { intros x. rewrite <- !value_of_is_Some. simpl. by rewrite Hval. }
  assert (list_rep s' l (A ++ e :: B)) as Hrep'.
  { split.
    - split; [apply Hal', (rep_root _ _ _ Hrep0)|]. simpl.
      rewrite Hown, decide_False; [apply (rep_root _ _ _ Hrep0)|].
      intros ->. apply Hein. left.
    - left. simpl. by apply (ring_link_in (elems s0)).
    - intros x. simpl. rewrite Hown. case_decide as Hx.
      + subst x. split; [done|]. intros _. set_solver.
      + rewrite <- (rep_owned _ _ _ Hrep0). set_solver.
    - simpl. rewrite lookup_insert_eq. f_equal.
      pose proof (list_rep_small _ _ _ Hinv Hrep).
      rewrite wrap_int_id by lia. rewrite !length_app. simpl. lia. }
  assert (∀ l' ns', l' ≠ l → list_rep s l' ns' → list_rep s' l' ns') as Hframe.
  { intros l' ns' Hne Hrep1.
    apply (list_rep_frame_other s s' l (A ++ B) l' ns' [e; lastd l A; hd l B]);
      [done|done|done| | | |].
    - intros x Hx. simpl. rewrite Hout by done. apply Hs0. set_solver.
    - intros x Hx. apply elem_of_cons in Hx as [->|Hx]; [by right|].
      left. set_solver.
    - intros x. simpl. rewrite Hown. case_decide as Hx; [|by rewrite Hown0].
      subst x. unfold owner. rewrite Hfresh. simpl. split; congruence.
    - simpl. by rewrite lookup_insert_ne. }
  exists s'. split; [done|].
  split; [|split; [done|split; [done|split; [|split; [|split; [|split; [|done]]]]]]].
  - apply (inv_step s s' l (A ++ e :: B)); [done|done|done| | | | | |].
    + intros x. simpl. rewrite lookup_insert_is_Some. intros [->|[_ ?]]; eauto.
    + intros x Hx. apply Hal' in Hx. simpl in Hx. simpl.
      apply lookup_insert_is_Some in Hx as [<-|[_ Hx]]; [unfold e; lia|].
      apply Hal in Hx. unfold e. lia.
    + simpl. unfold e. lia.
    + simpl. unfold e. lia.
    + intros x l0. simpl. rewrite Hown. case_decide; [left; congruence|].
      rewrite Hown0. by right.
    + intros x Hx. simpl. rewrite lookup_insert_is_Some.
      destruct (decide (l = x)); eauto.
  - intros x. simpl. rewrite lookup_insert_is_Some. split.
    + intros [<-|[_ ?]]; [|done]. by eapply list_rep_is_list.
    + intros Hx. destruct (decide (l = x)); eauto.
  - simpl. rewrite Hval. unfold value_of. simpl. by rewrite lookup_insert_eq.
  - intros x Hx. simpl. rewrite Hval. by apply value_of_lookup, Hs0.
  - intros x Hx. simpl. rewrite Hout by done. apply Hs0. set_solver.
Qed.

Lemma list_rep_ring s l ns : list_rep s l ns → ns ≠ [] → ring (elems s) l ns.
Proof. intros Hrep Hne. by destruct (rep_ring _ _ _ Hrep) as [?|[? _]]. Qed.

Lemma NoDup_mid_notin l A e B : NoDup (l :: A ++ e :: B) → e ∉ l :: A ++ B.
Proof.
  clear Hlimit. intros Hnd Hin. apply NoDup_cons in Hnd as [Hl Hnd].
  apply NoDup_app in Hnd as (HA & HAB & HB). apply NoDup_cons in HB as [HeB HB].
  apply elem_of_cons in Hin as [->|Hin]; [set_solver|].
  apply elem_of_app in Hin as [Hin|Hin]; [|done]. eapply HAB; [done|left].
Qed.

(** [remove] unlinks the node [e] and clears its fields. *)
Lemma remove_rep s l A e B :
  inv mem_limit s → list_rep s l (A ++ e :: B) →
  ∃ s', remove s (Some l) (Some e) = Done s' ∧ inv mem_limit s' ∧
    list_rep s' l (A ++ B) ∧
    (∀ l' ns', l' ≠ l → list_rep s l' ns' → list_rep s' l' ns') ∧
    (∀ x, is_Some (lens s' !! x) ↔ is_Some (lens s !! x)) ∧
    (∀ x, value_of (elems s') x = value_of (elems s) x) ∧
    owner (elems s') e = None ∧
    nx (elems s') e = None ∧ pv (elems s') e = None ∧
    (∀ x, x ∉ [e; lastd l A; hd l B] → elems s' !! x = elems s !! x).
Proof.
  intros Hinv Hrep.
  pose proof (inv_alloc _ _ Hinv) as Hal.
  assert (ring (elems s) l (A ++ e :: B)) as Hr.
  { apply list_rep_ring; [done|]. by destruct A. }
  pose proof (NoDup_mid_notin _ _ _ _ (ring_NoDup _ _ _ Hr)) as Hein.
  assert (lastd l A ∈ l :: A ++ B) as Hata.
  { pose proof (lastd_elem l A). set_solver. }
  assert (hd l B ∈ l :: A ++ B) as Hanb.
  { pose proof (hd_elem l B). set_solver. }
  assert (∀ x, x ∈ l :: A ++ B → x ∈ l :: A ++ e :: B) as Hsub by set_solver.
  destruct (remove_exec s l e (lastd l A) (hd l B) (Z.of_nat (length (A ++ e :: B))))
    as (h' & Hrem & Hnx & Hpv & Hown & Hval & Hout).
  { by eapply ring_pv. }
  { by eapply ring_nx. }
  { eapply ring_alloc; eauto. }
  { eapply ring_alloc; eauto. }
  { intros E. apply Hein. by rewrite E. }
  { intros E. apply Hein. by rewrite E. }
  { apply (rep_len _ _ _ Hrep). }
  rewrite Hrem. set (s' := mkState h' _ _).
  assert (∀ x, is_Some (elems s' !! x) ↔ is_Some (elems s !! x)) as Hal'.
  { intros x. rewrite <- !value_of_is_Some. simpl. by rewrite Hval. }
  assert (list_rep s' l (A ++ B)) as Hrep'.
  { split.
    - split; [apply Hal', (rep_root _ _ _ Hrep)|]. simpl.
      rewrite Hown, decide_False; [apply (rep_root _ _ _ Hrep)|].
      intros ->. apply Hein. left.
    - left. simpl. apply (ring_link_out (elems s) h' l A e B); [done| |].
      + intros x Hx. by rewrite Hnx, decide_False.
      + intros x Hx. by rewrite Hpv, decide_False.
    - intros x. simpl. rewrite Hown. case_decide as Hx.
      + subst x. split; [|done]. intros Hin. exfalso. apply Hein. by right.
      + rewrite <- (rep_owned _ _ _ Hrep). set_solver.
    - simpl. rewrite lookup_insert_eq. f_equal.
      pose proof (list_rep_small _ _ _ Hinv Hrep) as Hsm.
      rewrite length_app in *. simpl in *.
      rewrite wrap_int_id by lia. rewrite length_app. lia. }
  assert (∀ l' ns', l' ≠ l → list_rep s l' ns' → list_rep s' l' ns') as Hframe.
  { intros l' ns' Hne Hrep1.
    apply (list_rep_frame_other s s' l (A ++ e :: B) l' ns' [e; lastd l A; hd l B]);
      [done|done|done|done| | |].
    - intros x Hx. left. apply elem_of_cons in Hx as [->|Hx]; [set_solver|].
      apply Hsub. set_solver.
    - intros x. simpl. rewrite Hown. case_decide as Hx; [|done].
      subst x. assert (owner (elems s) e = Some l) as ->.
      { apply (rep_owned _ _ _ Hrep). set_solver. }
      split; congruence.
    - simpl. by rewrite lookup_insert_ne. }
  exists s'. split; [done|].
  split; [|split; [done|split; [done|split; [|split; [|split; [|split; [|split]]]]]]].
  - apply (inv_step s s' l (A ++ B)); [done|done|done| | | | | |].
    + intros x. simpl. rewrite lookup_insert_is_Some. intros [->|[_ ?]]; eauto.
    + intros x Hx. apply Hal' in Hx. simpl. by apply Hal.
    + done.
    + apply (inv_limit _ _ Hinv).
    + intros x l0. simpl. rewrite Hown. case_decide; [done|by right].
    + intros x Hx. simpl. rewrite lookup_insert_is_Some.
      destruct (decide (l = x)); eauto.
  - intros x. simpl. rewrite lookup_insert_is_Some. split.
    + intros [<-|[_ ?]]; [|done]. by eapply list_rep_is_list.
    + intros Hx. destruct (decide (l = x)); eauto.
  - done.
  - simpl. by rewrite Hown, decide_True.
  - simpl. by rewrite Hnx, decide_True.
  - simpl. by rewrite Hpv, decide_True.
  - done.
Qed.

(** [move] takes the node [e] out and links it again after [lastd l A']. *)
Lemma move_rep s l A e B A' B' :
  inv mem_limit s → list_rep s l (A ++ e :: B) → A ++ B = A' ++ B' →
  ∃ h', move (elems s) (Some e) (Some (lastd l A')) = Done h' ∧
    inv mem_limit (with_elems s h') ∧
    list_rep (with_elems s h') l (A' ++ e :: B') ∧
    (∀ l' ns', l' ≠ l → list_rep s l' ns' → list_rep (with_elems s h') l' ns') ∧
    same_data (elems s) h'.
Proof.
  intros Hinv Hrep HAB.
  pose proof (inv_alloc _ _ Hinv) as Hal.
  assert (ring (elems s) l (A ++ e :: B)) as Hr.
  { apply list_rep_ring; [done|]. by destruct A. }
  pose proof (NoDup_mid_notin _ _ _ _ (ring_NoDup _ _ _ Hr)) as Hein.
  assert (lastd l A ∈ l :: A ++ B) as Hata.
  { pose proof (lastd_elem l A). set_solver. }
  assert (hd l B ∈ l :: A ++ B) as Hanb.
  { pose proof (hd_elem l B). set_solver. }
  assert (lastd l A' ∈ l :: A ++ B) as Hatc.
  { rewrite HAB. pose proof (lastd_elem l A'). set_solver. }
  assert (hd l B' ∈ l :: A ++ B) as Hand.
  { rewrite HAB. pose proof (hd_elem l B'). set_solver. }
  assert (∀ x, x ∈ l :: A ++ B → x ∈ l :: A ++ e :: B) as Hsub by set_solver.
  destruct (move_exec (elems s) e (lastd l A') (lastd l A) (hd l B))
    as (h1 & Hnx1 & Hpv1 & Hmove).
  { intros E. apply Hein. by rewrite E. }
  { by eapply ring_pv. }
  { by eapply ring_nx. }
  { eapply ring_alloc; eauto. }
  { eapply ring_alloc; eauto. }
  { eapply ring_alloc; eauto. }
  { intros E. apply Hein. by rewrite E. }
  { intros E. apply Hein. by rewrite E. }
  assert (ring h1 l (A' ++ B')) as Hr1.
  { rewrite <- HAB. apply (ring_link_out (elems s) h1 l A e B); [done| |].
    - intros x _. apply Hnx1.
    - intros x _. apply Hpv1. }
  destruct (Hmove (hd l B')) as (h' & Hmv & Hnx & Hpv & Hsd & Hout).
  { apply (ring_link_between _ _ _ _ Hr1). }
  { intros E. apply Hein. by rewrite <- E. }
  { eapply ring_alloc; eauto. }
  exists h'. split; [done|].
  assert (∀ x, is_Some (h' !! x) ↔ is_Some (elems s !! x)) as Hal'.
  { intros x. by apply same_data_alloc. }
  assert (list_rep (with_elems s h') l (A' ++ e :: B')) as Hrep'.
  { split.
    - split; [apply Hal', (rep_root _ _ _ Hrep)|]. simpl.
      destruct (Hsd l) as [_ ->]. apply (rep_root _ _ _ Hrep).
    - left. simpl. apply (ring_link_in h1 h' l A' e B'); [done| |done|done].
      by rewrite <- HAB.
    - intros x. simpl. destruct (Hsd x) as [_ ->].
      rewrite <- (rep_owned _ _ _ Hrep).
      rewrite !elem_of_app, !elem_of_cons.
      assert (x ∈ A ++ B ↔ x ∈ A' ++ B') as Hiff by (by rewrite HAB).
      rewrite !elem_of_app in Hiff. tauto.
    - simpl. rewrite (rep_len _ _ _ Hrep). f_equal.
      assert (length (A ++ B) = length (A' ++ B')) as Hlen by (by rewrite HAB).
      rewrite !length_app in *. simpl. lia. }
  assert (∀ l' ns', l' ≠ l → list_rep s l' ns' → list_rep (with_elems s h') l' ns')
    as Hframe.
  { intros l' ns' Hne Hrep1.
    apply (list_rep_frame_other s (with_elems s h') l (A ++ e :: B) l' ns'
             [e; lastd l A; hd l B; lastd l A'; hd l B']);
      [done|done|done|done| | |done].
    - intros x Hx. left. apply elem_of_cons in Hx as [->|Hx]; [set_solver|].
      apply Hsub. set_solver.
    - intros x. simpl. by destruct (Hsd x) as [_ ->]. }
  split; [|done].
  apply (inv_step s (with_elems s h') l (A' ++ e :: B')); [done|done|done| | | | | |].
  - intros x. simpl. eauto.
  - intros x Hx. apply Hal' in Hx. simpl. by apply Hal.
  - done.
  - apply (inv_limit _ _ Hinv).
  - intros x l0. simpl. destruct (Hsd x) as [_ ->]. by right.
  - done.
Qed.

(** [lazyInit] keeps every list as it is. *)
Lemma lazyInit_inv s l ns :
  inv mem_limit s → list_rep s l ns →
  ∃ s', lazyInit s (Some l) = Done s' ∧ inv mem_limit s' ∧
    list_rep s' l ns ∧ ring (elems s') l ns ∧
    (∀ l' ns', l' ≠ l → list_rep s l' ns' → list_rep s' l' ns') ∧
    (∀ x, is_Some (lens s' !! x) ↔ is_Some (lens s !! x)) ∧
    (ns ≠ [] → s' = s).
Proof.
  intros Hinv Hrep.
  destruct (lazyInit_rep s l ns Hrep)
    as (s' & Hli & Hrep' & Hr' & Hid & Hlens & Hbrk & Hsd & Hout).
  exists s'. split; [done|].
  assert (∀ l' ns', l' ≠ l → list_rep s l' ns' → list_rep s' l' ns') as Hframe.
  { intros l' ns' Hne Hrep1.
    apply (list_rep_frame_other s s' l ns l' ns' [l]); [done|done|done|done| | |].
    - intros x Hx. left. set_solver.
    - intros x. by destruct (Hsd x) as [_ ->].
    - by rewrite Hlens. }
  split; [|split; [done|split; [done|split; [done|split]]]].
  - apply (inv_step s s' l ns); [done|done|done| | | | | |].
    + intros x. rewrite Hlens. eauto.
    + intros x Hx. rewrite Hbrk. apply (inv_alloc _ _ Hinv).
      by apply (same_data_alloc (elems s) (elems s')).
    + lia.
    + rewrite Hbrk. apply (inv_limit _ _ Hinv).
    + intros x l0. destruct (Hsd x) as [_ ->]. by right.
    + intros x. by rewrite Hlens.
  - intros x. by rewrite Hlens.
  - intros Hne. apply Hid. by apply list_rep_ring.
Qed.

End StateEdit.

Section OpInv.
Context {T : Type}.
Variable zero : T.
Variable mem_limit : nat.
Hypothesis Hlimit : Z.of_nat mem_limit < 2 ^ 63.
Implicit Types (s : @State T) (h : gmap nat (@Element T)) (a b c d e x y l : nat)
  (A B ns : list nat).

Lemma lastd_in_ring l A : lastd l A ∈ l :: A.
Proof. apply lastd_elem. Qed.

(** [move] inside a list keeps the memory well formed. *)
Lemma move_inv s l ns e c :
  inv mem_limit s → list_rep s l ns → e ∈ ns → c ∈ l :: ns →
  ∃ h', move (elems s) (Some e) (Some c) = Done h' ∧ inv mem_limit (with_elems s h').
Proof.
  intros Hinv Hrep He Hc. destruct (decide (e = c)) as [->|Hec].
  - exists (elems s). unfold move. rewrite decide_True by done.
    split; [done|]. by rewrite with_elems_id.
  - apply list_elem_of_split in He as (A & B & ->).
    assert (∃ A' B', A ++ B = A' ++ B' ∧ c = lastd l A') as (A' & B' & HAB & ->).
    { apply elem_of_cons in Hc as [->|Hc]; [by exists [], (A ++ B)|].
      assert (c ∈ A ++ B) as Hc' by set_solver.
      apply list_elem_of_split in Hc' as (P & Q & HPQ).
      exists (P ++ [c]), Q. split; [by rewrite <- app_assoc|]. by rewrite lastd_snoc. }
    destruct (move_rep mem_limit Hlimit s l A e B A' B' Hinv Hrep HAB) as (h' & ? & ? & _).
    eauto.
Qed.

(** [insertValue] after a node of the list keeps the memory well formed. *)
Lemma insertValue_inv s l ns c v r :
  inv mem_limit s → list_rep s l ns → ring (elems s) l ns → c ∈ l :: ns →
  insertValue mem_limit s (Some l) v (Some c) = Done r → inv mem_limit r.1.
Proof.
  intros Hinv Hrep Hr Hc Hrun.
  destruct (decide (brk s < mem_limit)%nat) as [Hb|Hb];
    [|by rewrite insertValue_oom in Hrun].
  assert (∃ A B, ns = A ++ B ∧ c = lastd l A) as (A & B & -> & ->).
  { apply elem_of_cons in Hc as [->|Hc]; [by exists [], ns|].
    apply list_elem_of_split in Hc as (P & Q & ->).
    exists (P ++ [c]), Q. split; [by rewrite <- app_assoc|]. by rewrite lastd_snoc. }
  destruct (insertValue_rep mem_limit Hlimit s l A B v Hinv Hrep Hr Hb)
    as (s' & Hins & Hinv' & _).
  rewrite Hins in Hrun. by injection Hrun as <-.
Qed.

Lemma element_get_list s e :
  is_element s e → get_list (elems s) (Some e) = Done (owner (elems s) e).
Proof. intros [He _]. by apply get_list_alloc. Qed.

Lemma PushFront_inv s l v r :
  inv mem_limit s → is_list s l →
  PushFront mem_limit s (Some l) v = Done r → inv mem_limit r.1.
Proof.
  intros Hinv Hl Hrun. destruct (inv_lists _ _ Hinv l Hl) as [ns Hrep].
  destruct (lazyInit_inv mem_limit Hlimit s l ns Hinv Hrep)
    as (s1 & Hli & Hinv1 & Hrep1 & Hr1 & _).
  unfold PushFront in Hrun. rewrite Hli in Hrun. cbn [bindR] in Hrun.
  eapply insertValue_inv; [done|done|done| |done]. left.
Qed.

Lemma PushBack_inv s l v r :
  inv mem_limit s → is_list s l →
  PushBack mem_limit s (Some l) v = Done r → inv mem_limit r.1.
Proof.
  intros Hinv Hl Hrun. destruct (inv_lists _ _ Hinv l Hl) as [ns Hrep].
  destruct (lazyInit_inv mem_limit Hlimit s l ns Hinv Hrep)
    as (s1 & Hli & Hinv1 & Hrep1 & Hr1 & _).
  unfold PushBack in Hrun. rewrite Hli in Hrun. cbn [bindR] in Hrun.
  rewrite get_prev_alloc in Hrun by apply (rep_root _ _ _ Hrep1).
  rewrite (ring_pv_root _ _ _ Hr1) in Hrun. cbn [bindR] in Hrun.
  eapply insertValue_inv; [done|done|done| |done]. apply lastd_elem.
Qed.

Lemma owned_node s l ns e :
  list_rep s l ns → owner (elems s) e = Some l →
  e ∈ ns ∧ ring (elems s) l ns ∧ ∃ A B, ns = A ++ e :: B.
Proof.
  intros Hrep Ho. apply (rep_owned _ _ _ Hrep) in Ho.
  split; [done|]. split.
  - apply list_rep_ring; [done|]. intros ->. by apply elem_of_nil in Ho.
  - by apply list_elem_of_split.
Qed.

Lemma InsertBefore_inv s l v mark r :
  inv mem_limit s → is_list s l → is_element s mark →
  InsertBefore mem_limit s (Some l) v (Some mark) = Done r → inv mem_limit r.1.
Proof.
  intros Hinv Hl Hm Hrun. destruct (inv_lists _ _ Hinv l Hl) as [ns Hrep].
  unfold InsertBefore in Hrun. rewrite (element_get_list _ _ Hm) in Hrun.
  cbn [bindR] in Hrun. case_decide as Ho.
  - by injection Hrun as <-.
  - destruct (owned_node _ _ _ _ Hrep Ho) as (Hin & Hr & A & B & ->).
    rewrite get_prev_alloc in Hrun by apply Hm.
    rewrite (ring_pv _ _ _ _ _ Hr) in Hrun. cbn [bindR] in Hrun.
    eapply insertValue_inv; [done|done|done| |done].
    pose proof (lastd_elem l A). set_solver.
Qed.

Lemma InsertAfter_inv s l v mark r :
  inv mem_limit s → is_list s l → is_element s mark →
  InsertAfter mem_limit s (Some l) v (Some mark) = Done r → inv mem_limit r.1.
Proof.
  intros Hinv Hl Hm Hrun. destruct (inv_lists _ _ Hinv l Hl) as [ns Hrep].
  unfold InsertAfter in Hrun. rewrite (element_get_list _ _ Hm) in Hrun.
  cbn [bindR] in Hrun. case_decide as Ho.
  - by injection Hrun as <-.
  - destruct (owned_node _ _ _ _ Hrep Ho) as (Hin & Hr & _).
    eapply insertValue_inv; [done|done|done| |done]. by right.
Qed.

Lemma Remove_inv s l e r :
  inv mem_limit s → is_list s l → is_element s e →
  Remove s (Some l) (Some e) = Done r → inv mem_limit r.1.
Proof.
  intros Hinv Hl He Hrun. destruct (inv_lists _ _ Hinv l Hl) as [ns Hrep].
  unfold Remove in Hrun. rewrite (element_get_list _ _ He) in Hrun.
  cbn [bindR] in Hrun. case_decide as Ho.
  - destruct (owned_node _ _ _ _ Hrep Ho) as (Hin & Hr & A & B & ->).
    destruct (remove_rep mem_limit Hlimit s l A e B Hinv Hrep)
      as (s' & Hrem & Hinv' & _).
    rewrite Hrem in Hrun. cbn [bindR] in Hrun.
    destruct (get_Value (elems s') (Some e)); [|done].
    by injection Hrun as <-.
  - cbn [bindR] in Hrun. destruct (get_Value (elems s) (Some e)); [|done].
    by injection Hrun as <-.
Qed.

Lemma MoveToFront_inv s l e s' :
  inv mem_limit s → is_list s l → is_element s e →
  MoveToFront s (Some l) (Some e) = Done s' → inv mem_limit s'.
Proof.
  intros Hinv Hl He Hrun. destruct (inv_lists _ _ Hinv l Hl) as [ns Hrep].
  unfold MoveToFront in Hrun. rewrite (element_get_list _ _ He) in Hrun.
  cbn [bindR] in Hrun. case_decide as Ho; [by injection Hrun as <-|].
  destruct (owned_node _ _ _ _ Hrep Ho) as (Hin & Hr & _).
  rewrite get_next_alloc in Hrun by apply (rep_root _ _ _ Hrep).
  cbn [bindR] in Hrun. case_decide; [by injection Hrun as <-|].
  destruct (move_inv s l ns e l Hinv Hrep Hin) as (h' & Hmv & Hinv'); [left|].
  rewrite Hmv in Hrun. cbn [bindR] in Hrun. by injection Hrun as <-.
Qed.

Lemma MoveToBack_inv s l e s' :
  inv mem_limit s → is_list s l → is_element s e →
  MoveToBack s (Some l) (Some e) = Done s' → inv mem_limit s'.
Proof.
  intros Hinv Hl He Hrun. destruct (inv_lists _ _ Hinv l Hl) as [ns Hrep].
  unfold MoveToBack in Hrun. rewrite (element_get_list _ _ He) in Hrun.
  cbn [bindR] in Hrun. case_decide as Ho; [by injection Hrun as <-|].
  destruct (owned_node _ _ _ _ Hrep Ho) as (Hin & Hr & _).
  rewrite get_prev_alloc in Hrun by apply (rep_root _ _ _ Hrep).
  rewrite (ring_pv_root _ _ _ Hr) in Hrun.
  cbn [bindR] in Hrun. case_decide; [by injection Hrun as <-|].
  destruct (move_inv s l ns e (lastd l ns) Hinv Hrep Hin) as (h' & Hmv & Hinv');
    [apply lastd_elem|].
  rewrite Hmv in Hrun. cbn [bindR] in Hrun. by injection Hrun as <-.
Qed.

Lemma MoveBefore_inv s l e mark s' :
  inv mem_limit s → is_list s l → is_element s e → is_element s mark →
  MoveBefore s (Some l) (Some e) (Some mark) = Done s' → inv mem_limit s'.
Proof.
  intros Hinv Hl He Hm Hrun. destruct (inv_lists _ _ Hinv l Hl) as [ns Hrep].
  unfold MoveBefore in Hrun. rewrite (element_get_list _ _ He) in Hrun.
  cbn [bindR] in Hrun. case_decide as Ho; [by injection Hrun as <-|].
  destruct (owned_node _ _ _ _ Hrep Ho) as (Hin & Hr & _).
  case_decide; [by injection Hrun as <-|].
  rewrite (element_get_list _ _ Hm) in Hrun.
  cbn [bindR] in Hrun. case_decide as Hom; [by injection Hrun as <-|].
  destruct (owned_node _ _ _ _ Hrep Hom) as (Hinm & _ & A & B & ->).
  rewrite get_prev_alloc in Hrun by apply Hm.
  rewrite (ring_pv _ _ _ _ _ Hr) in Hrun. cbn [bindR] in Hrun.
  destruct (move_inv s l (A ++ mark :: B) e (lastd l A) Hinv Hrep Hin)
    as (h' & Hmv & Hinv').
  { pose proof (lastd_elem l A). set_solver. }
  rewrite Hmv in Hrun. cbn [bindR] in Hrun. by injection Hrun as <-.
Qed.

Lemma MoveAfter_inv s l e mark s' :
  inv mem_limit s → is_list s l → is_element s e → is_element s mark →
  MoveAfter s (Some l) (Some e) (Some mark) = Done s' → inv mem_limit s'.
Proof.
  intros Hinv Hl He Hm Hrun. destruct (inv_lists _ _ Hinv l Hl) as [ns Hrep].
  unfold MoveAfter in Hrun. rewrite (element_get_list _ _ He) in Hrun.
  cbn [bindR] in Hrun. case_decide as Ho; [by injection Hrun as <-|].
  destruct (owned_node _ _ _ _ Hrep Ho) as (Hin & Hr & _).
  case_decide; [by injection Hrun as <-|].
  rewrite (element_get_list _ _ Hm) in Hrun.
  cbn [bindR] in Hrun. case_decide as Hom; [by injection Hrun as <-|].
  destruct (owned_node _ _ _ _ Hrep Hom) as (Hinm & _).
  destruct (move_inv s l ns e mark Hinv Hrep Hin) as (h' & Hmv & Hinv'); [by right|].
  rewrite Hmv in Hrun. cbn [bindR] in Hrun. by injection Hrun as <-.
Qed.

End OpInv.

Section Reach.
Context {T : Type}.
Implicit Types (s : @State T) (h : gmap nat (@Element T)) (a b c d e x y l : nat)
  (A B ns : list nat).

Lemma follow_next_ring n h l A B :
  ring h l (A ++ B) → (length B ≤ n)%nat → follow_next n h l (Some (hd l B)) = Done B.
Proof.
  revert n A. induction B as [|x B IH]; intros n A Hr Hn.
  - destruct n; simpl; by rewrite decide_True.
  - destruct n as [|n]; [simpl in Hn; lia|]. simpl.
    rewrite decide_False by (by eapply ring_not_root).
    rewrite get_next_alloc by (eapply ring_alloc; [done|set_solver]).
    rewrite (ring_nx _ _ _ _ _ Hr). cbn [bindR].
    rewrite (IH n (A ++ [x])); [done|by rewrite <- app_assoc|simpl in Hn; lia].
Qed.

Lemma ring_nodes_rep n s l ns :
  list_rep s l ns → (length ns ≤ n)%nat → ring_nodes n s l = Done ns.
Proof.
  intros Hrep Hn. unfold ring_nodes.
  rewrite get_next_alloc by apply (rep_root _ _ _ Hrep). cbn [bindR].
  destruct (rep_ring _ _ _ Hrep) as [Hr|[-> Hz]].
  - rewrite (ring_nx_root _ _ _ Hr). by apply (follow_next_ring n _ l []).
  - rewrite Hz. by destruct n.
Qed.

Lemma list_rep_unique s l ns ns' : list_rep s l ns → list_rep s l ns' → ns = ns'.
Proof.
  intros H1 H2.
  assert (length ns = length ns') as Hlen.
  { pose proof (rep_len _ _ _ H1) as E1. pose proof (rep_len _ _ _ H2) as E2.
    rewrite E1 in E2. injection E2. lia. }
  pose proof (ring_nodes_rep (length ns) s l ns H1) as E1.
  pose proof (ring_nodes_rep (length ns) s l ns' H2) as E2.
  rewrite E1 in E2 by lia. injection E2; [done|lia].
Qed.

Lemma links_consistent_ring h l ns e : ring h l ns → e ∈ ns → links_consistent h e.
Proof.
  intros Hr He. apply list_elem_of_split in He as (A & B & ->).
  pose proof (ring_link_next _ _ _ _ _ Hr) as [Hn1 Hp1].
  pose proof (ring_link_prev _ _ _ _ _ Hr) as [Hn2 Hp2].
  assert (is_Some (h !! e)) by (by eapply nx_alloc).
  unfold links_consistent. split.
  - rewrite get_next_alloc by done. rewrite Hn1. cbn [bindR].
    rewrite get_prev_alloc by (by eapply pv_alloc). by rewrite Hp1.
  - rewrite get_prev_alloc by done. rewrite Hp2. cbn [bindR].
    rewrite get_next_alloc by (by eapply nx_alloc). by rewrite Hn2.
Qed.

Lemma Front_rep_any s l ns : list_rep s l ns → Front s (Some l) = Done (head ns).
Proof.
  intros Hrep. destruct (rep_ring _ _ _ Hrep) as [Hr|[-> Hz]]; [by apply Front_rep|].
  unfold Front, get_len. rewrite (rep_len _ _ _ Hrep). cbn [bindR].
  by rewrite decide_True.
Qed.

Lemma Back_rep_any s l ns : list_rep s l ns → Back s (Some l) = Done (last ns).
Proof.
  intros Hrep. destruct (rep_ring _ _ _ Hrep) as [Hr|[-> Hz]]; [by apply Back_rep|].
  unfold Back, get_len. rewrite (rep_len _ _ _ Hrep). cbn [bindR].
  by rewrite decide_True.
Qed.

Lemma QuickSort_mono (cmp : T → T → Z) n k s p r :
  QuickSort cmp n s p = Done r → (n ≤ k)%nat → QuickSort cmp k s p = Done r.
Proof.
  unfold QuickSort. intros Hs Hk.
  apply bindR_Done in Hs as (s1 & -> & Hs). cbn [bindR].
  apply bindR_Done in Hs as (f & -> & Hs). cbn [bindR].
  apply bindR_Done in Hs as (b & -> & Hs). cbn [bindR].
  apply bindR_Done in Hs as (h & Hq & Hs).
  by rewrite (qsort_mono cmp n k _ _ _ _ _ Hq Hk).
Qed.

End Reach.

Section OpInv2.
Context {T : Type}.
Variable zero : T.
Variable mem_limit : nat.
Hypothesis Hlimit : Z.of_nat mem_limit < 2 ^ 63.
Implicit Types (s : @State T) (h : gmap nat (@Element T)) (a b c d e x y l : nat)
  (A B ns : list nat).

Lemma QuickSort_inv (cmp : T → T → Z) n s l s' :
  inv mem_limit s → is_list s l →
  QuickSort cmp n s (Some l) = Done s' → inv mem_limit s'.
Proof.
  intros Hinv Hl Hrun. destruct (inv_lists _ _ Hinv l Hl) as [ns Hrep].
  destruct (list_rep_values _ _ _ Hrep) as [V HV].
  apply (QuickSort_mono cmp n (n + S (length ns))) in Hrun; [|lia].
  destruct (QuickSort_spec cmp V (n + S (length ns)) s l ns Hrep HV)
    as (s2 & ns' & Hq & Hrep' & _ & _ & Hsd & Hout & Hlens & Hbrk & _); [lia|].
  rewrite Hq in Hrun. injection Hrun as ->.
  apply (inv_step mem_limit s s' l ns'); [done|done| | | | | | |].
  - intros l' ns0 Hne Hrep0.
    apply (list_rep_frame_other s s' l ns l' ns0 (l :: ns)); [done|done|done|done| | |].
    + intros x Hx. by left.
    + intros x. by destruct (Hsd x) as [_ ->].
    + by rewrite Hlens.
  - intros x. rewrite Hlens. eauto.
  - intros x Hx. rewrite Hbrk. apply (inv_alloc _ _ Hinv).
    by apply (same_data_alloc (elems s) (elems s')).
  - lia.
  - rewrite Hbrk. apply (inv_limit _ _ Hinv).
  - intros x l0. destruct (Hsd x) as [_ ->]. by right.
  - intros x. by rewrite Hlens.
Qed.

Lemma PushBackList_loop_inv l other i :
  ∀ s nl A B s',
    inv mem_limit s → list_rep s l nl → ring (elems s) l nl →
    list_rep s other (A ++ B) → (i ≤ length B)%nat →
    PushBackList_loop mem_limit i s (Some l) (head B) = Done s' → inv mem_limit s'.
Proof.
  induction i as [|i IH]; intros s nl A B s' Hinv Hrep Hr Hrepo Hi Hrun.
  - simpl in Hrun. by injection Hrun as <-.
  - destruct B as [|x B]; [simpl in Hi; lia|]. cbn [head PushBackList_loop] in Hrun.
    assert (x ∈ A ++ x :: B) as Hx by set_solver.
    destruct (list_rep_alloc _ _ _ _ Hrepo Hx) as [el Hel].
    rewrite (get_Value_alloc _ _ (Value el)) in Hrun
      by (unfold value_of; by rewrite Hel).
    cbn [bindR] in Hrun.
    rewrite get_prev_alloc in Hrun by apply (rep_root _ _ _ Hrep).
    rewrite (ring_pv_root _ _ _ Hr) in Hrun. cbn [bindR] in Hrun.
    destruct (decide (brk s < mem_limit)%nat) as [Hb|Hb];
      [|by rewrite insertValue_oom in Hrun].
    assert (list_rep s l (nl ++ [])) as Hrep0 by (by rewrite app_nil_r).
    assert (ring (elems s) l (nl ++ [])) as Hr0 by (by rewrite app_nil_r).
    destruct (insertValue_rep mem_limit Hlimit s l nl [] (Value el) Hinv Hrep0 Hr0 Hb)
      as (s1 & Hins & Hinv1 & Hrep1 & Hframe & _).
    rewrite Hins in Hrun. cbn [bindR] in Hrun.
    assert (∃ B1, list_rep s1 other (A ++ x :: B1) ∧ (length B ≤ length B1)%nat)
      as (B1 & Hrepo1 & HB1).
    { destruct (decide (other = l)) as [->|Hne].
      - rewrite (list_rep_unique _ _ _ _ Hrep Hrepo) in Hrep1.
        exists (B ++ [brk s]). split.
        + by rewrite <- app_assoc in Hrep1.
        + rewrite length_app. lia.
      - exists B. split; [by apply Hframe|done]. }
    assert (ring (elems s1) other (A ++ x :: B1)) as Hro1.
    { apply list_rep_ring; [done|]. by destruct A. }
    rewrite (Next_ring _ _ _ _ _ Hro1) in Hrun
      by (apply (rep_owned _ _ _ Hrepo1); set_solver).
    cbn [bindR] in Hrun.
    apply (IH s1 (nl ++ [brk s]) (A ++ [x]) B1 s'); [done|done| | | |done].
    + apply list_rep_ring; [done|]. by destruct nl.
    + by rewrite <- app_assoc.
    + simpl in Hi. lia.
Qed.

Lemma PushFrontList_loop_inv l other i :
  ∀ s nl A B s',
    inv mem_limit s → list_rep s l nl → ring (elems s) l nl →
    list_rep s other (A ++ B) → (i ≤ length A)%nat →
    PushFrontList_loop mem_limit i s (Some l) (last A) = Done s' → inv mem_limit s'.
Proof.
  induction i as [|i IH]; intros s nl A B s' Hinv Hrep Hr Hrepo Hi Hrun.
  - simpl in Hrun. by injection Hrun as <-.
  - assert (A ≠ []) as HA by (intros ->; simpl in Hi; lia).
    destruct (exists_last HA) as (A0 & x & ->).
    rewrite last_snoc in Hrun. cbn [PushFrontList_loop] in Hrun.
    rewrite <- app_assoc in Hrepo. simpl in Hrepo.
    assert (x ∈ A0 ++ x :: B) as Hx by set_solver.
    destruct (list_rep_alloc _ _ _ _ Hrepo Hx) as [el Hel].
    rewrite (get_Value_alloc _ _ (Value el)) in Hrun
      by (unfold value_of; by rewrite Hel).
    cbn [bindR] in Hrun.
    destruct (decide (brk s < mem_limit)%nat) as [Hb|Hb];
      [|by rewrite insertValue_oom in Hrun].
    destruct (insertValue_rep mem_limit Hlimit s l [] nl (Value el) Hinv Hrep Hr Hb)
      as (s1 & Hins & Hinv1 & Hrep1 & Hframe & _).
    simpl in Hins, Hrep1.
    rewrite Hins in Hrun. cbn [bindR] in Hrun.
    assert (∃ A1, list_rep s1 other (A1 ++ x :: B) ∧ (length A0 ≤ length A1)%nat)
      as (A1 & Hrepo1 & HA1).
    { destruct (decide (other = l)) as [->|Hne].
      - rewrite (list_rep_unique _ _ _ _ Hrep Hrepo) in Hrep1.
        exists (brk s :: A0). split; [done|simpl; lia].
      - exists A0. split; [by apply Hframe|done]. }
    assert (ring (elems s1) other (A1 ++ x :: B)) as Hro1.
    { apply list_rep_ring; [done|]. by destruct A1. }
    rewrite (Prev_ring _ _ _ _ _ Hro1) in Hrun
      by (apply (rep_owned _ _ _ Hrepo1); set_solver).
    cbn [bindR] in Hrun.
    apply (IH s1 (brk s :: nl) A1 (x :: B) s'); [done|done| |done| |done].
    + by apply list_rep_ring.
    + rewrite length_app in Hi. simpl in Hi. lia.
Qed.

Lemma lazyInit_other s l ns other :
  inv mem_limit s → list_rep s l ns → is_list s other →
  ∃ s1 no, lazyInit s (Some l) = Done s1 ∧ inv mem_limit s1 ∧
    list_rep s1 l ns ∧ ring (elems s1) l ns ∧ list_rep s1 other no.
Proof.
  intros Hinv Hrep Ho.
  destruct (lazyInit_inv mem_limit Hlimit s l ns Hinv Hrep)
    as (s1 & Hli & Hinv1 & Hrep1 & Hr1 & Hframe & _).
  destruct (inv_lists _ _ Hinv other Ho) as [no Hno].
  destruct (decide (other = l)) as [->|Hne].
  - exists s1, ns. eauto.
  - exists s1, no. split; [done|]. split; [done|]. split; [done|]. split; [done|].
    by apply Hframe.
Qed.

Lemma PushBackList_inv s l other s' :
  inv mem_limit s → is_list s l → is_list s other →
  PushBackList mem_limit s (Some l) (Some other) = Done s' → inv mem_limit s'.
Proof.
  intros Hinv Hl Ho Hrun. destruct (inv_lists _ _ Hinv l Hl) as [ns Hrep].
  destruct (lazyInit_other s l ns other Hinv Hrep Ho)
    as (s1 & no & Hli & Hinv1 & Hrep1 & Hr1 & Hno).
  unfold PushBackList in Hrun. rewrite Hli in Hrun. cbn [bindR] in Hrun.
  rewrite (Len_rep _ _ _ Hno), (Front_rep_any _ _ _ Hno) in Hrun.
  cbn [bindR] in Hrun. rewrite Nat2Z.id in Hrun.
  by apply (PushBackList_loop_inv l other (length no) s1 ns [] no s').
Qed.

Lemma PushFrontList_inv s l other s' :
  inv mem_limit s → is_list s l → is_list s other →
  PushFrontList mem_limit s (Some l) (Some other) = Done s' → inv mem_limit s'.
Proof.
  intros Hinv Hl Ho Hrun. destruct (inv_lists _ _ Hinv l Hl) as [ns Hrep].
  destruct (lazyInit_other s l ns other Hinv Hrep Ho)
    as (s1 & no & Hli & Hinv1 & Hrep1 & Hr1 & Hno).
  unfold PushFrontList in Hrun. rewrite Hli in Hrun. cbn [bindR] in Hrun.
  rewrite (Len_rep _ _ _ Hno), (Back_rep_any _ _ _ Hno) in Hrun.
  cbn [bindR] in Hrun. rewrite Nat2Z.id in Hrun.
  apply (PushFrontList_loop_inv l other (length no) s1 ns no [] s');
    [done|done|done| |done|done].
  by rewrite app_nil_r.
Qed.

End OpInv2.

Section Reachable.
Context {T : Type}.
Variable zero : T.
Variable mem_limit : nat.
Hypothesis Hlimit : Z.of_nat mem_limit < 2 ^ 63.
Implicit Types (s : @State T) (h : gmap nat (@Element T)) (a b c d e x y l : nat)
  (A B ns : list nat).

Lemma inv_fresh s : inv mem_limit s → elems s !! brk s = None ∧ lens s !! brk s = None.
Proof.
  intros Hinv. split.
  - destruct (elems s !! brk s) eqn:E; [|done].
    pose proof (inv_alloc _ _ Hinv (brk s)) as Hb. rewrite E in Hb.
    specialize (Hb (mk_is_Some _ _ eq_refl)). lia.
  - destruct (lens s !! brk s) eqn:E; [|done].
    pose proof (inv_lens _ _ Hinv (brk s)) as Hb. rewrite E in Hb.
    specialize (Hb (mk_is_Some _ _ eq_refl)). lia.
Qed.

(** Allocation and writes to the fresh address keep the old lists. *)
Lemma fresh_frame s s' l ns :
  inv mem_limit s → list_rep s l ns →
  (∀ x, x ≠ brk s → elems s' !! x = elems s !! x) →
  (∀ x, x ≠ brk s → lens s' !! x = lens s !! x) →
  owner (elems s') (brk s) = None →
  list_rep s' l ns.
Proof.
  intros Hinv Hrep Hel Hlens Hown.
  destruct (inv_fresh s Hinv) as [Hf1 Hf2].
  assert (∀ x, x ∈ l :: ns → x ≠ brk s) as Hne.
  { intros x Hx ->. destruct (list_rep_alloc_all _ _ _ _ Hrep Hx) as [? ?]. congruence. }
  apply (list_rep_frame s); [done| | |].
  - intros x Hx. by apply Hel, Hne.
  - intros x. destruct (decide (x = brk s)) as [->|Hx].
    + rewrite Hown. unfold owner. rewrite Hf1. done.
    + by rewrite (owner_lookup (elems s) (elems s')) by by apply Hel.
  - apply Hlens, Hne. left.
Qed.

Lemma fresh_inv s s' :
  inv mem_limit s → (brk s < mem_limit)%nat → brk s' = S (brk s) →
  (∀ x, x ≠ brk s → elems s' !! x = elems s !! x) →
  (∀ x, x ≠ brk s → lens s' !! x = lens s !! x) →
  owner (elems s') (brk s) = None →
  (is_Some (lens s' !! brk s) → list_rep s' (brk s) []) →
  inv mem_limit s'.
Proof.
  intros Hinv Hb Hbrk Hel Hlens Hown Hnew. split.
  - intros l Hl. destruct (decide (l = brk s)) as [->|Hne]; [eauto|].
    unfold is_list in Hl. rewrite Hlens in Hl by done.
    destruct (inv_lists _ _ Hinv l Hl) as [ns Hns]. exists ns.
    by apply (fresh_frame s).
  - intros a Ha. rewrite Hbrk. destruct (decide (a = brk s)) as [->|Hne]; [lia|].
    rewrite Hel in Ha by done. pose proof (inv_alloc _ _ Hinv a Ha). lia.
  - intros a Ha. rewrite Hbrk. destruct (decide (a = brk s)) as [->|Hne]; [lia|].
    rewrite Hlens in Ha by done. pose proof (inv_lens _ _ Hinv a Ha). lia.
  - intros x l Ho. destruct (decide (x = brk s)) as [->|Hne]; [congruence|].
    rewrite (owner_lookup (elems s) (elems s')) in Ho by by apply Hel.
    pose proof (inv_owner _ _ Hinv x l Ho) as Hl. unfold is_list in *.
    destruct (decide (l = brk s)) as [->|Hne'].
    + destruct (inv_fresh s Hinv) as [_ Hf]. rewrite Hf in Hl. by destruct Hl.
    + by rewrite Hlens.
  - lia.
Qed.

Lemma new_Element_inv s v r :
  inv mem_limit s → new_Element mem_limit s v = Done r → inv mem_limit r.1.
Proof.
  intros Hinv Hrun. unfold new_Element in Hrun. case_decide as Hb; [|done].
  injection Hrun as <-. simpl.
  destruct (inv_fresh s Hinv) as [Hf1 Hf2].
  apply (fresh_inv s); simpl; [done|done|done| |done| |].
  - intros x Hx. by rewrite lookup_insert_ne.
  - unfold owner. by rewrite lookup_insert_eq.
  - rewrite Hf2. by intros [? ?].
Qed.

Lemma new_List_inv s r :
  inv mem_limit s → new_List zero mem_limit s = Done r → inv mem_limit r.1.
Proof.
  intros Hinv Hrun. unfold new_List in Hrun. case_decide as Hb; [|done].
  injection Hrun as <-. simpl.
  destruct (inv_fresh s Hinv) as [Hf1 Hf2].
  apply (fresh_inv s); simpl; [done|done|done| | | |].
  - intros x Hx. by rewrite lookup_insert_ne.
  - intros x Hx. by rewrite lookup_insert_ne.
  - unfold owner. by rewrite lookup_insert_eq.
  - intros _. split; simpl.
    + split; [by rewrite lookup_insert_eq|]. unfold owner. by rewrite lookup_insert_eq.
    + right. split; [done|]. unfold nx. by rewrite lookup_insert_eq.
    + intros x. split; [by intros ?%elem_of_nil|]. intros Ho. exfalso.
      destruct (decide (x = brk s)) as [->|Hx].
      * unfold owner in Ho. by rewrite lookup_insert_eq in Ho.
      * unfold owner in Ho. rewrite lookup_insert_ne in Ho by done.
        pose proof (inv_owner _ _ Hinv x (brk s) Ho) as Hl. unfold is_list in Hl.
        rewrite Hf2 in Hl. by destruct Hl.
    + by rewrite lookup_insert_eq.
Qed.

Lemma New_inv s r :
  inv mem_limit s → New zero mem_limit s = Done r → inv mem_limit r.1.
Proof.
  intros Hinv Hrun. unfold New, new_List in Hrun. case_decide as Hb; [|done].
  cbn [bindR] in Hrun.
  destruct (inv_fresh s Hinv) as [Hf1 Hf2].
  unfold Init in Hrun. cbn [elems] in Hrun.
  rewrite set_next_alloc in Hrun by (by rewrite lookup_insert_eq).
  cbn [bindR] in Hrun.
  rewrite set_prev_alloc in Hrun
    by (rewrite lookup_alter_is_Some; by rewrite lookup_insert_eq).
  cbn [bindR] in Hrun. unfold set_len, with_elems in Hrun. cbn [lens brk] in Hrun.
  rewrite lookup_insert_eq in Hrun. cbn [bindR] in Hrun.
  injection Hrun as <-. cbn [fst].
  set (h0 := <[brk s:=mkElement None None None zero]> (elems s)).
  assert (is_Some (h0 !! brk s)) as Hal0 by (unfold h0; by rewrite lookup_insert_eq).
  assert (owner h0 (brk s) = None) as Hown0.
  { unfold owner, h0. by rewrite lookup_insert_eq. }
  apply (fresh_inv s); simpl; [done|done|done| | | |].
  - intros x Hx. rewrite !lookup_alter_ne by done. unfold h0.
    by rewrite lookup_insert_ne.
  - intros x Hx. by rewrite !lookup_insert_ne.
  - by heap_simpl.
  - intros _. split; simpl.
    + split; [alloc_tac|]. by heap_simpl.
    + left. split; [apply NoDup_singleton|]. simpl. split; [|done].
      split; heap_simpl; done.
    + intros x. split; [by intros ?%elem_of_nil|]. intros Ho. exfalso.
      revert Ho. heap_simpl. intros Ho.
      destruct (decide (x = brk s)) as [->|Hx]; [congruence|].
      unfold owner, h0 in Ho. rewrite lookup_insert_ne in Ho by done.
      pose proof (inv_owner _ _ Hinv x (brk s) Ho) as Hl. unfold is_list in Hl.
      rewrite Hf2 in Hl. by destruct Hl.
    + by rewrite lookup_insert_eq.
Qed.

(** Every public operation keeps the memory well formed. *)
Lemma run_op_inv s o s' :
  inv mem_limit s → op_wf s o → run_op zero mem_limit s o = Done s' → inv mem_limit s'.
Proof.
  intros Hinv Hwf Hrun. destruct o; simpl in Hwf, Hrun.
  - apply bindR_Done in Hrun as ([s1 p] & Hop & [= <-]).
    by apply (New_inv _ _ Hinv Hop).
  - apply bindR_Done in Hrun as ([s1 p] & Hop & [= <-]).
    by apply (new_List_inv _ _ Hinv Hop).
  - apply bindR_Done in Hrun as ([s1 p] & Hop & [= <-]).
    by apply (new_Element_inv _ _ _ Hinv Hop).
  - apply bindR_Done in Hrun as ([s1 p] & Hop & [= <-]).
    by apply (PushFront_inv mem_limit Hlimit _ _ _ _ Hinv Hwf Hop).
  - apply bindR_Done in Hrun as ([s1 p] & Hop & [= <-]).
    by apply (PushBack_inv mem_limit Hlimit _ _ _ _ Hinv Hwf Hop).
  - destruct Hwf as [Hl He].
    apply bindR_Done in Hrun as ([s1 p] & Hop & [= <-]).
    by apply (InsertBefore_inv mem_limit Hlimit _ _ _ _ _ Hinv Hl He Hop).
  - destruct Hwf as [Hl He].
    apply bindR_Done in Hrun as ([s1 p] & Hop & [= <-]).
    by apply (InsertAfter_inv mem_limit Hlimit _ _ _ _ _ Hinv Hl He Hop).
  - destruct Hwf as [Hl He].
    apply bindR_Done in Hrun as ([s1 p] & Hop & [= <-]).
    by apply (Remove_inv mem_limit Hlimit _ _ _ _ Hinv Hl He Hop).
  - destruct Hwf as [Hl He].
    by apply (MoveToFront_inv mem_limit Hlimit _ _ _ _ Hinv Hl He Hrun).
  - destruct Hwf as [Hl He].
    by apply (MoveToBack_inv mem_limit Hlimit _ _ _ _ Hinv Hl He Hrun).
  - destruct Hwf as (Hl & He & Hm).
    by apply (MoveBefore_inv mem_limit Hlimit _ _ _ _ _ Hinv Hl He Hm Hrun).
  - destruct Hwf as (Hl & He & Hm).
    by apply (MoveAfter_inv mem_limit Hlimit _ _ _ _ _ Hinv Hl He Hm Hrun).
  - destruct Hwf as [Hl Ho].
    by apply (PushBackList_inv mem_limit Hlimit _ _ _ _ Hinv Hl Ho Hrun).
  - destruct Hwf as [Hl Ho].
    by apply (PushFrontList_inv mem_limit Hlimit _ _ _ _ Hinv Hl Ho Hrun).
  - by apply (QuickSort_inv mem_limit _ _ _ _ _ Hinv Hwf Hrun).
Qed.

Lemma inv_init : inv mem_limit (@mkState T ∅ ∅ 0).
Proof.
  split; simpl.
  - intros l [? Hl]. unfold is_list in *. simpl in *. by rewrite lookup_empty in Hl.
  - intros a [? Ha]. by rewrite lookup_empty in Ha.
  - intros a [? Ha]. by rewrite lookup_empty in Ha.
  - intros x l Ho. unfold owner in Ho. by rewrite lookup_empty in Ho.
  - lia.
Qed.

Lemma reachable_inv s : reachable zero mem_limit s → inv mem_limit s.
Proof.
  induction 1 as [|s o s' _ IH Hwf Hrun]; [apply inv_init|].
  by apply (run_op_inv s o s').
Qed.

End Reachable.

Section OperationClaims.
Context {T : Type}.
Implicit Types (s : @State T) (h : gmap nat (@Element T)) (a b c d e x y l : nat)
  (A B ns : list nat).

Lemma links_consistent_root h l ns : ring h l ns → links_consistent h l.
Proof.
  intros Hr.
  pose proof (ring_link_between h l [] ns Hr) as [Hn1 Hp1].
  assert (ring h l (ns ++ [])) as Hr' by (by rewrite app_nil_r).
  pose proof (ring_link_between h l ns [] Hr') as [Hn2 Hp2].
  simpl in *.
  assert (is_Some (h !! l)) by (by eapply nx_alloc).
  unfold links_consistent. split.
  - rewrite get_next_alloc by done. rewrite Hn1. cbn [bindR].
    rewrite get_prev_alloc by (by eapply pv_alloc). by rewrite Hp1.
  - rewrite get_prev_alloc by done. rewrite Hp2. cbn [bindR].
    rewrite get_next_alloc by (by eapply nx_alloc). by rewrite Hn2.
Qed.

(** C6: after any sequence of public operations that starts from the empty
    memory (lists are made by [New] or as zero values; the operations are
    the pushes, the inserts, [Remove], the four moves, [PushBackList],
    [PushFrontList] and [QuickSort] with any comparator), every list is a
    consistent ring: for every node [e] of the list [e.next.prev == e] and
    [e.prev.next == e], the nodes met by following [next] from the sentinel
    until the sentinel is met again are exactly the nodes of the list, and
    [Len()] is their number.  Memory holds fewer than [2^63] elements. *)
Theorem reachable_ring_consistent (zero : T) (mem_limit : nat) s l :
  Z.of_nat mem_limit < 2 ^ 63 →
  reachable zero mem_limit s → is_list s l →
  ∃ ns,
    (∀ n, (length ns ≤ n)%nat → ring_nodes n s l = Done ns) ∧
    Len s (Some l) = Done (Z.of_nat (length ns)) ∧
    (∀ e, e ∈ ns ↔ owner (elems s) e = Some l) ∧
    (∀ e, e ∈ ns → links_consistent (elems s) e) ∧
    (ns ≠ [] → links_consistent (elems s) l).
Proof.
  intros Hlimit Hreach Hl.
  pose proof (reachable_inv zero mem_limit Hlimit s Hreach) as Hinv.
  destruct (inv_lists _ _ Hinv l Hl) as [ns Hrep].
  exists ns. split; [|split; [|split; [|split]]].
  - intros n Hn. by apply ring_nodes_rep.
  - by apply Len_rep.
  - apply (rep_owned _ _ _ Hrep).
  - intros e He. apply (links_consistent_ring _ l ns); [|done].
    apply list_rep_ring; [done|]. intros ->. by apply elem_of_nil in He.
  - intros Hne. apply (links_consistent_root _ l ns). by apply list_rep_ring.
Qed.

(** C8: an operation given a node that the receiving list does not own
    changes nothing.  [InsertBefore] and [InsertAfter] with a foreign mark
    return nil and the memory as it was; [MoveToFront], [MoveToBack],
    [MoveBefore] and [MoveAfter] with a foreign element, and [MoveBefore]
    and [MoveAfter] with a foreign mark or with [e == mark], return the
    memory as it was; [Remove] of a foreign element returns the memory as it
    was and the value stored in the element. *)
Theorem foreign_node_noop (mem_limit : nat) s l e mark (v : T) :
  is_Some (elems s !! e) → is_Some (elems s !! mark) →
  (owner (elems s) mark ≠ Some l →
     InsertBefore mem_limit s (Some l) v (Some mark) = Done (s, None) ∧
     InsertAfter mem_limit s (Some l) v (Some mark) = Done (s, None)) ∧
  (owner (elems s) e ≠ Some l →
     MoveToFront s (Some l) (Some e) = Done s ∧
     MoveToBack s (Some l) (Some e) = Done s ∧
     MoveBefore s (Some l) (Some e) (Some mark) = Done s ∧
     MoveAfter s (Some l) (Some e) (Some mark) = Done s ∧
     ∃ w, value_of (elems s) e = Some w ∧
          Remove s (Some l) (Some e) = Done (s, w)) ∧
  (owner (elems s) mark ≠ Some l ∨ e = mark →
     MoveBefore s (Some l) (Some e) (Some mark) = Done s ∧
     MoveAfter s (Some l) (Some e) (Some mark) = Done s).
Proof.
  intros He Hm. split; [|split].
  - intros Ho. unfold InsertBefore, InsertAfter.
    rewrite get_list_alloc by done. cbn [bindR]. by rewrite !decide_True by done.
  - intros Ho. unfold MoveToFront, MoveToBack, MoveBefore, MoveAfter, Remove.
    rewrite get_list_alloc by done. cbn [bindR]. rewrite !decide_True by done.
    rewrite decide_False by done. cbn [bindR].
    split; [done|]. split; [done|]. split; [done|]. split; [done|].
    destruct He as [el Hel]. exists (Value el). split.
    + unfold value_of. by rewrite Hel.
    + unfold get_Value, deref. by rewrite Hel.
  - intros Ho. unfold MoveBefore, MoveAfter.
    rewrite !get_list_alloc by done. cbn [bindR].
    destruct (decide (owner (elems s) e ≠ Some l)); [done|].
    destruct (decide (Some e = Some mark)) as [|Hne]; [done|].
    destruct Ho as [Ho| ->]; [|done].
    cbn [bindR]. by rewrite !decide_True by done.
Qed.

End OperationClaims.
(** ** The test program: the theorems at work *)

Section Examples.

Lemma cmp_int_valid : valid_cmp cmp_int.
Proof.
  split.
  - intros a b. unfold cmp_int. repeat case_decide; simpl; lia.
  - intros a b c. unfold cmp_int. repeat case_decide; lia.
Qed.

Lemma run_ops_reachable {T : Type} (zero : T) (mem_limit : nat) os :
  ∀ s s', reachable zero mem_limit s → run_ops zero mem_limit s os = Done s' →
    reachable zero mem_limit s'.
Proof.
  induction os as [|o os IH]; intros s s' Hs Hrun; simpl in Hrun.
  - by injection Hrun as <-.
  - case_decide as Hwf; [|done].
    apply bindR_Done in Hrun as (s1 & Hop & Hrun).
    apply (IH s1); [|done]. by apply (reachable_step _ _ s o s1).
Qed.

(** A list of a reachable memory is the list of nodes that following [next]
    from its sentinel gives. *)
Lemma reachable_rep {T : Type} (zero : T) (mem_limit : nat) s l ns k :
  Z.of_nat mem_limit < 2 ^ 63 → reachable zero mem_limit s →
  lens s !! l = Some (Z.of_nat k) → ring_nodes k s l = Done ns →
  list_rep s l ns.
Proof.
  intros Hlimit Hreach Hlen Hnodes.
  pose proof (reachable_inv zero mem_limit Hlimit s Hreach) as Hinv.
  destruct (inv_lists _ _ Hinv l) as [ns' Hrep].
  { unfold is_list. by rewrite Hlen. }
  assert (length ns' = k) as Hk.
  { pose proof (rep_len _ _ _ Hrep) as E. rewrite Hlen in E. injection E. lia. }
  rewrite (ring_nodes_rep k s l ns' Hrep) in Hnodes by lia.
  by injection Hnodes as <-.
Qed.

Lemma node_values_default {T : Type} (h : gmap nat (@Element T)) (d : T) ns :
  (∀ x, x ∈ ns → is_Some (h !! x)) →
  node_values h (λ x, default d (value_of h x)) ns.
Proof.
  intros Hal x Hx. destruct (Hal x Hx) as [el Hel]. unfold value_of.
  by rewrite Hel.
Qed.

Lemma example_limit_small : Z.of_nat example_limit < 2 ^ 63.
Proof. by vm_compute. Qed.

Lemma example_reachable : reachable 0 example_limit example_state.
Proof.
  apply (run_ops_reachable 0 example_limit example_ops (mkState ∅ ∅ 0)).
  - apply reachable_init.
  - by vm_compute.
Qed.

Lemma example_rep0 : list_rep example_state 0 [1; 2; 3]%nat.
Proof.
  apply (reachable_rep 0 example_limit example_state 0 [1; 2; 3]%nat 3).
  - apply example_limit_small.
  - apply example_reachable.
  - by vm_compute.
  - by vm_compute.
Qed.

Lemma example_rep5 : list_rep example_state 5 [6; 7]%nat.
Proof.
  apply (reachable_rep 0 example_limit example_state 5 [6; 7]%nat 2).
  - apply example_limit_small.
  - apply example_reachable.
  - by vm_compute.
  - by vm_compute.
Qed.

Lemma example_rep8 : list_rep example_state 8 [9]%nat.
Proof.
  apply (reachable_rep 0 example_limit example_state 8 [9]%nat 1).
  - apply example_limit_small.
  - apply example_reachable.
  - by vm_compute.
  - by vm_compute.
Qed.

Lemma example_ring0 : ring (elems example_state) 0 [1; 2; 3]%nat.
Proof. apply list_rep_ring; [apply example_rep0|done]. Qed.

Lemma example_owned0 : owned (elems example_state) 0 [1; 2; 3]%nat.
Proof. apply list_rep_owned, example_rep0. Qed.

Lemma example_values0 : node_values (elems example_state) example_value [1; 2; 3]%nat.
Proof.
  apply (node_values_default (elems example_state) 0).
  intros x Hx. by apply (list_rep_alloc _ _ _ _ example_rep0).
Qed.

Lemma QuickSort_sorted_witness :
  ∃ s' vs,
    QuickSort cmp_int 4 example_state (Some 0%nat) = Done s' ∧
    Values 4 s' (Some 0%nat) = Done vs ∧ Sorted (λ a b, cmp_int a b <= 0) vs.
Proof.
  apply (QuickSort_sorted cmp_int 4 example_state 0 [1; 2; 3]%nat).
  - apply cmp_int_valid.
  - apply example_rep0.
  - simpl. lia.
Defined.

Lemma QuickSort_preserves_witness :
  ∃ s' ns' vs vs',
    QuickSort cmp_int 4 example_state (Some 0%nat) = Done s' ∧
    traversal 4 example_state (Some 0%nat) = Done [1; 2; 3]%nat ∧
    traversal 4 s' (Some 0%nat) = Done ns' ∧ ns' ≡ₚ [1; 2; 3]%nat ∧
    Values 4 example_state (Some 0%nat) = Done vs ∧
    Values 4 s' (Some 0%nat) = Done vs' ∧ vs' ≡ₚ vs ∧
    Len s' (Some 0%nat) = Len example_state (Some 0%nat) ∧
    dom (elems s') = dom (elems example_state) ∧
    (∀ x, value_of (elems s') x = value_of (elems example_state) x).
Proof.
  apply (QuickSort_preserves cmp_int 4 example_state 0 [1; 2; 3]%nat).
  - apply example_rep0.
  - simpl. lia.
Defined.

Lemma pivot_node_fixed_witness :
  ∃ LBoundary h1 m r leftNext h2 X Y Lo,
    get_prev (elems example_state) (Some 1%nat) = Done (Some LBoundary) ∧
    partition_loop cmp_int 4 (elems example_state) (Some 1%nat)
      (Some (lastd 1%nat [2; 3]%nat)) (example_value 1) = Done (h1, Some m, r) ∧
    get_next h1 (Some LBoundary) = Done (Some 1%nat) ∧
    value_of h1 1 = Some (example_value 1) ∧
    get_next h1 (Some m) = Done leftNext ∧
    place_pivot h1 (Some LBoundary) (Some m) = Done (h2, Some 1%nat) ∧
    get_prev h2 leftNext = Done (Some 1%nat) ∧
    ring h1 0 ([] ++ X ++ m :: Y ++ []) ∧
    ring h2 0 ([] ++ Lo ++ 1%nat :: Y ++ []) ∧
    length Lo = length X.
Proof.
  apply (pivot_node_fixed cmp_int example_value 4 (elems example_state) 0
           [] 1%nat [2; 3]%nat []).
  - apply cmp_int_valid.
  - apply example_ring0.
  - apply example_owned0.
  - apply example_values0.
  - discriminate.
  - simpl. lia.
Defined.

Lemma qsort_terminates_witness :
  ∃ h' Seg,
    (∀ n, (length [2; 3]%nat + 2 ≤ n)%nat →
       _qsort cmp_int n (elems example_state) (Some 0%nat) (Some 1%nat)
         (Some (lastd 1%nat [2; 3]%nat)) = Done h') ∧
    ring h' 0 ([] ++ Seg ++ []) ∧ Seg ≡ₚ [1; 2; 3]%nat.
Proof.
  apply (qsort_terminates cmp_int (Some 0%nat) (elems example_state) 0
           [] 1%nat [2; 3]%nat []).
  - apply example_ring0.
  - apply example_owned0.
Defined.

Lemma swap_exchanges_witness :
  ∃ h',
    swap (elems example_state) (Some 1%nat) (Some 3%nat)
      = Done (h', bool_decide (nx (elems example_state) 1 = Some 3%nat
                               ∨ nx (elems example_state) 3 = Some 1%nat)) ∧
    ring h' 0 (transp 1 3 <$> [1; 2; 3]%nat) ∧
    same_data (elems example_state) h' ∧
    (∀ x, Some x ∉ [Some 1%nat; Some 3%nat; pv (elems example_state) 1;
                    nx (elems example_state) 1; pv (elems example_state) 3;
                    nx (elems example_state) 3] →
          h' !! x = elems example_state !! x) ∧
    (∀ p, swap (elems example_state) p p = Done (elems example_state, false)).
Proof.
  apply (swap_exchanges (elems example_state) 0 [1; 2; 3]%nat 1%nat 3%nat).
  - apply example_ring0.
  - apply list_elem_of_here.
  - do 2 apply list_elem_of_further. apply list_elem_of_here.
  - lia.
Defined.

Lemma reachable_ring_consistent_witness :
  ∃ ns,
    (∀ n, (length ns ≤ n)%nat → ring_nodes n example_state 0 = Done ns) ∧
    Len example_state (Some 0%nat) = Done (Z.of_nat (length ns)) ∧
    (∀ e, e ∈ ns ↔ owner (elems example_state) e = Some 0%nat) ∧
    (∀ e, e ∈ ns → links_consistent (elems example_state) e) ∧
    (ns ≠ [] → links_consistent (elems example_state) 0).
Proof.
  apply (reachable_ring_consistent 0 example_limit example_state 0).
  - apply example_limit_small.
  - apply example_reachable.
  - exists 3. vm_compute. reflexivity.
Defined.

Lemma QuickSort_small_noop_witness :
  ∃ s',
    QuickSort cmp_int 4 example_state (Some 8%nat) = Done s' ∧
    (∀ cmp', QuickSort cmp' 4 example_state (Some 8%nat) = Done s') ∧
    traversal 4 s' (Some 8%nat) = traversal 4 example_state (Some 8%nat) ∧
    Len s' (Some 8%nat) = Len example_state (Some 8%nat) ∧
    (∀ x, x ≠ 8%nat → elems s' !! x = elems example_state !! x) ∧
    (ring (elems example_state) 8 [9]%nat → s' = example_state).
Proof.
  apply (QuickSort_small_noop cmp_int 4 example_state 8 [9]%nat).
  - apply example_rep8.
  - simpl. lia.
  - simpl. lia.
Defined.

Lemma foreign_node_noop_witness :
  (InsertBefore example_limit example_state (Some 0%nat) 11 (Some 4%nat)
     = Done (example_state, None) ∧
   InsertAfter example_limit example_state (Some 0%nat) 11 (Some 4%nat)
     = Done (example_state, None)) ∧
  (MoveToFront example_state (Some 0%nat) (Some 4%nat) = Done example_state ∧
   MoveToBack example_state (Some 0%nat) (Some 4%nat) = Done example_state ∧
   MoveBefore example_state (Some 0%nat) (Some 4%nat) (Some 1%nat) = Done example_state ∧
   MoveAfter example_state (Some 0%nat) (Some 4%nat) (Some 1%nat) = Done example_state ∧
   ∃ w, value_of (elems example_state) 4 = Some w ∧
        Remove example_state (Some 0%nat) (Some 4%nat) = Done (example_state, w)).
Proof.
  assert (owner (elems example_state) 4 ≠ Some 0%nat) as Ho by (by vm_compute).
  destruct (foreign_node_noop example_limit example_state 0 4 4 11) as (H1 & _ & _).
  - exists (mkElement None None None 7). vm_compute. reflexivity.
  - exists (mkElement None None None 7). vm_compute. reflexivity.
  - destruct (foreign_node_noop example_limit example_state 0 4 1 11) as (_ & H2 & _).
    + exists (mkElement None None None 7). vm_compute. reflexivity.
    + exists (mkElement (Some 2%nat) (Some 0%nat) (Some 0%nat) 5). vm_compute.
      reflexivity.
    + split; [exact (H1 Ho)|exact (H2 Ho)].
Defined.

Lemma QuickSort_sorted_unchanged_witness :
  ∃ s',
    QuickSort cmp_int 4 example_state (Some 5%nat) = Done s' ∧
    traversal 4 s' (Some 5%nat) = Done [6; 7]%nat ∧
    traversal 4 example_state (Some 5%nat) = Done [6; 7]%nat ∧
    Values 4 s' (Some 5%nat) = Done [4; 9].
Proof.
  apply (QuickSort_sorted_unchanged cmp_int 4 example_state 5 [6; 7]%nat [4; 9]).
  - apply cmp_int_valid.
  - apply example_rep5.
  - simpl. lia.
  - vm_compute. reflexivity.
  - repeat constructor. vm_compute. discriminate.
Defined.

Lemma partition_loop_safe_witness :
  ∃ r1 l1 X1 M1 Y1 h' m r,
    scan_right cmp_int 4 (elems example_state) (Some 1%nat)
      (Some (lastd 1%nat [2; 3]%nat)) 5 = Done (Some r1) ∧
    scan_left cmp_int 4 (elems example_state) (Some 1%nat) (Some r1) 5
      = Done (Some l1) ∧
    [1; 2; 3]%nat = X1 ++ l1 :: M1 ++ Y1 ∧ r1 = lastd l1 M1 ∧
    partition_loop cmp_int 4 (elems example_state) (Some 1%nat)
      (Some (lastd 1%nat [2; 3]%nat)) 5 = Done (h', Some m, Some r) ∧
    m ∈ [1; 2; 3]%nat ∧ r ∈ [1; 2; 3]%nat ∧ 0%nat ∉ [1; 2; 3]%nat.
Proof.
  apply (partition_loop_safe cmp_int example_value 5 4 (elems example_state) 0
           [] 1%nat [2; 3]%nat []).
  - apply example_ring0.
  - apply example_owned0.
  - apply example_values0.
  - simpl. lia.
Defined.

End Examples.

(** * Further properties of the list operations *)

Section Observers.
Context {T : Type}.
Implicit Types (s : @State T) (h : gmap nat (@Element T)) (a b c d e x y l : nat)
  (A B ns : list nat) (vs : list T).

Lemma get_Value_Some h a (v : T) :
  get_Value h (Some a) = Done v ↔ value_of h a = Some v.
Proof.
  unfold get_Value, deref, value_of. destruct (h !! a) as [el|]; simpl.
  - split; intros [= <-]; done.
  - split; intros; done.
Qed.

Lemma read_values_Forall2 h ns vs :
  read_values h ns = Done vs ↔ Forall2 (λ x v, value_of h x = Some v) ns vs.
Proof.
  revert vs. induction ns as [|a ns IH]; intros vs; simpl.
  - split; [intros [= <-]; constructor|]. by intros ->%Forall2_nil_inv_l.
  - split.
    + intros Hs. apply bindR_Done in Hs as (v & Hv & Hs).
      apply bindR_Done in Hs as (vs' & Hvs & [= <-]).
      constructor; [by apply get_Value_Some|by apply IH].
    + intros Hf. apply Forall2_cons_inv_l in Hf as (v & vs' & Hv & Hvs & ->).
      apply get_Value_Some in Hv. apply IH in Hvs. by rewrite Hv, Hvs.
Qed.

Lemma Forall2_values_transfer h h' ns vs :
  Forall2 (λ x v, value_of h x = Some v) ns vs →
  (∀ x, x ∈ ns → value_of h' x = value_of h x) →
  Forall2 (λ x v, value_of h' x = Some v) ns vs.
Proof.
  induction 1 as [|x v ns vs Hx _ IH]; intros Heq; constructor.
  - rewrite Heq; [done|left].
  - apply IH. intros y Hy. apply Heq. by right.
Qed.

(** The values read by a traversal are the values of the nodes, in order. *)
Lemma Values_Forall2 n s l ns vs :
  list_rep s l ns → (length ns ≤ n)%nat →
  Values n s (Some l) = Done vs ↔
  Forall2 (λ x v, value_of (elems s) x = Some v) ns vs.
Proof.
  intros Hrep Hn. unfold Values. rewrite (traversal_rep n s l ns) by done.
  cbn [bindR]. apply read_values_Forall2.
Qed.

(** X1: [Front] returns the first node of a list and [Back] the last one,
    and both return nil on an empty list, also on a zero [List] whose
    sentinel was never linked; [Len] is the number of nodes, and the
    iteration [for e := l.Front(); e != nil; e = e.Next()] visits exactly
    the nodes of the list, front to back. *)
Theorem Front_Back_ends s l ns :
  list_rep s l ns →
  Front s (Some l) = Done (head ns) ∧ Back s (Some l) = Done (last ns) ∧
  Len s (Some l) = Done (Z.of_nat (length ns)) ∧
  (∀ n, (length ns ≤ n)%nat → traversal n s (Some l) = Done ns).
Proof.
  intros Hrep. split; [by apply Front_rep_any|]. split; [by apply Back_rep_any|].
  split; [by apply Len_rep|]. intros n Hn. by apply traversal_rep.
Qed.

(** X2: for a node [x] of a list, [x.Next()] is the node after it, nil
    when [x] is the last node (never the sentinel), and [x.Prev()] is the
    node before it, nil when [x] is the first node; for an element that
    belongs to no list both are nil. *)
Theorem Next_Prev_neighbours s l A x B :
  list_rep s l (A ++ x :: B) →
  Next (elems s) (Some x) = Done (head B) ∧
  Prev (elems s) (Some x) = Done (last A) ∧
  (∀ e, is_Some (elems s !! e) → owner (elems s) e = None →
     Next (elems s) (Some e) = Done None ∧ Prev (elems s) (Some e) = Done None).
Proof.
  intros Hrep.
  assert (ring (elems s) l (A ++ x :: B)) as Hr.
  { apply list_rep_ring; [done|]. by destruct A. }
  assert (owner (elems s) x = Some l) as Ho.
  { apply (rep_owned _ _ _ Hrep). set_solver. }
  split; [by apply (Next_ring _ l A)|]. split; [by apply (Prev_ring _ l A x B)|].
  intros e He Hoe. unfold Next, Prev.
  rewrite get_next_alloc, get_prev_alloc, get_list_alloc by done.
  cbn [bindR]. rewrite Hoe. rewrite !decide_False by (by intros [? _]). done.
Qed.

End Observers.

Section Insertion.
Context {T : Type}.
Implicit Types (s : @State T) (h : gmap nat (@Element T)) (a b c d e x y l : nat)
  (A B ns : list nat) (vs : list T).

Lemma inv_allocated_lt mem_limit s x :
  inv mem_limit s → is_Some (elems s !! x) → x ≠ brk s.
Proof. intros Hinv Hx ->. apply (inv_alloc _ _ Hinv) in Hx. lia. Qed.

(** [lazyInit] with everything it keeps. *)
Lemma lazyInit_full mem_limit s l ns :
  Z.of_nat mem_limit < 2 ^ 63 → inv mem_limit s → list_rep s l ns →
  ∃ s1, lazyInit s (Some l) = Done s1 ∧ inv mem_limit s1 ∧
    list_rep s1 l ns ∧ ring (elems s1) l ns ∧
    (∀ l' ns', l' ≠ l → list_rep s l' ns' → list_rep s1 l' ns') ∧
    brk s1 = brk s ∧ lens s1 = lens s ∧
    same_data (elems s) (elems s1) ∧ same_outside [l] (elems s) (elems s1) ∧
    (ring (elems s) l ns → s1 = s).
Proof.
  intros Hlimit Hinv Hrep.
  destruct (lazyInit_rep s l ns Hrep)
    as (s1 & Hli & Hrep1 & Hr1 & Hid & Hlens & Hbrk & Hsd & Hout).
  destruct (lazyInit_inv mem_limit Hlimit s l ns Hinv Hrep)
    as (s1' & Hli' & Hinv1 & _ & _ & Hframe & _).
  rewrite Hli in Hli'. injection Hli' as <-.
  exists s1. split; [done|]. split; [done|]. split; [done|]. split; [done|].
  split; [done|]. split; [done|]. split; [done|]. split; [done|]. split; done.
Qed.

(** X3: [PushBack] on a list that holds the nodes [ns] returns a new
    element [e], which was not allocated before, holds [v] and is the new
    last node: the list holds [ns ++ [e]], [Len] grows by one, [Back] is [e]
    and the values read front to back are the old ones followed by [v].
    No existing element changes its value, every other list is as it was,
    and the memory stays well formed.  It also works on a zero [List]. *)
Theorem PushBack_appends mem_limit s l ns (v : T) :
  Z.of_nat mem_limit < 2 ^ 63 → inv mem_limit s → list_rep s l ns →
  (brk s < mem_limit)%nat →
  ∃ s' e,
    PushBack mem_limit s (Some l) v = Done (s', Some e) ∧
    elems s !! e = None ∧ value_of (elems s') e = Some v ∧
    inv mem_limit s' ∧ list_rep s' l (ns ++ [e]) ∧
    Len s' (Some l) = Done (Z.of_nat (length ns) + 1) ∧
    Back s' (Some l) = Done (Some e) ∧
    (∀ n vs, (length ns ≤ n)%nat → Values n s (Some l) = Done vs →
       Values (S n) s' (Some l) = Done (vs ++ [v])) ∧
    (∀ x, is_Some (elems s !! x) → value_of (elems s') x = value_of (elems s) x) ∧
    (∀ l' ns', l' ≠ l → list_rep s l' ns' → list_rep s' l' ns').
Proof.
  intros Hlimit Hinv Hrep Hb.
  destruct (lazyInit_full mem_limit s l ns Hlimit Hinv Hrep)
    as (s1 & Hli & Hinv1 & Hrep1 & Hr1 & Hframe1 & Hbrk1 & Hlens1 & Hsd1 & _).
  assert (list_rep s1 l (ns ++ [])) as Hrep0 by (by rewrite app_nil_r).
  assert (ring (elems s1) l (ns ++ [])) as Hr0 by (by rewrite app_nil_r).
  destruct (insertValue_rep mem_limit Hlimit s1 l ns [] v Hinv1 Hrep0 Hr0)
    as (s' & Hins & Hinv' & Hrep' & Hframe & _ & Hnew & Hold & _); [lia|].
  rewrite Hbrk1 in *.
  assert (∀ x, is_Some (elems s !! x) → value_of (elems s') x = value_of (elems s) x)
    as Hvals.
  { intros x Hx. rewrite Hold by (by eapply inv_allocated_lt). apply Hsd1. }
  exists s', (brk s). split.
  { unfold PushBack. rewrite Hli. cbn [bindR].
    rewrite get_prev_alloc by apply (rep_root _ _ _ Hrep1).
    rewrite (ring_pv_root _ _ _ Hr1). cbn [bindR]. done. }
  split; [apply (inv_fresh mem_limit s Hinv)|]. split; [done|]. split; [done|].
  split; [done|]. split.
  { rewrite (Len_rep _ _ _ Hrep'). f_equal. rewrite length_app. simpl. lia. }
  split.
  { rewrite (Back_rep_any _ _ _ Hrep'). by rewrite last_snoc. }
  split; [|split; [done|]].
  - intros n vs Hn Hvs. apply (Values_Forall2 n s l ns vs Hrep Hn) in Hvs.
    apply (Values_Forall2 (S n) s' l (ns ++ [brk s]) (vs ++ [v]) Hrep').
    { rewrite length_app. simpl. lia. }
    apply Forall2_app; [|by repeat constructor].
    apply (Forall2_values_transfer (elems s)); [done|].
    intros x Hx. apply Hvals. by apply (list_rep_alloc _ _ _ _ Hrep).
  - intros l' ns' Hne Hrep0'. by apply Hframe, Hframe1.
Qed.

(** X4: [PushFront] returns a new element [e] that holds [v] and is the
    new first node: the list holds [e :: ns], [Front] is [e], the values
    read front to back are [v] followed by the old ones; no existing
    element changes its value and every other list is as it was. *)
Theorem PushFront_prepends mem_limit s l ns (v : T) :
  Z.of_nat mem_limit < 2 ^ 63 → inv mem_limit s → list_rep s l ns →
  (brk s < mem_limit)%nat →
  ∃ s' e,
    PushFront mem_limit s (Some l) v = Done (s', Some e) ∧
    elems s !! e = None ∧ value_of (elems s') e = Some v ∧
    inv mem_limit s' ∧ list_rep s' l (e :: ns) ∧
    Len s' (Some l) = Done (Z.of_nat (length ns) + 1) ∧
    Front s' (Some l) = Done (Some e) ∧
    (∀ n vs, (length ns ≤ n)%nat → Values n s (Some l) = Done vs →
       Values (S n) s' (Some l) = Done (v :: vs)) ∧
    (∀ x, is_Some (elems s !! x) → value_of (elems s') x = value_of (elems s) x) ∧
    (∀ l' ns', l' ≠ l → list_rep s l' ns' → list_rep s' l' ns').
Proof.
  intros Hlimit Hinv Hrep Hb.
  destruct (lazyInit_full mem_limit s l ns Hlimit Hinv Hrep)
    as (s1 & Hli & Hinv1 & Hrep1 & Hr1 & Hframe1 & Hbrk1 & Hlens1 & Hsd1 & _).
  destruct (insertValue_rep mem_limit Hlimit s1 l [] ns v Hinv1 Hrep1 Hr1)
    as (s' & Hins & Hinv' & Hrep' & Hframe & _ & Hnew & Hold & _); [lia|].
  rewrite Hbrk1 in *. simpl in Hins, Hrep'.
  assert (∀ x, is_Some (elems s !! x) → value_of (elems s') x = value_of (elems s) x)
    as Hvals.
  { intros x Hx. rewrite Hold by (by eapply inv_allocated_lt). apply Hsd1. }
  exists s', (brk s). split.
  { unfold PushFront. rewrite Hli. cbn [bindR]. done. }
  split; [apply (inv_fresh mem_limit s Hinv)|]. split; [done|]. split; [done|].
  split; [done|]. split.
  { rewrite (Len_rep _ _ _ Hrep'). f_equal. simpl length. lia. }
  split; [by rewrite (Front_rep_any _ _ _ Hrep')|].
  split; [|split; [done|]].
  - intros n vs Hn Hvs. apply (Values_Forall2 n s l ns vs Hrep Hn) in Hvs.
    apply (Values_Forall2 (S n) s' l (brk s :: ns) (v :: vs) Hrep').
    { simpl. lia. }
    constructor; [done|].
    apply (Forall2_values_transfer (elems s)); [done|].
    intros x Hx. apply Hvals. by apply (list_rep_alloc _ _ _ _ Hrep).
  - intros l' ns' Hne Hrep0'. by apply Hframe, Hframe1.
Qed.

(** X5: [InsertBefore] with a mark that is a node of the list returns a
    new element [e] that holds [v] and stands immediately before the mark;
    the order of the other nodes, their values and every other list are
    unchanged, and [Len] grows by one. *)
Theorem InsertBefore_places mem_limit s l A mark B (v : T) :
  Z.of_nat mem_limit < 2 ^ 63 → inv mem_limit s → list_rep s l (A ++ mark :: B) →
  (brk s < mem_limit)%nat →
  ∃ s' e,
    InsertBefore mem_limit s (Some l) v (Some mark) = Done (s', Some e) ∧
    elems s !! e = None ∧ value_of (elems s') e = Some v ∧
    inv mem_limit s' ∧ list_rep s' l (A ++ e :: mark :: B) ∧
    Len s' (Some l) = Done (Z.of_nat (length (A ++ mark :: B)) + 1) ∧
    Prev (elems s') (Some mark) = Done (Some e) ∧
    (∀ x, is_Some (elems s !! x) → value_of (elems s') x = value_of (elems s) x) ∧
    (∀ l' ns', l' ≠ l → list_rep s l' ns' → list_rep s' l' ns').
Proof.
  intros Hlimit Hinv Hrep Hb.
  assert (ring (elems s) l (A ++ mark :: B)) as Hr.
  { apply list_rep_ring; [done|]. by destruct A. }
  assert (owner (elems s) mark = Some l) as Ho.
  { apply (rep_owned _ _ _ Hrep). set_solver. }
  destruct (insertValue_rep mem_limit Hlimit s l A (mark :: B) v Hinv Hrep Hr Hb)
    as (s' & Hins & Hinv' & Hrep' & Hframe & _ & Hnew & Hold & _).
  exists s', (brk s). split.
  { unfold InsertBefore. rewrite get_list_alloc by (by eapply owner_alloc).
    cbn [bindR]. rewrite Ho. rewrite decide_False by (intros Hc; by apply Hc).
    rewrite get_prev_alloc by (by eapply owner_alloc).
    rewrite (ring_pv _ _ _ _ _ Hr). cbn [bindR]. done. }
  split; [apply (inv_fresh mem_limit s Hinv)|]. split; [done|]. split; [done|].
  split; [done|]. split.
  { rewrite (Len_rep _ _ _ Hrep'). f_equal. rewrite !length_app. simpl. lia. }
  split.
  { assert (ring (elems s') l ((A ++ [brk s]) ++ mark :: B)) as Hr2.
    { rewrite <- app_assoc. apply list_rep_ring; [done|]. by destruct A. }
    rewrite (Prev_ring _ _ _ _ _ Hr2); [by rewrite last_snoc|].
    apply (rep_owned _ _ _ Hrep'). set_solver. }
  split; [|done].
  intros x Hx. apply Hold. by eapply inv_allocated_lt.
Qed.

(** X6: [InsertAfter] with a mark that is a node of the list returns a
    new element [e] that holds [v] and stands immediately after the mark;
    the order of the other nodes, their values and every other list are
    unchanged, and [Len] grows by one. *)
Theorem InsertAfter_places mem_limit s l A mark B (v : T) :
  Z.of_nat mem_limit < 2 ^ 63 → inv mem_limit s → list_rep s l (A ++ mark :: B) →
  (brk s < mem_limit)%nat →
  ∃ s' e,
    InsertAfter mem_limit s (Some l) v (Some mark) = Done (s', Some e) ∧
    elems s !! e = None ∧ value_of (elems s') e = Some v ∧
    inv mem_limit s' ∧ list_rep s' l (A ++ mark :: e :: B) ∧
    Len s' (Some l) = Done (Z.of_nat (length (A ++ mark :: B)) + 1) ∧
    Next (elems s') (Some mark) = Done (Some e) ∧
    (∀ x, is_Some (elems s !! x) → value_of (elems s') x = value_of (elems s) x) ∧
    (∀ l' ns', l' ≠ l → list_rep s l' ns' → list_rep s' l' ns').
Proof.
  intros Hlimit Hinv Hrep Hb.
  assert (ring (elems s) l (A ++ mark :: B)) as Hr.
  { apply list_rep_ring; [done|]. by destruct A. }
  assert (owner (elems s) mark = Some l) as Ho.
  { apply (rep_owned _ _ _ Hrep). set_solver. }
  assert (A ++ mark :: B = (A ++ [mark]) ++ B) as E by (by rewrite <- app_assoc).
  rewrite E in Hrep, Hr.
  destruct (insertValue_rep mem_limit Hlimit s l (A ++ [mark]) B v Hinv Hrep Hr Hb)
    as (s' & Hins & Hinv' & Hrep' & Hframe & _ & Hnew & Hold & _).
  rewrite lastd_snoc in Hins. rewrite <- app_assoc in Hrep'. simpl in Hrep'.
  exists s', (brk s). split.
  { unfold InsertAfter. rewrite get_list_alloc by (by eapply owner_alloc).
    cbn [bindR]. rewrite Ho. rewrite decide_False by (intros Hc; by apply Hc).
    done. }
  split; [apply (inv_fresh mem_limit s Hinv)|]. split; [done|]. split; [done|].
  split; [done|]. split.
  { rewrite (Len_rep _ _ _ Hrep'). f_equal. rewrite !length_app. simpl. lia. }
  split.
  { assert (ring (elems s') l (A ++ mark :: brk s :: B)) as Hr2.
    { apply list_rep_ring; [done|]. by destruct A. }
    rewrite (Next_ring _ _ _ _ _ Hr2); [done|].
    apply (rep_owned _ _ _ Hrep'). set_solver. }
  split; [|done].
  intros x Hx. apply Hold. by eapply inv_allocated_lt.
Qed.

End Insertion.

Section Removal.
Context {T : Type}.
Implicit Types (s : @State T) (h : gmap nat (@Element T)) (a b c d e x y l : nat)
  (A B ns : list nat) (vs : list T).

(** X7: [Remove] of a node [e] of the list returns the value stored in
    [e] and takes [e] out: the other nodes keep their order, [Len] drops by
    one, [e] keeps its value but its [next], [prev] and [list] fields are
    nil, no value changes, every other list is as it was.  Removing [e] a
    second time changes nothing and returns the same value. *)
Theorem Remove_unlinks mem_limit s l A e B :
  Z.of_nat mem_limit < 2 ^ 63 → inv mem_limit s → list_rep s l (A ++ e :: B) →
  ∃ s' w,
    Remove s (Some l) (Some e) = Done (s', w) ∧
    value_of (elems s) e = Some w ∧
    inv mem_limit s' ∧ list_rep s' l (A ++ B) ∧
    Len s' (Some l) = Done (Z.of_nat (length (A ++ e :: B)) - 1) ∧
    nx (elems s') e = None ∧ pv (elems s') e = None ∧ owner (elems s') e = None ∧
    (∀ x, value_of (elems s') x = value_of (elems s) x) ∧
    (∀ l' ns', l' ≠ l → list_rep s l' ns' → list_rep s' l' ns') ∧
    Remove s' (Some l) (Some e) = Done (s', w).
Proof.
  intros Hlimit Hinv Hrep.
  assert (e ∈ A ++ e :: B) as Hin by set_solver.
  pose proof (proj1 (rep_owned _ _ _ Hrep e) Hin) as Ho.
  destruct (list_rep_alloc _ _ _ _ Hrep Hin) as [el Hel].
  destruct (remove_rep mem_limit Hlimit s l A e B Hinv Hrep)
    as (s' & Hrem & Hinv' & Hrep' & Hframe & _ & Hval & Ho' & Hnx & Hpv & _).
  assert (value_of (elems s) e = Some (Value el)) as Hv.
  { unfold value_of. by rewrite Hel. }
  assert (is_Some (elems s' !! e)) as Hal'.
  { apply value_of_is_Some. rewrite Hval, Hv. eauto. }
  exists s', (Value el). split.
  { unfold Remove. rewrite get_list_alloc by eauto. cbn [bindR]. rewrite Ho.
    rewrite decide_True by done. rewrite Hrem. cbn [bindR].
    rewrite (get_Value_alloc _ _ (Value el)) by (by rewrite Hval). done. }
  split; [done|]. split; [done|]. split; [done|]. split.
  { rewrite (Len_rep _ _ _ Hrep'). f_equal. rewrite !length_app. simpl. lia. }
  split; [done|]. split; [done|]. split; [done|]. split; [done|]. split; [done|].
  unfold Remove. rewrite get_list_alloc by done. cbn [bindR]. rewrite Ho'.
  rewrite decide_False by done. cbn [bindR].
  rewrite (get_Value_alloc _ _ (Value el)) by (by rewrite Hval). done.
Qed.

(** X8: [PushBack] followed by [Remove] of the element it returned gives
    back the pushed value and the list as it was: the same nodes in the same
    order, the same [Len], the same values, and the other lists untouched. *)
Theorem PushBack_Remove_roundtrip mem_limit s l ns (v : T) :
  Z.of_nat mem_limit < 2 ^ 63 → inv mem_limit s → list_rep s l ns →
  (brk s < mem_limit)%nat →
  ∃ s1 e s2,
    PushBack mem_limit s (Some l) v = Done (s1, Some e) ∧
    Remove s1 (Some l) (Some e) = Done (s2, v) ∧
    inv mem_limit s2 ∧ list_rep s2 l ns ∧
    Len s2 (Some l) = Done (Z.of_nat (length ns)) ∧
    (∀ n, (length ns ≤ n)%nat → traversal n s2 (Some l) = Done ns) ∧
    (∀ x, is_Some (elems s !! x) → value_of (elems s2) x = value_of (elems s) x) ∧
    (∀ l' ns', l' ≠ l → list_rep s l' ns' → list_rep s2 l' ns').
Proof.
  intros Hlimit Hinv Hrep Hb.
  destruct (lazyInit_full mem_limit s l ns Hlimit Hinv Hrep)
    as (s0 & Hli & Hinv0 & Hrep0 & Hr0 & Hframe0 & Hbrk0 & Hlens0 & Hsd0 & _).
  assert (list_rep s0 l (ns ++ [])) as Hrep0' by (by rewrite app_nil_r).
  assert (ring (elems s0) l (ns ++ [])) as Hr0' by (by rewrite app_nil_r).
  destruct (insertValue_rep mem_limit Hlimit s0 l ns [] v Hinv0 Hrep0' Hr0')
    as (s1 & Hins & Hinv1 & Hrep1 & Hframe1 & _ & Hnew & Hold & _); [lia|].
  rewrite Hbrk0 in *.
  destruct (remove_rep mem_limit Hlimit s1 l ns (brk s) [] Hinv1 Hrep1)
    as (s2 & Hrem & Hinv2 & Hrep2 & Hframe2 & _ & Hval2 & _).
  rewrite app_nil_r in Hrep2.
  assert (is_Some (elems s1 !! brk s)) as Hal1.
  { apply value_of_is_Some. rewrite Hnew. eauto. }
  exists s1, (brk s), s2. split.
  { unfold PushBack. rewrite Hli. cbn [bindR].
    rewrite get_prev_alloc by apply (rep_root _ _ _ Hrep0).
    rewrite (ring_pv_root _ _ _ Hr0). cbn [bindR]. done. }
  split.
  { unfold Remove. rewrite get_list_alloc by done. cbn [bindR].
    rewrite (proj1 (rep_owned _ _ _ Hrep1 (brk s))) by set_solver.
    rewrite decide_True by done. rewrite Hrem. cbn [bindR].
    rewrite (get_Value_alloc _ _ v) by (by rewrite Hval2). done. }
  split; [done|]. split; [done|]. split; [by apply Len_rep|].
  split; [intros n Hn; by apply traversal_rep|]. split.
  - intros x Hx. rewrite Hval2, Hold by (by eapply inv_allocated_lt). apply Hsd0.
  - intros l' ns' Hne Hrep'. by apply Hframe2, Hframe1, Hframe0.
Qed.

End Removal.

Section Moves.
Context {T : Type}.
Implicit Types (s : @State T) (h : gmap nat (@Element T)) (a b c d e x y l : nat)
  (A B P Q ns : list nat) (vs : list T).

Lemma owned_get_list s l ns e :
  list_rep s l ns → e ∈ ns → get_list (elems s) (Some e) = Done (Some l).
Proof.
  intros Hrep He. rewrite get_list_alloc by (by eapply list_rep_alloc).
  by rewrite (proj1 (rep_owned _ _ _ Hrep e) He).
Qed.

(** What [move] gives at the level of the state. *)
Lemma move_state mem_limit s l A e B A' B' :
  Z.of_nat mem_limit < 2 ^ 63 → inv mem_limit s → list_rep s l (A ++ e :: B) →
  A ++ B = A' ++ B' →
  ∃ s', (do h <- move (elems s) (Some e) (Some (lastd l A')); Done (with_elems s h))
          = Done s' ∧
    inv mem_limit s' ∧ list_rep s' l (A' ++ e :: B') ∧
    same_data (elems s) (elems s') ∧ lens s' = lens s ∧ brk s' = brk s ∧
    (∀ l' ns', l' ≠ l → list_rep s l' ns' → list_rep s' l' ns').
Proof.
  intros Hlimit Hinv Hrep HAB.
  destruct (move_rep mem_limit Hlimit s l A e B A' B' Hinv Hrep HAB)
    as (h' & Hmv & Hinv' & Hrep' & Hframe & Hsd).
  exists (with_elems s h'). rewrite Hmv. cbn [bindR].
  split; [done|]. split; [done|]. split; [done|]. split; [done|]. done.
Qed.

(** The state itself, when an operation returns without a write. *)
Lemma unchanged_state mem_limit s l ns :
  inv mem_limit s → list_rep s l ns →
  inv mem_limit s ∧ list_rep s l ns ∧
  same_data (elems s) (elems s) ∧ lens s = lens s ∧ brk s = brk s ∧
  (∀ l' ns', l' ≠ l → list_rep s l' ns' → list_rep s l' ns').
Proof.
  intros Hinv Hrep. split; [done|]. split; [done|].
  split; [apply same_data_refl|]. done.
Qed.

(** X9: [MoveToFront] of a node [e] of the list makes [e] the first node
    and keeps the order of the others; values, owners, [Len] and the other
    lists are unchanged, and nothing is allocated. *)
Theorem MoveToFront_places mem_limit s l A e B :
  Z.of_nat mem_limit < 2 ^ 63 → inv mem_limit s → list_rep s l (A ++ e :: B) →
  ∃ s',
    MoveToFront s (Some l) (Some e) = Done s' ∧
    inv mem_limit s' ∧ list_rep s' l (e :: A ++ B) ∧
    same_data (elems s) (elems s') ∧ lens s' = lens s ∧ brk s' = brk s ∧
    (∀ l' ns', l' ≠ l → list_rep s l' ns' → list_rep s' l' ns').
Proof.
  intros Hlimit Hinv Hrep.
  assert (e ∈ A ++ e :: B) as Hin by set_solver.
  assert (ring (elems s) l (A ++ e :: B)) as Hr.
  { apply list_rep_ring; [done|]. by destruct A. }
  unfold MoveToFront. rewrite (owned_get_list _ _ _ _ Hrep Hin). cbn [bindR].
  rewrite decide_False by (intros Hc; by apply Hc).
  rewrite get_next_alloc by apply (rep_root _ _ _ Hrep).
  rewrite (ring_nx_root _ _ _ Hr). cbn [bindR].
  destruct A as [|a A0].
  - simpl. rewrite decide_True by done. exists s. split; [done|].
    by apply (unchanged_state mem_limit s l (e :: B)).
  - simpl hd. rewrite decide_False.
    + apply (move_state mem_limit s l (a :: A0) e B [] ((a :: A0) ++ B)); done.
    + intros [= ->]. apply ring_NoDup in Hr. apply NoDup_cons in Hr as [_ Hr].
      apply NoDup_cons in Hr as [Hr _]. set_solver.
Qed.

(** X10: [MoveToBack] of a node [e] of the list makes [e] the last node
    and keeps the order of the others; values, owners, [Len] and the other
    lists are unchanged, and nothing is allocated. *)
Theorem MoveToBack_places mem_limit s l A e B :
  Z.of_nat mem_limit < 2 ^ 63 → inv mem_limit s → list_rep s l (A ++ e :: B) →
  ∃ s',
    MoveToBack s (Some l) (Some e) = Done s' ∧
    inv mem_limit s' ∧ list_rep s' l (A ++ B ++ [e]) ∧
    same_data (elems s) (elems s') ∧ lens s' = lens s ∧ brk s' = brk s ∧
    (∀ l' ns', l' ≠ l → list_rep s l' ns' → list_rep s' l' ns').
Proof.
  intros Hlimit Hinv Hrep.
  assert (e ∈ A ++ e :: B) as Hin by set_solver.
  assert (ring (elems s) l (A ++ e :: B)) as Hr.
  { apply list_rep_ring; [done|]. by destruct A. }
  unfold MoveToBack. rewrite (owned_get_list _ _ _ _ Hrep Hin). cbn [bindR].
  rewrite decide_False by (intros Hc; by apply Hc).
  rewrite get_prev_alloc by apply (rep_root _ _ _ Hrep).
  rewrite (ring_pv_root _ _ _ Hr). cbn [bindR].
  destruct B as [|b B0].
  - rewrite lastd_snoc. rewrite decide_True by done. exists s. split; [done|].
    by apply (unchanged_state mem_limit s l (A ++ [e])).
  - rewrite lastd_app_cons. simpl lastd. rewrite decide_False.
    + cbn [bindR]. rewrite <- (lastd_app_cons l A b B0).
      destruct (move_state mem_limit s l A e (b :: B0) (A ++ b :: B0) [])
        as (s' & Hmv & Hinv' & Hrep' & Hrest); [done|done|done|by rewrite app_nil_r|].
      exists s'. split; [done|]. split; [done|]. split; [|done].
      by rewrite <- app_assoc in Hrep'.
    + intros [= E]. apply ring_NoDup in Hr. apply NoDup_cons in Hr as [_ Hr].
      apply NoDup_app in Hr as (_ & _ & Hr). apply NoDup_cons in Hr as [Hr _].
      apply Hr. rewrite <- E. apply (lastd_elem b B0).
Qed.

(** X11: [MoveAfter] of a node [e] with a mark that is another node of
    the same list puts [e] immediately after the mark and keeps the order of
    the others; values, owners, [Len] and the other lists are unchanged. *)
Theorem MoveAfter_places mem_limit s l A e B P mark Q :
  Z.of_nat mem_limit < 2 ^ 63 → inv mem_limit s → list_rep s l (A ++ e :: B) →
  A ++ B = P ++ mark :: Q →
  ∃ s',
    MoveAfter s (Some l) (Some e) (Some mark) = Done s' ∧
    inv mem_limit s' ∧ list_rep s' l (P ++ mark :: e :: Q) ∧
    same_data (elems s) (elems s') ∧ lens s' = lens s ∧ brk s' = brk s ∧
    (∀ l' ns', l' ≠ l → list_rep s l' ns' → list_rep s' l' ns').
Proof.
  intros Hlimit Hinv Hrep HAB.
  assert (e ∈ A ++ e :: B) as Hin by set_solver.
  assert (ring (elems s) l (A ++ e :: B)) as Hr.
  { apply list_rep_ring; [done|]. by destruct A. }
  assert (mark ∈ A ++ B) as Hm by (rewrite HAB; set_solver).
  assert (mark ∈ A ++ e :: B) as Hm' by set_solver.
  assert (e ≠ mark) as Hne.
  { intros ->. apply ring_NoDup, NoDup_mid_notin in Hr. apply Hr. by right. }
  unfold MoveAfter. rewrite (owned_get_list _ _ _ _ Hrep Hin). cbn [bindR].
  rewrite decide_False by (intros Hc; by apply Hc).
  rewrite decide_False by congruence.
  rewrite (owned_get_list _ _ _ _ Hrep Hm'). cbn [bindR].
  rewrite decide_False by (intros Hc; by apply Hc).
  destruct (move_state mem_limit s l A e B (P ++ [mark]) Q)
    as (s' & Hmv & Hinv' & Hrep' & Hrest); [done|done|done|by rewrite <- app_assoc|].
  rewrite lastd_snoc in Hmv. rewrite <- app_assoc in Hrep'.
  exists s'. done.
Qed.

(** The node before [mark], in a ring from which [e] is thought away. *)
Lemma pv_skip h l A e B P mark Q :
  ring h l (A ++ e :: B) → A ++ B = P ++ mark :: Q →
  (pv h mark = Some e ∧ A ++ e :: B = P ++ e :: mark :: Q) ∨
  pv h mark = Some (lastd l P).
Proof.
  intros Hr HAB. apply app_eq_app in HAB as [L [[-> HL]|[-> ->]]].
  - destruct L as [|m L].
    + simpl in HL. subst B. left. rewrite app_nil_r in *. split; [|done].
      assert (ring h l ((P ++ [e]) ++ mark :: Q)) as Hr' by (by rewrite <- app_assoc).
      rewrite (ring_pv _ _ _ _ _ Hr'). by rewrite lastd_snoc.
    + injection HL as <- ->. right. rewrite <- app_assoc in Hr. simpl in Hr.
      by rewrite (ring_pv _ _ _ _ _ Hr).
  - destruct L as [|m L].
    + left. rewrite app_nil_r in *. simpl in *. split; [|done].
      assert (ring h l ((A ++ [e]) ++ mark :: Q)) as Hr' by (by rewrite <- app_assoc).
      rewrite (ring_pv _ _ _ _ _ Hr'). by rewrite lastd_snoc.
    + right.
      assert (ring h l ((A ++ e :: m :: L) ++ mark :: Q)) as Hr'.
      { by rewrite <- app_assoc. }
      rewrite (ring_pv _ _ _ _ _ Hr'). by rewrite !lastd_app_cons.
Qed.

(** X12: [MoveBefore] of a node [e] with a mark that is another node of
    the same list puts [e] immediately before the mark and keeps the order
    of the others; values, owners, [Len] and the other lists are unchanged. *)
Theorem MoveBefore_places mem_limit s l A e B P mark Q :
  Z.of_nat mem_limit < 2 ^ 63 → inv mem_limit s → list_rep s l (A ++ e :: B) →
  A ++ B = P ++ mark :: Q →
  ∃ s',
    MoveBefore s (Some l) (Some e) (Some mark) = Done s' ∧
    inv mem_limit s' ∧ list_rep s' l (P ++ e :: mark :: Q) ∧
    same_data (elems s) (elems s') ∧ lens s' = lens s ∧ brk s' = brk s ∧
    (∀ l' ns', l' ≠ l → list_rep s l' ns' → list_rep s' l' ns').
Proof.
  intros Hlimit Hinv Hrep HAB.
  assert (e ∈ A ++ e :: B) as Hin by set_solver.
  assert (ring (elems s) l (A ++ e :: B)) as Hr.
  { apply list_rep_ring; [done|]. by destruct A. }
  assert (mark ∈ A ++ B) as Hm by (rewrite HAB; set_solver).
  assert (mark ∈ A ++ e :: B) as Hm' by set_solver.
  assert (e ≠ mark) as Hne.
  { intros ->. apply ring_NoDup, NoDup_mid_notin in Hr. apply Hr. by right. }
  unfold MoveBefore. rewrite (owned_get_list _ _ _ _ Hrep Hin). cbn [bindR].
  rewrite decide_False by (intros Hc; by apply Hc).
  rewrite decide_False by congruence.
  rewrite (owned_get_list _ _ _ _ Hrep Hm'). cbn [bindR].
  rewrite decide_False by (intros Hc; by apply Hc).
  rewrite get_prev_alloc by (by eapply list_rep_alloc).
  destruct (pv_skip _ _ _ _ _ _ _ _ Hr HAB) as [[Hpv Heq]| Hpv]; rewrite Hpv; cbn [bindR].
  - unfold move. rewrite decide_True by done. cbn [bindR]. rewrite with_elems_id.
    exists s. split; [done|]. rewrite <- Heq.
    by apply (unchanged_state mem_limit s l (A ++ e :: B)).
  - by apply (move_state mem_limit s l A e B P (mark :: Q)).
Qed.

End Moves.

Section Construction.
Context {T : Type}.
Implicit Types (s : @State T) (h : gmap nat (@Element T)) (a b c d e x y l : nat)
  (A B ns : list nat) (vs : list T).

(** X13: [New] returns a list at an address that held nothing before;
    the list is empty and initialised ([Len] is 0, [Front] and [Back] are
    nil, the sentinel is linked to itself), every list that existed before
    is as it was, and the memory stays well formed. *)
Theorem New_empty (zero : T) mem_limit s :
  inv mem_limit s → (brk s < mem_limit)%nat →
  ∃ s' l,
    New zero mem_limit s = Done (s', Some l) ∧
    elems s !! l = None ∧ lens s !! l = None ∧
    inv mem_limit s' ∧ list_rep s' l [] ∧ ring (elems s') l [] ∧
    Len s' (Some l) = Done 0 ∧
    Front s' (Some l) = Done None ∧ Back s' (Some l) = Done None ∧
    (∀ l' ns', list_rep s l' ns' → list_rep s' l' ns').
Proof.
  intros Hinv Hb.
  destruct (inv_fresh mem_limit s Hinv) as [Hf1 Hf2].
  destruct (New zero mem_limit s) as [[s' p]|f] eqn:Hnew; cycle 1.
  { exfalso. unfold New, new_List in Hnew. rewrite decide_True in Hnew by done.
    cbn [bindR] in Hnew. unfold Init in Hnew. cbn [elems] in Hnew.
    rewrite set_next_alloc in Hnew by (by rewrite lookup_insert_eq).
    cbn [bindR] in Hnew.
    rewrite set_prev_alloc in Hnew
      by (rewrite lookup_alter_is_Some; by rewrite lookup_insert_eq).
    cbn [bindR] in Hnew. unfold set_len, with_elems in Hnew. cbn [lens brk] in Hnew.
    rewrite lookup_insert_eq in Hnew. done. }
  pose proof (New_inv zero mem_limit s (s', p) Hinv Hnew) as Hinv'. simpl in Hinv'.
  unfold New, new_List in Hnew. rewrite decide_True in Hnew by done.
  cbn [bindR] in Hnew. unfold Init in Hnew. cbn [elems] in Hnew.
  rewrite set_next_alloc in Hnew by (by rewrite lookup_insert_eq).
  cbn [bindR] in Hnew.
  rewrite set_prev_alloc in Hnew
    by (rewrite lookup_alter_is_Some; by rewrite lookup_insert_eq).
  cbn [bindR] in Hnew. unfold set_len, with_elems in Hnew. cbn [lens brk] in Hnew.
  rewrite lookup_insert_eq in Hnew. cbn [bindR] in Hnew.
  injection Hnew as <- <-.
  set (h0 := <[brk s:=mkElement None None None zero]> (elems s)) in *.
  set (s' := mkState _ _ _) in *.
  assert (is_Some (h0 !! brk s)) as Hal0 by (unfold h0; by rewrite lookup_insert_eq).
  assert (lens s' !! brk s = Some 0) as Hlen by (simpl; by rewrite lookup_insert_eq).
  destruct (inv_lists _ _ Hinv' (brk s)) as [ns Hrep].
  { unfold is_list. by rewrite Hlen. }
  assert (ns = []) as ->.
  { pose proof (rep_len _ _ _ Hrep) as E. rewrite Hlen in E. injection E as E.
    destruct ns; [done|simpl in E; lia]. }
  assert (ring (elems s') (brk s) []) as Hr.
  { destruct (rep_ring _ _ _ Hrep) as [?|[_ Hz]]; [done|]. exfalso. revert Hz.
    simpl. heap_simpl. done. }
  exists s', (brk s). split; [done|]. split; [done|]. split; [done|].
  split; [done|]. split; [done|]. split; [done|].
  split; [by rewrite (Len_rep _ _ _ Hrep)|].
  split; [by rewrite (Front_rep_any _ _ _ Hrep)|].
  split; [by rewrite (Back_rep_any _ _ _ Hrep)|].
  intros l' ns' Hrep'. apply (fresh_frame mem_limit s s' l' ns' Hinv Hrep').
  - intros x Hx. simpl. rewrite !lookup_alter_ne by done. unfold h0.
    by rewrite lookup_insert_ne.
  - intros x Hx. simpl. by rewrite !lookup_insert_ne.
  - simpl. heap_simpl. unfold owner, h0. by rewrite lookup_insert_eq.
Qed.

End Construction.

Section CopyLists.
Context {T : Type}.
Implicit Types (s : @State T) (h : gmap nat (@Element T)) (a b c d e x y l : nat)
  (A B N ns : list nat) (vs : list T).

Lemma Forall2_copy_transfer h h1 h' (L N : list nat) :
  Forall2 (λ x y, value_of h' y = value_of h1 x) L N →
  (∀ x, x ∈ L → value_of h1 x = value_of h x) →
  Forall2 (λ x y, value_of h' y = value_of h x) L N.
Proof.
  induction 1 as [|x y L N Hxy _ IH]; intros Heq; constructor.
  - rewrite Hxy. apply Heq. left.
  - apply IH. intros z Hz. apply Heq. by right.
Qed.

Lemma Forall2_copy_values h h' (L N : list nat) vs :
  Forall2 (λ x y, value_of h' y = value_of h x) L N →
  Forall2 (λ x v, value_of h x = Some v) L vs →
  Forall2 (λ y v, value_of h' y = Some v) N vs.
Proof.
  intros H. revert vs. induction H as [|x y L N Hxy _ IH]; intros vs Hvs.
  - apply Forall2_nil_inv_l in Hvs as ->. constructor.
  - apply Forall2_cons_inv_l in Hvs as (v & vs' & Hv & Hvs & ->).
    constructor; [by rewrite Hxy|by apply IH].
Qed.

(** The other list, after a node was linked into [l]. *)
Lemma other_after_insert s s1 l other nl nl1 no :
  list_rep s l nl → list_rep s other no → list_rep s1 l nl1 →
  (∀ l' ns', l' ≠ l → list_rep s l' ns' → list_rep s1 l' ns') →
  list_rep s1 other (if decide (other = l) then nl1 else no) ∧
  (other = l → no = nl).
Proof.
  intros Hrep Hno Hrep1 Hframe. case_decide as Ho.
  - subst other. split; [done|]. intros _. by eapply list_rep_unique.
  - split; [by apply Hframe|done].
Qed.

Lemma PushBackList_loop_spec mem_limit l other :
  Z.of_nat mem_limit < 2 ^ 63 →
  ∀ Bp s nl A Bs,
    inv mem_limit s → list_rep s l nl → ring (elems s) l nl →
    list_rep s other (A ++ Bp ++ Bs) → (brk s + length Bp ≤ mem_limit)%nat →
    ∃ s' N,
      PushBackList_loop mem_limit (length Bp) s (Some l) (head (Bp ++ Bs)) = Done s' ∧
      inv mem_limit s' ∧ list_rep s' l (nl ++ N) ∧
      (∀ y, y ∈ N → elems s !! y = None) ∧
      Forall2 (λ x y, value_of (elems s') y = value_of (elems s) x) Bp N ∧
      (∀ x, is_Some (elems s !! x) → value_of (elems s') x = value_of (elems s) x) ∧
      (∀ l' ns', l' ≠ l → list_rep s l' ns' → list_rep s' l' ns').
Proof.
  intros Hlimit. induction Bp as [|x Bp IH]; intros s nl A Bs Hinv Hrep Hr Hno Hb.
  - exists s, []. simpl. rewrite app_nil_r. split; [done|]. split; [done|].
    split; [done|]. split; [by intros y ?%elem_of_nil|]. split; [constructor|]. done.
  - cbn [length app head PushBackList_loop].
    assert (x ∈ A ++ (x :: Bp) ++ Bs) as Hx by set_solver.
    destruct (list_rep_alloc _ _ _ _ Hno Hx) as [el Hel].
    assert (value_of (elems s) x = Some (Value el)) as Hvx.
    { unfold value_of. by rewrite Hel. }
    rewrite (get_Value_alloc _ _ (Value el)) by done. cbn [bindR].
    rewrite get_prev_alloc by apply (rep_root _ _ _ Hrep).
    rewrite (ring_pv_root _ _ _ Hr). cbn [bindR].
    assert (list_rep s l (nl ++ [])) as Hrep0 by (by rewrite app_nil_r).
    assert (ring (elems s) l (nl ++ [])) as Hr0 by (by rewrite app_nil_r).
    destruct (insertValue_rep mem_limit Hlimit s l nl [] (Value el) Hinv Hrep0 Hr0)
      as (s1 & Hins & Hinv1 & Hrep1 & Hframe1 & _ & Hnew & Hold & _ & Hbrk1).
    { simpl in Hb. lia. }
    rewrite Hins. cbn [bindR].
    destruct (inv_fresh mem_limit s Hinv) as [Hfresh _].
    assert (∀ z, is_Some (elems s !! z) →
              value_of (elems s1) z = value_of (elems s) z ∧ is_Some (elems s1 !! z))
      as Hmono.
    { intros z Hz. assert (value_of (elems s1) z = value_of (elems s) z) as E.
      { apply Hold. by eapply inv_allocated_lt. }
      split; [done|]. apply value_of_is_Some. rewrite E. by apply value_of_is_Some. }
    destruct (other_after_insert s s1 l other nl (nl ++ [brk s]) _ Hrep Hno Hrep1 Hframe1)
      as [Hno1 Heq].
    assert (∃ Bs1, list_rep s1 other (A ++ x :: Bp ++ Bs1)) as (Bs1 & Hno1').
    { case_decide as Ho.
      - exists (Bs ++ [brk s]). rewrite <- (Heq Ho) in Hno1.
        rewrite <- !app_assoc in Hno1. by simpl in Hno1.
      - by exists Bs. }
    assert (ring (elems s1) other (A ++ x :: Bp ++ Bs1)) as Hro1.
    { apply list_rep_ring; [done|]. by destruct A. }
    rewrite (Next_ring _ _ _ _ _ Hro1)
      by (apply (rep_owned _ _ _ Hno1'); set_solver).
    cbn [bindR].
    destruct (IH s1 (nl ++ [brk s]) (A ++ [x]) Bs1) as
      (s' & N1 & Hloop & Hinv' & Hrep' & HfreshN & Hcopy & Hvals & Hframe');
      [done|done| | | |].
    { apply list_rep_ring; [done|]. by destruct nl. }
    { by rewrite <- app_assoc. }
    { rewrite Hbrk1. simpl in Hb. lia. }
    exists s', (brk s :: N1). split; [done|]. split; [done|].
    split; [by rewrite <- app_assoc in Hrep'|]. split; [|split; [|split]].
    + intros y Hy. apply elem_of_cons in Hy as [->|Hy]; [done|].
      destruct (elems s !! y) eqn:E; [|done].
      destruct (Hmono y) as [_ [? Hs1]]; [by rewrite E|].
      rewrite (HfreshN y Hy) in Hs1. done.
    + constructor.
      * rewrite Hvals by (apply value_of_is_Some; rewrite Hnew; eauto).
        by rewrite Hnew, Hvx.
      * apply (Forall2_copy_transfer (elems s) (elems s1)); [done|].
        intros z Hz. apply Hmono. apply (list_rep_alloc _ _ _ _ Hno). set_solver.
    + intros z Hz. destruct (Hmono z Hz) as [E Hz1]. by rewrite Hvals, E.
    + intros l' ns' Hne Hrep0'. by apply Hframe', Hframe1.
Qed.

(** X14: [PushBackList] appends to [l] one new element for every node of
    [other], in order and with the same values: the values of [l] become
    the old values of [l] followed by the values of [other].  The new
    elements are fresh, no existing element changes its value, and every
    list other than [l] (also [other], when it is not [l]) is as it was.
    With [other == l] the list is doubled. *)
Theorem PushBackList_copies mem_limit s l other nl no :
  Z.of_nat mem_limit < 2 ^ 63 → inv mem_limit s →
  list_rep s l nl → list_rep s other no →
  (brk s + length no ≤ mem_limit)%nat →
  ∃ s' N,
    PushBackList mem_limit s (Some l) (Some other) = Done s' ∧
    inv mem_limit s' ∧ list_rep s' l (nl ++ N) ∧
    (∀ y, y ∈ N → elems s !! y = None) ∧
    Forall2 (λ x y, value_of (elems s') y = value_of (elems s) x) no N ∧
    (∀ x, is_Some (elems s !! x) → value_of (elems s') x = value_of (elems s) x) ∧
    (∀ l' ns', l' ≠ l → list_rep s l' ns' → list_rep s' l' ns') ∧
    (∀ n vl vo, (length nl + length no ≤ n)%nat →
       Values n s (Some l) = Done vl → Values n s (Some other) = Done vo →
       Values n s' (Some l) = Done (vl ++ vo)).
Proof.
  intros Hlimit Hinv Hrep Hno Hb.
  destruct (lazyInit_full mem_limit s l nl Hlimit Hinv Hrep)
    as (s0 & Hli & Hinv0 & Hrep0 & Hr0 & Hframe0 & Hbrk0 & Hlens0 & Hsd0 & Hout0 & _).
  assert (list_rep s0 other no) as Hno0.
  { destruct (decide (other = l)) as [->|Hne]; [|by apply Hframe0].
    by rewrite (list_rep_unique _ _ _ _ Hno Hrep). }
  assert (∀ x, elems s0 !! x = None ↔ elems s !! x = None) as Hdom.
  { intros x. rewrite !eq_None_not_Some.
    by rewrite (same_data_alloc (elems s) (elems s0)). }
  destruct (PushBackList_loop_spec mem_limit l other Hlimit no s0 nl [] [])
    as (s' & N & Hloop & Hinv' & Hrep' & Hfresh & Hcopy & Hvals & Hframe);
    [done|done|done|by rewrite app_nil_r|lia|].
  rewrite app_nil_r in Hloop.
  assert (Forall2 (λ x y, value_of (elems s') y = value_of (elems s) x) no N) as Hcopy'.
  { apply (Forall2_copy_transfer (elems s) (elems s0)); [done|].
    intros x _. apply Hsd0. }
  assert (∀ x, is_Some (elems s !! x) → value_of (elems s') x = value_of (elems s) x)
    as Hvals'.
  { intros x Hx. rewrite Hvals by (by apply (same_data_alloc (elems s) (elems s0))).
    apply Hsd0. }
  exists s', N. split.
  { unfold PushBackList. rewrite Hli. cbn [bindR].
    rewrite (Len_rep _ _ _ Hno0), (Front_rep_any _ _ _ Hno0). cbn [bindR].
    by rewrite Nat2Z.id. }
  split; [done|]. split; [done|]. split; [intros y Hy; by apply Hdom, Hfresh|].
  split; [done|]. split; [done|]. split.
  { intros l' ns' Hne Hrep1. by apply Hframe, Hframe0. }
  intros n vl vo Hn Hvl Hvo.
  apply (Values_Forall2 n s l nl vl Hrep) in Hvl; [|lia].
  apply (Values_Forall2 n s other no vo Hno) in Hvo; [|lia].
  apply (Values_Forall2 n s' l (nl ++ N) (vl ++ vo) Hrep').
  { rewrite length_app, <- (Forall2_length _ _ _ Hcopy'). lia. }
  apply Forall2_app.
  - apply (Forall2_values_transfer (elems s)); [done|].
    intros x Hx. apply Hvals'. by apply (list_rep_alloc _ _ _ _ Hrep).
  - by apply (Forall2_copy_values (elems s) (elems s') no N vo).
Qed.

Lemma PushFrontList_loop_spec mem_limit l other :
  Z.of_nat mem_limit < 2 ^ 63 →
  ∀ i As, length As = i → ∀ s nl Ap B,
    inv mem_limit s → list_rep s l nl → ring (elems s) l nl →
    list_rep s other (Ap ++ As ++ B) → (brk s + i ≤ mem_limit)%nat →
    ∃ s' N,
      PushFrontList_loop mem_limit i s (Some l) (last (Ap ++ As)) = Done s' ∧
      inv mem_limit s' ∧ list_rep s' l (N ++ nl) ∧
      (∀ y, y ∈ N → elems s !! y = None) ∧
      Forall2 (λ x y, value_of (elems s') y = value_of (elems s) x) As N ∧
      (∀ x, is_Some (elems s !! x) → value_of (elems s') x = value_of (elems s) x) ∧
      (∀ l' ns', l' ≠ l → list_rep s l' ns' → list_rep s' l' ns').
Proof.
  intros Hlimit. induction i as [|i IH]; intros As Hlen s nl Ap B Hinv Hrep Hr Hno Hb.
  - destruct As; [|done]. exists s, []. simpl. split; [done|]. split; [done|].
    split; [done|]. split; [by intros y ?%elem_of_nil|]. split; [constructor|]. done.
  - assert (As ≠ []) as HAs by (intros ->; done).
    destruct (exists_last HAs) as (As0 & x & ->).
    rewrite length_app in Hlen. simpl in Hlen.
    rewrite app_assoc, last_snoc. cbn [PushFrontList_loop].
    assert (Ap ++ (As0 ++ [x]) ++ B = (Ap ++ As0) ++ x :: B) as Eno.
    { by rewrite <- !app_assoc. }
    rewrite Eno in Hno.
    assert (x ∈ (Ap ++ As0) ++ x :: B) as Hx by set_solver.
    destruct (list_rep_alloc _ _ _ _ Hno Hx) as [el Hel].
    assert (value_of (elems s) x = Some (Value el)) as Hvx.
    { unfold value_of. by rewrite Hel. }
    rewrite (get_Value_alloc _ _ (Value el)) by done. cbn [bindR].
    destruct (insertValue_rep mem_limit Hlimit s l [] nl (Value el) Hinv Hrep Hr)
      as (s1 & Hins & Hinv1 & Hrep1 & Hframe1 & _ & Hnew & Hold & _ & Hbrk1); [lia|].
    simpl in Hins, Hrep1. rewrite Hins. cbn [bindR].
    destruct (inv_fresh mem_limit s Hinv) as [Hfresh _].
    assert (∀ z, is_Some (elems s !! z) →
              value_of (elems s1) z = value_of (elems s) z ∧ is_Some (elems s1 !! z))
      as Hmono.
    { intros z Hz. assert (value_of (elems s1) z = value_of (elems s) z) as E.
      { apply Hold. by eapply inv_allocated_lt. }
      split; [done|]. apply value_of_is_Some. rewrite E. by apply value_of_is_Some. }
    destruct (other_after_insert s s1 l other nl (brk s :: nl) _ Hrep Hno Hrep1 Hframe1)
      as [Hno1 Heq].
    assert (∃ Ap1, list_rep s1 other ((Ap1 ++ As0) ++ x :: B)) as (Ap1 & Hno1').
    { case_decide as Ho.
      - exists (brk s :: Ap). rewrite <- (Heq Ho) in Hno1. by simpl.
      - by exists Ap. }
    assert (ring (elems s1) other ((Ap1 ++ As0) ++ x :: B)) as Hro1.
    { apply list_rep_ring; [done|]. by destruct (Ap1 ++ As0). }
    rewrite (Prev_ring _ _ _ _ _ Hro1)
      by (apply (rep_owned _ _ _ Hno1'); set_solver).
    cbn [bindR].
    destruct (IH As0 ltac:(lia) s1 (brk s :: nl) Ap1 (x :: B)) as
      (s' & N1 & Hloop & Hinv' & Hrep' & HfreshN & Hcopy & Hvals & Hframe');
      [done|done| | | |].
    { by apply list_rep_ring. }
    { by rewrite <- app_assoc in Hno1'. }
    { rewrite Hbrk1. lia. }
    exists s', (N1 ++ [brk s]). split; [done|]. split; [done|].
    split; [by rewrite <- app_assoc|]. split; [|split; [|split]].
    + intros y Hy. apply elem_of_app in Hy as [Hy|Hy].
      * destruct (elems s !! y) eqn:E; [|done].
        destruct (Hmono y) as [_ [? Hs1]]; [by rewrite E|].
        rewrite (HfreshN y Hy) in Hs1. done.
      * by apply list_elem_of_singleton in Hy as ->.
    + apply Forall2_app.
      * apply (Forall2_copy_transfer (elems s) (elems s1)); [done|].
        intros z Hz. apply Hmono. apply (list_rep_alloc _ _ _ _ Hno). set_solver.
      * constructor; [|constructor].
        rewrite Hvals by (apply value_of_is_Some; rewrite Hnew; eauto).
        by rewrite Hnew, Hvx.
    + intros z Hz. destruct (Hmono z Hz) as [E Hz1]. by rewrite Hvals, E.
    + intros l' ns' Hne Hrep0'. by apply Hframe', Hframe1.
Qed.

(** X15: [PushFrontList] puts in front of [l] one new element for every
    node of [other], in order and with the same values: the values of [l]
    become the values of [other] followed by the old values of [l].  The
    new elements are fresh, no existing element changes its value, and
    every list other than [l] is as it was. *)
Theorem PushFrontList_copies mem_limit s l other nl no :
  Z.of_nat mem_limit < 2 ^ 63 → inv mem_limit s →
  list_rep s l nl → list_rep s other no →
  (brk s + length no ≤ mem_limit)%nat →
  ∃ s' N,
    PushFrontList mem_limit s (Some l) (Some other) = Done s' ∧
    inv mem_limit s' ∧ list_rep s' l (N ++ nl) ∧
    (∀ y, y ∈ N → elems s !! y = None) ∧
    Forall2 (λ x y, value_of (elems s') y = value_of (elems s) x) no N ∧
    (∀ x, is_Some (elems s !! x) → value_of (elems s') x = value_of (elems s) x) ∧
    (∀ l' ns', l' ≠ l → list_rep s l' ns' → list_rep s' l' ns') ∧
    (∀ n vl vo, (length nl + length no ≤ n)%nat →
       Values n s (Some l) = Done vl → Values n s (Some other) = Done vo →
       Values n s' (Some l) = Done (vo ++ vl)).
Proof.
  intros Hlimit Hinv Hrep Hno Hb.
  destruct (lazyInit_full mem_limit s l nl Hlimit Hinv Hrep)
    as (s0 & Hli & Hinv0 & Hrep0 & Hr0 & Hframe0 & Hbrk0 & Hlens0 & Hsd0 & Hout0 & _).
  assert (list_rep s0 other no) as Hno0.
  { destruct (decide (other = l)) as [->|Hne]; [|by apply Hframe0].
    by rewrite (list_rep_unique _ _ _ _ Hno Hrep). }
  assert (∀ x, elems s0 !! x = None ↔ elems s !! x = None) as Hdom.
  { intros x. rewrite !eq_None_not_Some.
    by rewrite (same_data_alloc (elems s) (elems s0)). }
  destruct (PushFrontList_loop_spec mem_limit l other Hlimit (length no) no eq_refl
              s0 nl [] [])
    as (s' & N & Hloop & Hinv' & Hrep' & Hfresh & Hcopy & Hvals & Hframe);
    [done|done|done|by rewrite app_nil_r|lia|].
  simpl in Hloop.
  assert (Forall2 (λ x y, value_of (elems s') y = value_of (elems s) x) no N) as Hcopy'.
  { apply (Forall2_copy_transfer (elems s) (elems s0)); [done|].
    intros x _. apply Hsd0. }
  assert (∀ x, is_Some (elems s !! x) → value_of (elems s') x = value_of (elems s) x)
    as Hvals'.
  { intros x Hx. rewrite Hvals by (by apply (same_data_alloc (elems s) (elems s0))).
    apply Hsd0. }
  exists s', N. split.
  { unfold PushFrontList. rewrite Hli. cbn [bindR].
    rewrite (Len_rep _ _ _ Hno0), (Back_rep_any _ _ _ Hno0). cbn [bindR].
    by rewrite Nat2Z.id. }
  split; [done|]. split; [done|]. split; [intros y Hy; by apply Hdom, Hfresh|].
  split; [done|]. split; [done|]. split.
  { intros l' ns' Hne Hrep1. by apply Hframe, Hframe0. }
  intros n vl vo Hn Hvl Hvo.
  apply (Values_Forall2 n s l nl vl Hrep) in Hvl; [|lia].
  apply (Values_Forall2 n s other no vo Hno) in Hvo; [|lia].
  apply (Values_Forall2 n s' l (N ++ nl) (vo ++ vl) Hrep').
  { rewrite length_app, <- (Forall2_length _ _ _ Hcopy'). lia. }
  apply Forall2_app.
  - by apply (Forall2_copy_values (elems s) (elems s') no N vo).
  - apply (Forall2_values_transfer (elems s)); [done|].
    intros x Hx. apply Hvals'. by apply (list_rep_alloc _ _ _ _ Hrep).
Qed.

End CopyLists.

Section SortExtras.
Context {T : Type}.
Implicit Types (s : @State T) (h : gmap nat (@Element T)) (a b c d e x y l : nat)
  (A B ns : list nat) (vs : list T) (cmp : T → T → Z).

(** X16: [QuickSort] of one list, with any comparator, writes only to the
    sentinel and the nodes of that list: every other element of the memory,
    and so every other list, is exactly as it was; nothing is allocated and
    no [len] changes. *)
Theorem QuickSort_frame cmp n s l ns l' ns' :
  list_rep s l ns → list_rep s l' ns' → l' ≠ l → (length ns < n)%nat →
  ∃ s',
    QuickSort cmp n s (Some l) = Done s' ∧
    (∀ x, x ∉ l :: ns → elems s' !! x = elems s !! x) ∧
    (∀ x, x ∈ l' :: ns' → elems s' !! x = elems s !! x) ∧
    list_rep s' l' ns' ∧ lens s' = lens s ∧ brk s' = brk s.
Proof.
  intros Hrep Hrep' Hne Hn. destruct (list_rep_values _ _ _ Hrep) as [V Hv].
  destruct (QuickSort_spec cmp V n s l ns Hrep Hv Hn)
    as (s' & ns1 & Hq & Hrep1 & _ & Hperm & Hsd & Hout & Hlens & Hbrk & _).
  exists s'. split; [done|]. split; [done|].
  assert (∀ x, x ∈ l' :: ns' → elems s' !! x = elems s !! x) as Hsame.
  { intros x Hx. apply Hout. intros Hx'.
    exact (list_rep_disjoint s l ns l' ns' x Hrep Hrep' (not_eq_sym Hne) Hx' Hx). }
  split; [done|]. split; [|done].
  apply (list_rep_frame s); [done|done| |by rewrite Hlens].
  intros x. by destruct (Hsd x) as [_ ->].
Qed.

Lemma cmp_le_transitive cmp : valid_cmp cmp → Transitive (λ va vb : T, cmp va vb <= 0).
Proof. intros Hc ? ? ?. apply (cmp_trans _ Hc). Qed.

Lemma StronglySorted_lookup {X} (R : X → X → Prop) (xs : list X) i j (a b : X) :
  StronglySorted R xs → (i < j)%nat → xs !! i = Some a → xs !! j = Some b → R a b.
Proof.
  intros Hs. revert i j. induction Hs as [|x xs Hs IH Hall]; intros i j Hij Hi Hj.
  - by rewrite lookup_nil in Hi.
  - destruct j as [|j]; [lia|]. simpl in Hj. destruct i as [|i].
    + simpl in Hi. injection Hi as ->. rewrite Forall_forall in Hall.
      apply Hall. by eapply list_elem_of_lookup_2.
    + simpl in Hi. apply (IH i j); [lia|done|done].
Qed.

(** X17: after [QuickSort] with a valid comparator every value of the
    traversal is ordered with every later one, not only with its neighbour:
    for positions [i < j] with values [a] and [b], [cmp a b <= 0]. *)
Theorem QuickSort_all_pairs cmp n s l ns :
  valid_cmp cmp → list_rep s l ns → (length ns < n)%nat →
  ∃ s' vs,
    QuickSort cmp n s (Some l) = Done s' ∧ Values n s' (Some l) = Done vs ∧
    ∀ (i j : nat) (va vb : T),
      (i < j)%nat → vs !! i = Some va → vs !! j = Some vb → cmp va vb <= 0.
Proof.
  intros Hc Hrep Hn. destruct (list_rep_values _ _ _ Hrep) as [V Hv].
  destruct (QuickSort_spec cmp V n s l ns Hrep Hv Hn)
    as (s' & ns' & Hq & Hrep' & _ & Hperm & Hsd & _ & _ & _ & Hsort & _).
  exists s', (V <$> ns'). split; [done|]. split.
  - apply Values_rep; [done| |rewrite Hperm; lia].
    eapply node_values_same_data; [done|]. intros x Hx. apply Hv. by rewrite <- Hperm.
  - destruct (Hsort Hc) as [Hs _].
    assert (Sorted (λ va vb, cmp va vb <= 0) (V <$> ns')) as Hs'.
    { eapply Sorted_fmap; [|done]. by intros ? ?. }
    apply Sorted_StronglySorted in Hs'; [|by apply cmp_le_transitive].
    intros i j va vb Hij Hi Hj.
    exact (StronglySorted_lookup (λ va vb, cmp va vb <= 0) _ i j va vb Hs' Hij Hi Hj).
Qed.

End SortExtras.

Section SwapTwice.
Context {T : Type}.
Implicit Types (h : gmap nat (@Element T)) (a b c d e x y l : nat) (A C E ns : list nat).

Lemma Element_eq (e1 e2 : @Element T) :
  next e1 = next e2 → prev e1 = prev e2 → list_ e1 = list_ e2 → Value e1 = Value e2 →
  e1 = e2.
Proof. destruct e1, e2. simpl. by intros -> -> -> ->. Qed.

(** Two heaps that hold the same ring, the same data and agree outside
    the ring are equal. *)
Lemma ring_heap_eq h h' l ns :
  ring h l ns → ring h' l ns → same_data h h' → same_outside (l :: ns) h h' → h' = h.
Proof.
  intros Hr Hr' Hsd Hout. apply map_eq. intros x.
  destruct (decide (x ∈ l :: ns)) as [Hx|Hx]; [|by apply Hout].
  assert (nx h' x = nx h x ∧ pv h' x = pv h x) as [Hn Hp].
  { apply elem_of_cons in Hx as [->|Hx].
    - by rewrite (ring_nx_root _ _ _ Hr), (ring_nx_root _ _ _ Hr'),
        (ring_pv_root _ _ _ Hr), (ring_pv_root _ _ _ Hr').
    - apply list_elem_of_split in Hx as (A & B & ->).
      by rewrite (ring_nx _ _ _ _ _ Hr), (ring_nx _ _ _ _ _ Hr'),
        (ring_pv _ _ _ _ _ Hr), (ring_pv _ _ _ _ _ Hr'). }
  destruct (Hsd x) as [Hv Ho].
  destruct (ring_alloc _ _ _ _ Hr Hx) as [e1 He1].
  destruct (ring_alloc _ _ _ _ Hr' Hx) as [e2 He2].
  unfold nx, pv, owner, value_of in *. rewrite He1, He2 in *. simpl in *.
  f_equal. apply Element_eq; congruence.
Qed.

Lemma exchanged_members l A b C d E x :
  x ∈ l :: A ++ d :: C ++ b :: E → x ∈ l :: A ++ b :: C ++ d :: E.
Proof. set_solver. Qed.

Lemma footprint_members l A b C d E x :
  x ∈ [lastd l A; d; hd b C; lastd d C; b; hd l E] →
  x ∈ l :: A ++ d :: C ++ b :: E.
Proof.
  pose proof (lastd_elem l A). pose proof (hd_elem b C).
  pose proof (lastd_elem d C). pose proof (hd_elem l E).
  generalize dependent (lastd l A). generalize dependent (hd b C).
  generalize dependent (lastd d C). generalize dependent (hd l E).
  set_solver.
Qed.

(** X18: exchanging two distinct nodes of a ring twice gives back the
    heap exactly as it was, whichever order the arguments are given in the
    second call, and both calls report the same adjacency. *)
Theorem swap_twice_restores h l ns b d :
  ring h l ns → b ∈ ns → d ∈ ns → b ≠ d →
  ∃ h1 r,
    swap h (Some b) (Some d) = Done (h1, r) ∧
    swap h1 (Some b) (Some d) = Done (h, r) ∧
    swap h1 (Some d) (Some b) = Done (h, r).
Proof.
  intros Hr Hb Hd Hne.
  destruct (two_elements_split ns b d Hb Hd Hne) as [(A & C & E & ->)|(A & C & E & ->)].
  - destruct (swap_ring_forward h l A b C d E Hr) as (h1 & Hs1 & Hr1 & Hsd1 & Hout1).
    destruct (swap_ring_backward h1 l A b C d E Hr1) as (h2 & Hs2 & Hr2 & Hsd2 & Hout2).
    destruct (swap_ring_forward h1 l A d C b E Hr1) as (h3 & Hs3 & Hr3 & Hsd3 & Hout3).
    assert (h2 = h) as ->.
    { apply (ring_heap_eq h h2 l (A ++ b :: C ++ d :: E)); [done|done| |].
      - by eapply same_data_trans.
      - eapply same_outside_trans; [done|].
        eapply same_outside_mono; [|done].
        intros x Hx. by apply exchanged_members, footprint_members. }
    assert (h3 = h) as ->.
    { apply (ring_heap_eq h h3 l (A ++ b :: C ++ d :: E)); [done|done| |].
      - by eapply same_data_trans.
      - eapply same_outside_trans; [done|].
        eapply same_outside_mono; [|done]. intros x. apply exchanged_members. }
    eauto.
  - destruct (swap_ring_backward h l A b C d E Hr) as (h1 & Hs1 & Hr1 & Hsd1 & Hout1).
    destruct (swap_ring_forward h1 l A b C d E Hr1) as (h2 & Hs2 & Hr2 & Hsd2 & Hout2).
    destruct (swap_ring_backward h1 l A d C b E Hr1) as (h3 & Hs3 & Hr3 & Hsd3 & Hout3).
    assert (same_outside (l :: A ++ d :: C ++ b :: E) h h1) as Hout1'.
    { eapply same_outside_mono; [|done]. intros x. apply footprint_members. }
    assert (h2 = h) as ->.
    { apply (ring_heap_eq h h2 l (A ++ d :: C ++ b :: E)); [done|done| |].
      - by eapply same_data_trans.
      - eapply same_outside_trans; [done|].
        eapply same_outside_mono; [|done]. intros x. apply exchanged_members. }
    assert (h3 = h) as ->.
    { apply (ring_heap_eq h h3 l (A ++ d :: C ++ b :: E)); [done|done| |].
      - by eapply same_data_trans.
      - eapply same_outside_trans; [done|].
        eapply same_outside_mono; [|done].
        intros x Hx. by apply exchanged_members, footprint_members. }
    eauto.
Qed.

End SwapTwice.

Section InitPitfall.
Context {T : Type}.
Implicit Types (s : @State T) (h : gmap nat (@Element T)) (a b c d e x y l : nat)
  (A B ns : list nat).

(** X19: [Init] on a list that holds nodes resets the sentinel and sets
    [Len] to 0, so the list reads as empty, but it does not touch the nodes:
    each one still names the list in its [list] field.  [Remove] of such a
    node afterwards is therefore not refused: it runs [remove], and [Len]
    becomes -1. *)
Theorem Init_keeps_owner s l A e B :
  list_rep s l (A ++ e :: B) →
  ∃ s1 s2 w,
    Init s (Some l) = Done s1 ∧
    Len s1 (Some l) = Done 0 ∧ Front s1 (Some l) = Done None ∧
    Back s1 (Some l) = Done None ∧
    owner (elems s1) e = Some l ∧
    Remove s1 (Some l) (Some e) = Done (s2, w) ∧
    value_of (elems s) e = Some w ∧
    Len s2 (Some l) = Done (-1).
Proof.
  intros Hrep.
  assert (ring (elems s) l (A ++ e :: B)) as Hr.
  { apply list_rep_ring; [done|]. by destruct A. }
  assert (e ∈ A ++ e :: B) as Hin by set_solver.
  pose proof (proj1 (rep_owned _ _ _ Hrep e) Hin) as Ho.
  destruct (list_rep_alloc _ _ _ _ Hrep Hin) as [el Hel].
  pose proof (ring_not_root _ _ _ _ _ Hr) as Hel'.
  destruct (rep_root _ _ _ Hrep) as [Hal _].
  pose proof (rep_len _ _ _ Hrep) as Hlen.
  pose proof (ring_NoDup _ _ _ Hr) as Hnd.
  pose proof (NoDup_mid_notin _ _ _ _ Hnd) as Hein.
  assert (lastd l A ∈ l :: A ++ B) as Hata.
  { pose proof (lastd_elem l A). set_solver. }
  assert (hd l B ∈ l :: A ++ B) as Hanb.
  { pose proof (hd_elem l B). set_solver. }
  assert (∀ x, x ∈ l :: A ++ B → x ∈ l :: A ++ e :: B) as Hsub by set_solver.
  unfold Init. exec. unfold set_len, with_elems. cbn [lens elems brk].
  rewrite Hlen.
  set (h1 := alter (with_prev (Some l)) l (alter (with_next (Some l)) l (elems s))).
  set (s1 := mkState h1 _ _).
  assert (lens s1 !! l = Some 0) as Hlen1 by (simpl; by rewrite lookup_insert_eq).
  assert (is_Some (h1 !! e)) as Hale. { unfold h1. alloc_tac. }
  destruct (remove_exec s1 l e (lastd l A) (hd l B) 0)
    as (h2 & Hrem & _ & _ & _ & Hval & _).
  { simpl. unfold h1. heap_simpl. by eapply ring_pv. }
  { simpl. unfold h1. heap_simpl. by eapply ring_nx. }
  { simpl. unfold h1. rewrite !lookup_alter_is_Some. eapply ring_alloc; eauto. }
  { simpl. unfold h1. rewrite !lookup_alter_is_Some. eapply ring_alloc; eauto. }
  { intros E. apply Hein. by rewrite E. }
  { intros E. apply Hein. by rewrite E. }
  { done. }
  assert (value_of (elems s) e = Some (Value el)) as Hv.
  { unfold value_of. by rewrite Hel. }
  assert (owner (elems s1) e = Some l) as Ho1 by (simpl; unfold h1; by heap_simpl).
  eexists s1, _, (Value el). split; [done|].
  split; [unfold Len, get_len; by rewrite Hlen1|].
  split; [unfold Front, get_len; rewrite Hlen1; cbn [bindR]; by rewrite decide_True|].
  split; [unfold Back, get_len; rewrite Hlen1; cbn [bindR]; by rewrite decide_True|].
  split; [done|].
  split.
  { unfold Remove. rewrite get_list_alloc by done. cbn [bindR].
    rewrite Ho1. rewrite decide_True by done.
    rewrite Hrem. cbn [bindR elems].
    rewrite (get_Value_alloc _ _ (Value el)); [done|].
    rewrite Hval. simpl. unfold h1. by heap_simpl. }
  split; [done|].
  unfold Len, get_len. simpl. by rewrite lookup_insert_eq.
Qed.

End InitPitfall.

Section FaultFuel.
Context {T : Type}.
Variable cmp : T → T → Z.
Implicit Types (h : gmap nat (@Element T)) (n k : nat) (p q : option nat) (f : fault).






End FaultFuel.

Section Safety.
Context {T : Type}.
Variable zero : T.
Variable mem_limit : nat.
Hypothesis Hlimit : Z.of_nat mem_limit < 2 ^ 63.
Implicit Types (s : @State T) (h : gmap nat (@Element T)) (a b c d e x y l : nat)
  (A B ns : list nat).



















End Safety.

Section SafetyClaim.
Context {T : Type}.


End SafetyClaim.

Section SortOrder.
Context {T : Type}.
Implicit Types (s : @State T) (h : gmap nat (@Element T)) (x y l : nat)
  (ns : list nat) (cmp : T → T → Z).

(** Two sorted arrangements of the same elements are equal when the order
    is antisymmetric on them. *)
Lemma StronglySorted_perm_eq {X} (R : X → X → Prop) (l1 l2 : list X) :
  StronglySorted R l1 → StronglySorted R l2 → l1 ≡ₚ l2 →
  (∀ u v, u ∈ l1 → v ∈ l1 → R u v → R v u → u = v) →
  l1 = l2.
Proof.
  intros H1. revert l2. induction H1 as [|u l1 H1 IH Hu]; intros l2 H2 Hp Hanti.
  - by apply Permutation_nil_l in Hp.
  - destruct H2 as [|v l2 H2 Hv].
    { by apply Permutation_nil_r in Hp. }
    rewrite Forall_forall in Hu, Hv.
    assert (u = v) as ->.
    { assert (u ∈ v :: l2) as Hin1 by (rewrite <- Hp; left).
      assert (v ∈ u :: l1) as Hin2 by (rewrite Hp; left).
      apply elem_of_cons in Hin1 as [?|Hin1]; [done|].
      apply elem_of_cons in Hin2 as [?|Hin2]; [done|].
      apply Hanti; [left|by right|by apply Hu|by apply Hv]. }
    f_equal. apply IH; [done|by apply Permutation_cons_inv in Hp|].
    intros a b Ha Hb. apply Hanti; by right.
Qed.

Lemma node_le_antisym cmp (V : nat → T) x y :
  valid_cmp cmp → node_le cmp V x y → node_le cmp V y x → cmp (V x) (V y) = 0.
Proof.
  intros Hc Hxy Hyx. unfold node_le in *.
  pose proof (cmp_flip _ Hc (V x) (V y)) as Hf. lia.
Qed.

(** X21: with a valid comparator under which no two nodes of the list
    compare equal, the order after [QuickSort] is determined by the values
    alone: it is the one sorted arrangement of the nodes, whatever order
    the list was in before. *)
Theorem QuickSort_unique_order cmp (V : nat → T) n s l ns sorted :
  valid_cmp cmp → list_rep s l ns → node_values (elems s) V ns →
  (∀ x y, x ∈ ns → y ∈ ns → cmp (V x) (V y) = 0 → x = y) →
  sorted ≡ₚ ns → Sorted (node_le cmp V) sorted → (length ns < n)%nat →
  ∃ s',
    QuickSort cmp n s (Some l) = Done s' ∧ list_rep s' l sorted ∧
    traversal n s' (Some l) = Done sorted ∧
    Values n s' (Some l) = Done (V <$> sorted).
Proof.
  intros Hc Hrep Hv Hties Hperm Hsorted Hn.
  destruct (QuickSort_spec cmp V n s l ns Hrep Hv Hn)
    as (s' & ns' & Hq & Hrep' & _ & Hperm' & Hsd & _ & _ & _ & Hsort & _).
  destruct (Hsort Hc) as [Hs _].
  assert (Transitive (node_le cmp V)) as Htr.
  { intros x y z. unfold node_le. apply (cmp_trans _ Hc). }
  assert (ns' = sorted) as ->.
  { apply (StronglySorted_perm_eq (node_le cmp V)).
    - by apply Sorted_StronglySorted.
    - by apply Sorted_StronglySorted.
    - by rewrite Hperm', Hperm.
    - intros x y Hx Hy Hxy Hyx. rewrite Hperm' in Hx, Hy.
      apply Hties; [done|done|]. by apply node_le_antisym. }
  exists s'. split; [done|]. split; [done|].
  split; [apply traversal_rep; [done|rewrite Hperm; lia]|].
  apply Values_rep; [done| |rewrite Hperm; lia].
  eapply node_values_same_data; [done|]. intros x Hx. apply Hv. by rewrite <- Hperm.
Qed.

(** X22: sorting is idempotent on the memory itself: after one
    [QuickSort] with a valid comparator, a second [QuickSort] with the same
    comparator returns the state exactly as the first one left it. *)
Theorem QuickSort_twice cmp n s l ns :
  valid_cmp cmp → list_rep s l ns → (length ns < n)%nat →
  ∃ s', QuickSort cmp n s (Some l) = Done s' ∧ QuickSort cmp n s' (Some l) = Done s'.
Proof.
  intros Hc Hrep Hn. destruct (list_rep_values _ _ _ Hrep) as [V Hv].
  destruct (QuickSort_spec cmp V n s l ns Hrep Hv Hn)
    as (s' & ns' & Hq & Hrep' & Hr' & Hperm & Hsd & _ & _ & _ & Hsort & _).
  destruct (Hsort Hc) as [Hs _].
  assert (node_values (elems s') V ns') as Hv'.
  { eapply node_values_same_data; [done|]. intros x Hx. apply Hv. by rewrite <- Hperm. }
  destruct (QuickSort_spec cmp V n s' l ns' Hrep' Hv')
    as (s2 & ns2 & Hq2 & _ & _ & _ & _ & _ & _ & _ & Hsort2 & _).
  { rewrite Hperm. lia. }
  destruct (Hsort2 Hc) as [_ Hid]. destruct (Hid Hs) as [_ Heq].
  exists s'. split; [done|]. by rewrite Hq2, (Heq Hr').
Qed.

End SortOrder.

Section MoreExamples.

Lemma example_inv : inv example_limit example_state.
Proof.
  exact (reachable_inv 0 example_limit example_limit_small example_state
           example_reachable).
Qed.

Lemma example_room : (brk example_state + 2 < example_limit)%nat.
Proof. vm_compute. lia. Qed.

Lemma example_values5 : node_values (elems example_state) example_value [6; 7]%nat.
Proof.
  apply (node_values_default (elems example_state) 0).
  intros x Hx. by apply (list_rep_alloc _ _ _ _ example_rep5).
Qed.

Lemma Front_Back_ends_witness :
  Front example_state (Some 0%nat) = Done (Some 1%nat) ∧
  Back example_state (Some 0%nat) = Done (Some 3%nat) ∧
  Len example_state (Some 0%nat) = Done 3.
Proof.
  destruct (Front_Back_ends example_state 0 [1; 2; 3]%nat example_rep0)
    as (H1 & H2 & H3 & _).
  exact (conj H1 (conj H2 H3)).
Defined.

Lemma Next_Prev_neighbours_witness :
  Next (elems example_state) (Some 2%nat) = Done (Some 3%nat) ∧
  Prev (elems example_state) (Some 2%nat) = Done (Some 1%nat).
Proof.
  destruct (Next_Prev_neighbours example_state 0 [1]%nat 2%nat [3]%nat example_rep0)
    as (H1 & H2 & _).
  exact (conj H1 H2).
Defined.

Lemma PushBack_appends_witness :
  ∃ s' e,
    PushBack example_limit example_state (Some 0%nat) 11 = Done (s', Some e) ∧
    list_rep s' 0 [1; 2; 3; e]%nat ∧ value_of (elems s') e = Some 11.
Proof.
  destruct (PushBack_appends example_limit example_state 0 [1; 2; 3]%nat 11
              example_limit_small example_inv example_rep0)
    as (s' & e & H1 & _ & H2 & _ & H3 & _).
  { pose proof example_room. lia. }
  exists s', e. exact (conj H1 (conj H3 H2)).
Defined.

Lemma PushFront_prepends_witness :
  ∃ s' e,
    PushFront example_limit example_state (Some 0%nat) 11 = Done (s', Some e) ∧
    list_rep s' 0 [e; 1; 2; 3]%nat ∧ value_of (elems s') e = Some 11.
Proof.
  destruct (PushFront_prepends example_limit example_state 0 [1; 2; 3]%nat 11
              example_limit_small example_inv example_rep0)
    as (s' & e & H1 & _ & H2 & _ & H3 & _).
  { pose proof example_room. lia. }
  exists s', e. exact (conj H1 (conj H3 H2)).
Defined.

Lemma InsertBefore_places_witness :
  ∃ s' e,
    InsertBefore example_limit example_state (Some 0%nat) 11 (Some 2%nat)
      = Done (s', Some e) ∧
    list_rep s' 0 [1; e; 2; 3]%nat.
Proof.
  destruct (InsertBefore_places example_limit example_state 0 [1]%nat 2%nat [3]%nat 11
              example_limit_small example_inv example_rep0)
    as (s' & e & H1 & _ & _ & _ & H3 & _).
  { pose proof example_room. lia. }
  exists s', e. exact (conj H1 H3).
Defined.

Lemma InsertAfter_places_witness :
  ∃ s' e,
    InsertAfter example_limit example_state (Some 0%nat) 11 (Some 2%nat)
      = Done (s', Some e) ∧
    list_rep s' 0 [1; 2; e; 3]%nat.
Proof.
  destruct (InsertAfter_places example_limit example_state 0 [1]%nat 2%nat [3]%nat 11
              example_limit_small example_inv example_rep0)
    as (s' & e & H1 & _ & _ & _ & H3 & _).
  { pose proof example_room. lia. }
  exists s', e. exact (conj H1 H3).
Defined.

Lemma Remove_unlinks_witness :
  ∃ s',
    Remove example_state (Some 0%nat) (Some 2%nat) = Done (s', 3) ∧
    list_rep s' 0 [1; 3]%nat ∧
    Remove s' (Some 0%nat) (Some 2%nat) = Done (s', 3).
Proof.
  destruct (Remove_unlinks example_limit example_state 0 [1]%nat 2%nat [3]%nat
              example_limit_small example_inv example_rep0)
    as (s' & w & H1 & Hw & _ & H3 & _ & _ & _ & _ & _ & _ & H4).
  assert (w = 3) as -> by (vm_compute in Hw; congruence).
  exists s'. exact (conj H1 (conj H3 H4)).
Defined.

Lemma PushBack_Remove_roundtrip_witness :
  ∃ s1 e s2,
    PushBack example_limit example_state (Some 0%nat) 11 = Done (s1, Some e) ∧
    Remove s1 (Some 0%nat) (Some e) = Done (s2, 11) ∧
    list_rep s2 0 [1; 2; 3]%nat.
Proof.
  destruct (PushBack_Remove_roundtrip example_limit example_state 0 [1; 2; 3]%nat 11
              example_limit_small example_inv example_rep0)
    as (s1 & e & s2 & H1 & H2 & _ & H3 & _).
  { pose proof example_room. lia. }
  exists s1, e, s2. exact (conj H1 (conj H2 H3)).
Defined.

Lemma MoveToFront_places_witness :
  ∃ s', MoveToFront example_state (Some 0%nat) (Some 2%nat) = Done s' ∧
        list_rep s' 0 [2; 1; 3]%nat.
Proof.
  destruct (MoveToFront_places example_limit example_state 0 [1]%nat 2%nat [3]%nat
              example_limit_small example_inv example_rep0)
    as (s' & H1 & _ & H2 & _).
  exists s'. exact (conj H1 H2).
Defined.

Lemma MoveToBack_places_witness :
  ∃ s', MoveToBack example_state (Some 0%nat) (Some 2%nat) = Done s' ∧
        list_rep s' 0 [1; 3; 2]%nat.
Proof.
  destruct (MoveToBack_places example_limit example_state 0 [1]%nat 2%nat [3]%nat
              example_limit_small example_inv example_rep0)
    as (s' & H1 & _ & H2 & _).
  exists s'. exact (conj H1 H2).
Defined.

Lemma MoveAfter_places_witness :
  ∃ s', MoveAfter example_state (Some 0%nat) (Some 2%nat) (Some 3%nat) = Done s' ∧
        list_rep s' 0 [1; 3; 2]%nat.
Proof.
  destruct (MoveAfter_places example_limit example_state 0 [1]%nat 2%nat [3]%nat
              [1]%nat 3%nat [] example_limit_small example_inv example_rep0 eq_refl)
    as (s' & H1 & _ & H2 & _).
  exists s'. exact (conj H1 H2).
Defined.

Lemma MoveBefore_places_witness :
  ∃ s', MoveBefore example_state (Some 0%nat) (Some 2%nat) (Some 1%nat) = Done s' ∧
        list_rep s' 0 [2; 1; 3]%nat.
Proof.
  destruct (MoveBefore_places example_limit example_state 0 [1]%nat 2%nat [3]%nat
              [] 1%nat [3]%nat example_limit_small example_inv example_rep0 eq_refl)
    as (s' & H1 & _ & H2 & _).
  exists s'. exact (conj H1 H2).
Defined.

Lemma New_empty_witness :
  ∃ s' l,
    New 0 example_limit example_state = Done (s', Some l) ∧
    list_rep s' l [] ∧ Len s' (Some l) = Done 0 ∧
    list_rep s' 0 [1; 2; 3]%nat.
Proof.
  destruct (New_empty 0 example_limit example_state example_inv)
    as (s' & l & H1 & _ & _ & _ & H2 & _ & H3 & _ & _ & H4).
  { pose proof example_room. lia. }
  exists s', l. exact (conj H1 (conj H2 (conj H3 (H4 _ _ example_rep0)))).
Defined.

Lemma PushBackList_copies_witness :
  ∃ s' N,
    PushBackList example_limit example_state (Some 0%nat) (Some 5%nat) = Done s' ∧
    list_rep s' 0 ([1; 2; 3]%nat ++ N) ∧
    list_rep s' 5 [6; 7]%nat ∧
    Values 5 s' (Some 0%nat) = Done [5; 3; 8; 4; 9].
Proof.
  destruct (PushBackList_copies example_limit example_state 0 5 [1; 2; 3]%nat [6; 7]%nat
              example_limit_small example_inv example_rep0 example_rep5)
    as (s' & N & H1 & _ & H2 & _ & _ & _ & H3 & H4).
  { pose proof example_room. simpl. lia. }
  exists s', N. split; [exact H1|]. split; [exact H2|]. split.
  - apply H3; [lia|exact example_rep5].
  - apply (H4 5%nat [5; 3; 8] [4; 9]); [simpl; lia| |]; vm_compute; reflexivity.
Defined.

Lemma PushFrontList_copies_witness :
  ∃ s' N,
    PushFrontList example_limit example_state (Some 0%nat) (Some 5%nat) = Done s' ∧
    list_rep s' 0 (N ++ [1; 2; 3]%nat) ∧
    list_rep s' 5 [6; 7]%nat ∧
    Values 5 s' (Some 0%nat) = Done [4; 9; 5; 3; 8].
Proof.
  destruct (PushFrontList_copies example_limit example_state 0 5 [1; 2; 3]%nat [6; 7]%nat
              example_limit_small example_inv example_rep0 example_rep5)
    as (s' & N & H1 & _ & H2 & _ & _ & _ & H3 & H4).
  { pose proof example_room. simpl. lia. }
  exists s', N. split; [exact H1|]. split; [exact H2|]. split.
  - apply H3; [lia|exact example_rep5].
  - apply (H4 5%nat [5; 3; 8] [4; 9]); [simpl; lia| |]; vm_compute; reflexivity.
Defined.

Lemma QuickSort_frame_witness :
  ∃ s',
    QuickSort cmp_int 4 example_state (Some 0%nat) = Done s' ∧
    (∀ x, x ∈ [5; 6; 7]%nat → elems s' !! x = elems example_state !! x) ∧
    list_rep s' 5 [6; 7]%nat.
Proof.
  destruct (QuickSort_frame cmp_int 4 example_state 0 [1; 2; 3]%nat 5 [6; 7]%nat
              example_rep0 example_rep5)
    as (s' & H1 & _ & H2 & H3 & _).
  { lia. }
  { simpl. lia. }
  exists s'. exact (conj H1 (conj H2 H3)).
Defined.

Lemma QuickSort_all_pairs_witness :
  ∃ s' vs,
    QuickSort cmp_int 4 example_state (Some 0%nat) = Done s' ∧
    Values 4 s' (Some 0%nat) = Done vs ∧
    ∀ (i j : nat) (va vb : Z),
      (i < j)%nat → vs !! i = Some va → vs !! j = Some vb → cmp_int va vb <= 0.
Proof.
  apply (QuickSort_all_pairs cmp_int 4 example_state 0 [1; 2; 3]%nat).
  - apply cmp_int_valid.
  - apply example_rep0.
  - simpl. lia.
Defined.

Lemma swap_twice_restores_witness :
  ∃ h1 r,
    swap (elems example_state) (Some 1%nat) (Some 3%nat) = Done (h1, r) ∧
    swap h1 (Some 1%nat) (Some 3%nat) = Done (elems example_state, r) ∧
    swap h1 (Some 3%nat) (Some 1%nat) = Done (elems example_state, r).
Proof.
  apply (swap_twice_restores (elems example_state) 0 [1; 2; 3]%nat 1%nat 3%nat).
  - apply example_ring0.
  - apply list_elem_of_here.
  - do 2 apply list_elem_of_further. apply list_elem_of_here.
  - lia.
Defined.

Lemma Init_keeps_owner_witness :
  ∃ s1 s2 w,
    Init example_state (Some 0%nat) = Done s1 ∧
    Len s1 (Some 0%nat) = Done 0 ∧
    Remove s1 (Some 0%nat) (Some 2%nat) = Done (s2, w) ∧
    Len s2 (Some 0%nat) = Done (-1).
Proof.
  destruct (Init_keeps_owner example_state 0 [1]%nat 2%nat [3]%nat example_rep0)
    as (s1 & s2 & w & H1 & H2 & _ & _ & _ & H3 & _ & H4).
  exists s1, s2, w. exact (conj H1 (conj H2 (conj H3 H4))).
Defined.


Lemma QuickSort_unique_order_witness :
  ∃ s',
    QuickSort cmp_int 4 example_state (Some 0%nat) = Done s' ∧
    traversal 4 s' (Some 0%nat) = Done [2; 1; 3]%nat ∧
    Values 4 s' (Some 0%nat) = Done [3; 5; 8].
Proof.
  destruct (QuickSort_unique_order cmp_int example_value 4 example_state 0
              [1; 2; 3]%nat [2; 1; 3]%nat)
    as (s' & H1 & _ & H2 & H3).
  - apply cmp_int_valid.
  - apply example_rep0.
  - apply example_values0.
  - intros x y Hx Hy.
    repeat (apply elem_of_cons in Hx as [->|Hx]);
      [| | |apply elem_of_nil in Hx; destruct Hx];
      repeat (apply elem_of_cons in Hy as [->|Hy]);
      try (apply elem_of_nil in Hy; destruct Hy);
      vm_compute; congruence.
  - apply perm_swap.
  - repeat constructor; vm_compute; discriminate.
  - simpl. lia.
  - assert (example_value <$> [2; 1; 3]%nat = [3; 5; 8]) as E by (vm_compute; reflexivity).
    rewrite E in H3. exists s'. exact (conj H1 (conj H2 H3)).
Defined.

Lemma QuickSort_twice_witness :
  ∃ s',
    QuickSort cmp_int 4 example_state (Some 0%nat) = Done s' ∧
    QuickSort cmp_int 4 s' (Some 0%nat) = Done s'.
Proof.
  apply (QuickSort_twice cmp_int 4 example_state 0 [1; 2; 3]%nat).
  - apply cmp_int_valid.
  - apply example_rep0.
  - simpl. lia.
Defined.

End MoreExamples.

Section PrintingFacts.
Context {T : Type}.
Variable sprintf : T → String.string.
Implicit Types (s : @State T) (h : gmap nat (@Element T)) (x y l : nat)
  (A B ns : list nat) (vs : list T) (acc : String.string).

Lemma append_cons c (a b : String.string) :
  String.append (String.String c a) b = String.String c (String.append a b).
Proof. reflexivity. Qed.

Lemma append_empty_r (a : String.string) : String.append a String.EmptyString = a.
Proof. induction a as [|c a IH]; [done|]. by rewrite append_cons, IH. Qed.

Lemma append_assoc (a b c : String.string) :
  String.append (String.append a b) c = String.append a (String.append b c).
Proof. induction a as [|x a IH]; [done|]. by rewrite !append_cons, IH. Qed.

Lemma String_loop_ring n h l A B vs acc :
  ring h l (A ++ B) → Forall2 (λ x v, value_of h x = Some v) B vs →
  (length B < n)%nat →
  String_loop sprintf n h (Some l) (Some (hd l B)) acc
    = Done (String.append acc
              (foldr (λ v r, String.append (sprintf v) r) String.EmptyString vs)).
Proof.
  revert n A vs acc. induction B as [|x B IH]; intros n A vs acc Hr Hvs Hn.
  - apply Forall2_nil_inv_l in Hvs as ->. destruct n as [|n]; [simpl in Hn; lia|].
    simpl. rewrite decide_False by (by intros [_ ?]). by rewrite append_empty_r.
  - apply Forall2_cons_inv_l in Hvs as (v & vs' & Hv & Hvs & ->).
    destruct n as [|n]; [simpl in Hn; lia|]. cbn [String_loop hd].
    rewrite decide_True; cycle 1.
    { split; [done|]. intros [= ->]. by apply ring_not_root in Hr. }
    rewrite (get_Value_alloc _ _ v) by done. cbn [bindR].
    rewrite get_next_alloc by (by eapply value_alloc).
    rewrite (ring_nx _ _ _ _ _ Hr). cbn [bindR].
    rewrite (IH n (A ++ [x]) vs'); [|by rewrite <- app_assoc|done|simpl in Hn; lia].
    simpl. by rewrite append_assoc.
Qed.

(** X23: [String] returns the values of the list, front to back, each
    printed by [fmt.Sprintf("%+v ", v)] and joined in that order; for an
    empty list, also a zero [List], it is the empty string.  It reads the
    same values as the iteration with [Front] and [Next]. *)
Theorem String_prints_values n s l ns vs :
  list_rep s l ns → (length ns < n)%nat →
  Values n s (Some l) = Done vs →
  String_ sprintf n s (Some l)
    = Done (foldr (λ v r, String.append (sprintf v) r) String.EmptyString vs) ∧
  (ns = [] → String_ sprintf n s (Some l) = Done String.EmptyString).
Proof.
  intros Hrep Hn Hvs.
  apply (Values_Forall2 n s l ns vs Hrep) in Hvs; [|lia].
  assert (String_ sprintf n s (Some l)
    = Done (foldr (λ v r, String.append (sprintf v) r) String.EmptyString vs)) as E.
  { unfold String_, get_len. rewrite (rep_len _ _ _ Hrep). cbn [bindR].
    destruct ns as [|x ns'].
    - apply Forall2_nil_inv_l in Hvs as ->. by rewrite decide_True.
    - rewrite decide_False by (simpl; lia).
      assert (ring (elems s) l (x :: ns')) as Hr by (by apply list_rep_ring).
      rewrite get_next_alloc by apply (rep_root _ _ _ Hrep).
      rewrite (ring_nx_root _ _ _ Hr). cbn [bindR].
      by rewrite (String_loop_ring n (elems s) l [] (x :: ns') vs String.EmptyString). }
  split; [done|]. intros ->. rewrite E.
  by apply Forall2_nil_inv_l in Hvs as ->.
Qed.

End PrintingFacts.

Section PrintingExample.

Lemma String_prints_values_witness :
  String_ example_sprintf 4 example_state (Some 0%nat)
    = Done (String.append (example_sprintf 5)
              (String.append (example_sprintf 3)
                 (String.append (example_sprintf 8) String.EmptyString))).
Proof.
  destruct (String_prints_values example_sprintf 4 example_state 0 [1; 2; 3]%nat
              [5; 3; 8] example_rep0) as [H _].
  - simpl. lia.
  - vm_compute. reflexivity.
  - exact H.
Defined.

End PrintingExample.
